(** * Module dependency graph analysis: cycle enumeration, Tarjan components,
      violation classification.

    Shallow embedding of
      - [src/Tools/dependency_analyzer.py]            (module [DependencyAnalyzer]),
      - [src/analyze_circular_deps.py]                (module [AnalyzeCircularDeps]),
      - [src/Assets/.../assembly_dependency_analyzer.py]
                                                      (module [AssemblyDependencyAnalyzer]).

    Python closures that mutate captured locals ([visited], [rec_stack],
    [path], [cycles], [index], [lowlinks], [stack], ...) become functions that
    thread a record of those locals.  Partial operations ([d[k]],
    [list.index], [list.pop], [set.remove]) live in an exception monad.
    Recursion is bounded by a fuel argument; the entry points choose the fuel
    from the graph and the theorems show it is never exhausted.  (The
    interpreter's own recursion limit is not part of the model.) *)

From Stdlib Require Import String Ascii List Arith Bool Lia Relations Permutation.
From Stdlib Require Import DecimalString.
Import ListNotations.
Open Scope string_scope.
Open Scope list_scope.

(** String concatenation ([+] on [str], f-strings); [++] is kept for lists. *)
Infix "+++" := String.append (at level 60, right associativity).

(* ------------------------------------------------------------------------- *)
(** ** Exceptions and results *)

Inductive exn : Type :=
| KeyError
| ValueError
| IndexError.

Inductive result (A : Type) : Type :=
| Ok (a : A)
| Raise (e : exn)
| OutOfFuel.

Arguments Ok {A} a.
Arguments Raise {A} e.
Arguments OutOfFuel {A}.

Definition bind {A B : Type} (r : result A) (k : A -> result B) : result B :=
  match r with
  | Ok a => k a
  | Raise e => Raise e
  | OutOfFuel => OutOfFuel
  end.

Notation "x <- c ;; k" := (bind c (fun x => k))
  (at level 61, c at next level, right associativity).
Notation "' p <- c ;; k" := (bind c (fun x => let p := x in k))
  (at level 61, p pattern, c at next level, right associativity).

(* ------------------------------------------------------------------------- *)
(** ** Python containers *)

(** A [dict] keyed by strings.  Python dictionaries iterate in insertion
    order and assigning to an existing key keeps the key's position. *)
Definition dict (V : Type) : Type := list (string * V).

Fixpoint dict_get {V : Type} (k : string) (d : dict V) : option V :=
  match d with
  | [] => None
  | (k', v) :: d' => if String.eqb k k' then Some v else dict_get k d'
  end.

(** [k in d] *)
Definition dict_mem {V : Type} (k : string) (d : dict V) : bool :=
  match dict_get k d with Some _ => true | None => false end.

(** [d.get(k, default)] *)
Definition dict_get_default {V : Type} (k : string) (default : V) (d : dict V) : V :=
  match dict_get k d with Some v => v | None => default end.

(** [d[k]] as an expression: raises [KeyError] on a missing key. *)
Definition dict_lookup {V : Type} (k : string) (d : dict V) : result V :=
  match dict_get k d with Some v => Ok v | None => Raise KeyError end.

(** [d[k] = v] *)
Fixpoint dict_set {V : Type} (k : string) (v : V) (d : dict V) : dict V :=
  match d with
  | [] => [(k, v)]
  | (k', v') :: d' =>
      if String.eqb k k' then (k', v) :: d' else (k', v') :: dict_set k v d'
  end.

(** [list(d)], [d.keys()] *)
Definition dict_keys {V : Type} (d : dict V) : list string := map fst d.

(** A [set] of strings used only through [in], [add] and [remove];
    kept as a duplicate-free list. *)
Definition pyset : Type := list string.

Definition set_mem (x : string) (s : pyset) : bool := existsb (String.eqb x) s.

Definition set_add (x : string) (s : pyset) : pyset :=
  if set_mem x s then s else s ++ [x].

(** [s.remove(x)]: raises [KeyError] when [x] is absent. *)
Definition set_remove (x : string) (s : pyset) : result pyset :=
  if set_mem x s then Ok (filter (fun y => negb (String.eqb x y)) s)
  else Raise KeyError.

(** [l.index(x)]: position of the first occurrence, [ValueError] when absent. *)
Fixpoint list_index (x : string) (l : list string) : result nat :=
  match l with
  | [] => Raise ValueError
  | y :: l' => if String.eqb x y then Ok 0 else (i <- list_index x l' ;; Ok (S i))
  end.

(** [l.pop()]: drops the last element, [IndexError] on the empty list. *)
Definition list_pop (l : list string) : result (list string) :=
  match l with
  | [] => Raise IndexError
  | _ => Ok (removelast l)
  end.

(** [sub in s] on strings. *)
Fixpoint contains (sub s : string) : bool :=
  String.prefix sub s ||
  match s with
  | EmptyString => false
  | String _ s' => contains sub s'
  end.

(** [str(n)] for a non-negative integer. *)
Definition str_of_nat (n : nat) : string := NilEmpty.string_of_uint (Nat.to_uint n).

(* ------------------------------------------------------------------------- *)
(** ** Input: assembly definition files *)

(** The fields of one [.asmdef] file the analyzers read.  The key [name] may
    be missing, and the analyzers do not agree on its default; the two lists
    are read with [data.get(key, [])] by all of them. *)
Record declaration : Type := {
  decl_name : option string;
  decl_references : list string;
  decl_assembly_references : list string
}.

(** [data.get('name', default)] *)
Definition get_name (default : string) (d : declaration) : string :=
  match decl_name d with
  | Some n => n
  | None => default
  end.

(** What opening and parsing a file gives: the message of the exception
    raised by [open]/[json.load], or the declaration. *)
Inductive file_content : Type :=
| Unreadable (exc : string)
| Json (d : declaration).

(** A file the directory walk finds: its path, that path relative to the
    project root, the stem of its name ([Path.stem]) and its content. *)
Record asmdef_file : Type := {
  file_path : string;
  relative_path : string;
  file_stem : string;
  content : file_content
}.

(** One file per declaration, in the project root, named after the
    declaration. *)
Definition files_of (decls : list declaration) : list asmdef_file :=
  map (fun d => {| file_path := get_name "" d +++ ".asmdef";
                   relative_path := get_name "" d +++ ".asmdef";
                   file_stem := get_name "" d;
                   content := Json d |}) decls.

(* ------------------------------------------------------------------------- *)
(** ** [src/Tools/dependency_analyzer.py] *)

Module DependencyAnalyzer.

Record assembly_info : Type := {
  info_file : string;
  info_references : list string
}.

(** The object's fields [self.assemblies] and [self.dependency_graph]. *)
Record analyzer : Type := {
  assemblies : dict assembly_info;
  dependency_graph : dict (list string)
}.

(** [__init__] *)
Definition init : analyzer := {| assemblies := []; dependency_graph := [] |}.

(** One iteration of the loop of [load_assemblies]; the second component is
    what the iteration prints. *)
Definition load_one (f : asmdef_file) (self : analyzer) : analyzer * list string :=
  match content f with
  | Json d =>
      ({| assemblies :=
            dict_set (get_name "" d)
              {| info_file := relative_path f; info_references := decl_references d |}
              (assemblies self);
          dependency_graph :=
            dict_set (get_name "" d) (decl_references d) (dependency_graph self) |},
       [])
  | Unreadable e =>
      (self, ["Error loading " +++ file_path f +++ ": " +++ e])
  end.

Fixpoint load_assemblies (files : list asmdef_file) (self : analyzer)
  : analyzer * list string :=
  match files with
  | [] => (self, [])
  | f :: files' =>
      let '(self1, out1) := load_one f self in
      let '(self2, out2) := load_assemblies files' self1 in
      (self2, out1 ++ out2)
  end.

(** The locals of [find_cycles] that the closure [dfs] mutates. *)
Record dfs_state : Type := {
  cycles : list (list string);
  visited : pyset;
  rec_stack : pyset;
  path : list string
}.

(** The [for neighbor in ...] loop of [dfs]; [rec] is the recursive call. *)
Fixpoint dfs_neighbors (rec : string -> dfs_state -> result (bool * dfs_state))
    (graph : dict (list string)) (neighbors : list string) (st : dfs_state)
  : result (bool * dfs_state) :=
  match neighbors with
  | [] => Ok (false, st)
  | neighbor :: rest =>
      if dict_mem neighbor graph then
        r <- rec neighbor st ;;
        if fst r then Ok (true, snd r)
        else dfs_neighbors rec graph rest (snd r)
      else dfs_neighbors rec graph rest st
  end.

Fixpoint dfs (fuel : nat) (graph : dict (list string)) (node : string)
    (st : dfs_state) : result (bool * dfs_state) :=
  match fuel with
  | 0 => OutOfFuel
  | S fuel' =>
      if set_mem node (rec_stack st) then
        cycle_start <- list_index node (path st) ;;
        let cycle := skipn cycle_start (path st) ++ [node] in
        Ok (true, {| cycles := cycles st ++ [cycle];
                     visited := visited st;
                     rec_stack := rec_stack st;
                     path := path st |})
      else if set_mem node (visited st) then Ok (false, st)
      else
        let st1 := {| cycles := cycles st;
                      visited := set_add node (visited st);
                      rec_stack := set_add node (rec_stack st);
                      path := path st ++ [node] |} in
        r <- dfs_neighbors (dfs fuel' graph) graph
               (dict_get_default node [] graph) st1 ;;
        if fst r then Ok (true, snd r)
        else
          let st2 := snd r in
          rs <- set_remove node (rec_stack st2) ;;
          p <- list_pop (path st2) ;;
          Ok (false, {| cycles := cycles st2;
                        visited := visited st2;
                        rec_stack := rs;
                        path := p |})
  end.

(** The loop [for assembly in self.dependency_graph]. *)
Fixpoint find_cycles_loop (fuel : nat) (graph : dict (list string))
    (todo : list string) (st : dfs_state) : result dfs_state :=
  match todo with
  | [] => Ok st
  | assembly :: rest =>
      if set_mem assembly (visited st) then find_cycles_loop fuel graph rest st
      else
        r <- dfs fuel graph assembly st ;;
        find_cycles_loop fuel graph rest (snd r)
  end.

Definition find_cycles_from (fuel : nat) (graph : dict (list string))
  : result (list (list string)) :=
  st <- find_cycles_loop fuel graph (dict_keys graph)
          {| cycles := []; visited := []; rec_stack := []; path := [] |} ;;
  Ok (cycles st).

(** Every call of [dfs] below the first marks a new key of the graph, so the
    recursion is never deeper than the number of keys plus one. *)
Definition find_cycles (self : analyzer) : result (list (list string)) :=
  find_cycles_from (S (length (dependency_graph self))) (dependency_graph self).

End DependencyAnalyzer.

(* ------------------------------------------------------------------------- *)
(** ** Tarjan's algorithm, as both SCC finders write it

    [find_strongly_connected_components] of [analyze_circular_deps.py] and of
    [assembly_dependency_analyzer.py] are the same text up to the container
    that holds the successors and the test that skips external assemblies.
    [successors node] is the sequence the [for] loop over the successors of
    [node] goes through and [skip] is the guard of its [continue]. *)

Module Tarjan.

(** The locals of [find_strongly_connected_components] that [strongconnect]
    mutates.  [stack] is kept with its top first: [stack.append(x)] is
    [x :: stack] and [stack.pop()] takes the head.  [components] is named
    [scc_list] in [assembly_dependency_analyzer.py]. *)
Record state : Type := {
  index_counter : nat;
  stack : list string;
  lowlinks : dict nat;
  index : dict nat;
  on_stack : dict bool;
  components : list (list string)
}.

Definition initial : state :=
  {| index_counter := 0; stack := []; lowlinks := []; index := [];
     on_stack := []; components := [] |}.

Definition set_lowlink (node : string) (v : nat) (st : state) : state :=
  {| index_counter := index_counter st;
     stack := stack st;
     lowlinks := dict_set node v (lowlinks st);
     index := index st;
     on_stack := on_stack st;
     components := components st |}.

(** The [while True] loop that pops one component off the stack. *)
Fixpoint pop_component (node : string) (stk : list string) (ons : dict bool)
    (component : list string) : result (list string * dict bool * list string) :=
  match stk with
  | [] => Raise IndexError
  | w :: stk' =>
      let ons' := dict_set w false ons in
      let component' := component ++ [w] in
      if String.eqb w node then Ok (stk', ons', component')
      else pop_component node stk' ons' component'
  end.

Section Algorithm.

Variable successors : string -> list string.
Variable skip : string -> bool.

(** The [for successor in ...] loop of [strongconnect]. *)
Fixpoint visit_successors (rec : string -> state -> result state)
    (node : string) (succs : list string) (st : state) : result state :=
  match succs with
  | [] => Ok st
  | successor :: rest =>
      if skip successor then visit_successors rec node rest st
      else if negb (dict_mem successor (index st)) then
        st1 <- rec successor st ;;
        ln <- dict_lookup node (lowlinks st1) ;;
        ls <- dict_lookup successor (lowlinks st1) ;;
        visit_successors rec node rest (set_lowlink node (Nat.min ln ls) st1)
      else if dict_get_default successor false (on_stack st) then
        ln <- dict_lookup node (lowlinks st) ;;
        i <- dict_lookup successor (index st) ;;
        visit_successors rec node rest (set_lowlink node (Nat.min ln i) st)
      else visit_successors rec node rest st
  end.

Fixpoint strongconnect (fuel : nat) (node : string) (st : state) : result state :=
  match fuel with
  | 0 => OutOfFuel
  | S fuel' =>
      let st1 :=
        {| index_counter := index_counter st + 1;
           stack := node :: stack st;
           lowlinks := dict_set node (index_counter st) (lowlinks st);
           index := dict_set node (index_counter st) (index st);
           on_stack := dict_set node true (on_stack st);
           components := components st |} in
      st2 <- visit_successors (strongconnect fuel') node (successors node) st1 ;;
      ln <- dict_lookup node (lowlinks st2) ;;
      i <- dict_lookup node (index st2) ;;
      if Nat.eqb ln i then
        popped <- pop_component node (stack st2) (on_stack st2) [] ;;
        let '(stk, ons, component) := popped in
        Ok {| index_counter := index_counter st2;
              stack := stk;
              lowlinks := lowlinks st2;
              index := index st2;
              on_stack := ons;
              components :=
                if Nat.ltb 1 (length component)
                then components st2 ++ [component]
                else components st2 |}
      else Ok st2
  end.

(** The loop over the root nodes at the end of the function. *)
Fixpoint visit_roots (fuel : nat) (roots : list string) (st : state) : result state :=
  match roots with
  | [] => Ok st
  | node :: rest =>
      if negb (dict_mem node (index st)) then
        st1 <- strongconnect fuel node st ;;
        visit_roots fuel rest st1
      else visit_roots fuel rest st
  end.

Definition run (fuel : nat) (roots : list string) : result (list (list string)) :=
  st <- visit_roots fuel roots initial ;;
  Ok (components st).

End Algorithm.

End Tarjan.

(* ------------------------------------------------------------------------- *)
(** ** [src/analyze_circular_deps.py] *)

Module AnalyzeCircularDeps.

(** The dictionary [parse_asmdef] returns. *)
Record asmdef : Type := {
  name : string;
  references : list string;
  asmdef_path : string
}.

(** [parse_asmdef]: the parsed entry or [None], and what it prints. *)
Definition parse_asmdef (f : asmdef_file) : option asmdef * list string :=
  match content f with
  | Json d =>
      (Some {| name := get_name "" d; references := decl_references d;
               asmdef_path := file_path f |}, [])
  | Unreadable e =>
      (None, ["Error parsing " +++ file_path f +++ ": " +++ e])
  end.

(** First pass of [build_dependency_graph]. *)
Fixpoint collect_assemblies (asmdef_files : list asmdef_file)
    (assemblies : dict asmdef) : dict asmdef * list string :=
  match asmdef_files with
  | [] => (assemblies, [])
  | f :: rest =>
      let '(parsed, out1) := parse_asmdef f in
      let assemblies1 :=
        match parsed with
        | Some a => dict_set (name a) a assemblies
        | None => assemblies
        end in
      let '(assemblies2, out2) := collect_assemblies rest assemblies1 in
      (assemblies2, out1 ++ out2)
  end.

(** [graph[k].append(v)] on a [defaultdict(list)]. *)
Definition defaultdict_append (k v : string) (graph : dict (list string))
  : dict (list string) :=
  dict_set k (dict_get_default k [] graph ++ [v]) graph.

(** Second pass: the inner loop over [asmdef['references']]. *)
Fixpoint add_references (assemblies : dict asmdef) (nm : string)
    (refs : list string) (graph : dict (list string)) : dict (list string) :=
  match refs with
  | [] => graph
  | ref :: rest =>
      if dict_mem ref assemblies
      then add_references assemblies nm rest (defaultdict_append nm ref graph)
      else add_references assemblies nm rest graph
  end.

Fixpoint build_graph (assemblies : dict asmdef) (items : list (string * asmdef))
    (graph : dict (list string)) : dict (list string) :=
  match items with
  | [] => graph
  | (nm, a) :: rest =>
      build_graph assemblies rest (add_references assemblies nm (references a) graph)
  end.

(** [build_dependency_graph]: the pair it returns, and what it prints. *)
Definition build_dependency_graph (asmdef_files : list asmdef_file)
  : (dict asmdef * dict (list string)) * list string :=
  let '(assemblies, out) := collect_assemblies asmdef_files [] in
  ((assemblies, build_graph assemblies assemblies []), out).

(** Nodes [strongconnect] can reach: the keys of [graph] and their successors. *)
Definition nodes (graph : dict (list string)) : list string :=
  dict_keys graph ++ concat (map snd graph).

Definition find_strongly_connected_components (graph : dict (list string))
  : result (list (list string)) :=
  Tarjan.run (fun node => dict_get_default node [] graph) (fun _ => false)
    (S (length (nodes graph))) (dict_keys graph).

End AnalyzeCircularDeps.

(* ------------------------------------------------------------------------- *)
(** ** [src/Assets/ProjectChimera/Data/Genetics/assembly_dependency_analyzer.py] *)

Module AssemblyDependencyAnalyzer.

Record assembly_info : Type := {
  info_file_path : string;
  info_references : list string;
  info_assembly_references : list string
}.

(** The object's fields.  The two graphs are [defaultdict(set)]. *)
Record analyzer : Type := {
  assemblies : dict assembly_info;
  dependency_graph : dict pyset;
  reverse_dependency_graph : dict pyset
}.

Definition init : analyzer :=
  {| assemblies := []; dependency_graph := []; reverse_dependency_graph := [] |}.

(** One iteration of the loop of [load_assembly_definitions] and what it
    prints; the name defaults to the stem of the file's name. *)
Definition load_one (f : asmdef_file) (self : analyzer) : analyzer * list string :=
  match content f with
  | Json d =>
      let assembly_name := get_name (file_stem f) d in
      ({| assemblies :=
            dict_set assembly_name
              {| info_file_path := file_path f;
                 info_references := decl_references d;
                 info_assembly_references := decl_assembly_references d |}
              (assemblies self);
          dependency_graph := dependency_graph self;
          reverse_dependency_graph := reverse_dependency_graph self |},
       ["Loaded: " +++ assembly_name])
  | Unreadable e =>
      (self, ["Error loading " +++ file_path f +++ ": " +++ e])
  end.

(** The loop [for asmdef_file in asmdef_files] of [load_assembly_definitions]. *)
Fixpoint load_loop (files : list asmdef_file) (self : analyzer)
  : analyzer * list string :=
  match files with
  | [] => (self, [])
  | f :: files' =>
      let '(self1, out1) := load_one f self in
      let '(self2, out2) := load_loop files' self1 in
      (self2, out1 ++ out2)
  end.

(** [load_assembly_definitions]: it prints the number of files found, then
    runs the loop. *)
Definition load_assembly_definitions (files : list asmdef_file) (self : analyzer)
  : analyzer * list string :=
  (fst (load_loop files self),
   ("Found " +++ str_of_nat (length files) +++ " .asmdef files")
   :: snd (load_loop files self)).

(** [d[k].add(x)] on a [defaultdict(set)]. *)
Definition defaultdict_add (k x : string) (d : dict pyset) : dict pyset :=
  dict_set k (set_add x (dict_get_default k [] d)) d.

(** The two statements both inner loops of [build_dependency_graph] run. *)
Definition add_edge (assembly_name ref : string) (self : analyzer) : analyzer :=
  {| assemblies := assemblies self;
     dependency_graph := defaultdict_add assembly_name ref (dependency_graph self);
     reverse_dependency_graph :=
       defaultdict_add ref assembly_name (reverse_dependency_graph self) |}.

Fixpoint add_references (assembly_name : string) (refs : list string)
    (self : analyzer) : analyzer :=
  match refs with
  | [] => self
  | ref :: rest => add_references assembly_name rest (add_edge assembly_name ref self)
  end.

Fixpoint add_assembly_references (assembly_name : string) (refs : list string)
    (self : analyzer) : analyzer :=
  match refs with
  | [] => self
  | ref :: rest =>
      if String.prefix "GUID:" ref
      then add_assembly_references assembly_name rest self
      else add_assembly_references assembly_name rest (add_edge assembly_name ref self)
  end.

Fixpoint build_items (items : list (string * assembly_info)) (self : analyzer)
  : analyzer :=
  match items with
  | [] => self
  | (assembly_name, info) :: rest =>
      build_items rest
        (add_assembly_references assembly_name (info_assembly_references info)
           (add_references assembly_name (info_references info) self))
  end.

Definition build_dependency_graph (self : analyzer) : analyzer :=
  build_items (assemblies self) self.

(** The analyzer [run_analysis] works on once the files are loaded and the
    graph is built. *)
Definition load (files : list asmdef_file) : analyzer :=
  build_dependency_graph (fst (load_assembly_definitions files init)).

(** The locals of [detect_circular_dependencies] that [dfs] mutates; [path]
    is an argument of [dfs], copied at every call. *)
Record dfs_state : Type := {
  visited : pyset;
  rec_stack : pyset;
  cycles : list (list string)
}.

(** The four lists of [analyze_dependency_violations], in the order of the
    dictionary's keys. *)
Record violations : Type := {
  editor_runtime_cycles : list string;
  test_production_cycles : list string;
  circular_core_dependencies : list string;
  missing_dependencies : list string
}.

Definition violations_items (v : violations) : list (string * list string) :=
  [("editor_runtime_cycles", editor_runtime_cycles v);
   ("test_production_cycles", test_production_cycles v);
   ("circular_core_dependencies", circular_core_dependencies v);
   ("missing_dependencies", missing_dependencies v)].

Definition is_editor (nm : string) : bool := contains ".Editor" nm.
Definition is_test (nm : string) : bool := contains ".Testing" nm || contains ".Test" nm.

Section SetIteration.

(** The order in which Python iterates a [set] of strings: it depends on the
    hashes of the strings, which the source does not fix. *)
Variable set_iter : pyset -> list string.

(** The [for neighbor in ...] loop of [dfs]. *)
Fixpoint dfs_neighbors (rec : string -> list string -> dfs_state -> result dfs_state)
    (self : analyzer) (neighbors : list string) (path : list string)
    (st : dfs_state) : result dfs_state :=
  match neighbors with
  | [] => Ok st
  | neighbor :: rest =>
      if dict_mem neighbor (assemblies self) then
        st1 <- rec neighbor path st ;;
        dfs_neighbors rec self rest path st1
      else dfs_neighbors rec self rest path st
  end.

Fixpoint dfs (fuel : nat) (self : analyzer) (node : string) (path : list string)
    (st : dfs_state) : result dfs_state :=
  match fuel with
  | 0 => OutOfFuel
  | S fuel' =>
      if set_mem node (rec_stack st) then
        cycle_start <- list_index node path ;;
        let cycle := skipn cycle_start path ++ [node] in
        Ok {| visited := visited st;
              rec_stack := rec_stack st;
              cycles := cycles st ++ [cycle] |}
      else if set_mem node (visited st) then Ok st
      else
        let st1 := {| visited := set_add node (visited st);
                      rec_stack := set_add node (rec_stack st);
                      cycles := cycles st |} in
        let path1 := path ++ [node] in
        st2 <- dfs_neighbors (dfs fuel' self) self
                 (set_iter (dict_get_default node [] (dependency_graph self)))
                 path1 st1 ;;
        rs <- set_remove node (rec_stack st2) ;;
        Ok {| visited := visited st2; rec_stack := rs; cycles := cycles st2 |}
  end.

(** The loop [for assembly in self.assemblies.keys()]. *)
Fixpoint detect_loop (fuel : nat) (self : analyzer) (todo : list string)
    (st : dfs_state) : result dfs_state :=
  match todo with
  | [] => Ok st
  | assembly :: rest =>
      if set_mem assembly (visited st) then detect_loop fuel self rest st
      else
        st1 <- dfs fuel self assembly [] st ;;
        detect_loop fuel self rest st1
  end.

Definition detect_circular_dependencies (self : analyzer)
  : result (list (list string)) :=
  st <- detect_loop (S (length (assemblies self))) self (dict_keys (assemblies self))
          {| visited := []; rec_stack := []; cycles := [] |} ;;
  Ok (cycles st).

Definition find_strongly_connected_components (self : analyzer)
  : result (list (list string)) :=
  Tarjan.run
    (fun node => set_iter (dict_get_default node [] (dependency_graph self)))
    (fun neighbor => negb (dict_mem neighbor (assemblies self)))
    (S (length (assemblies self))) (dict_keys (assemblies self)).

End SetIteration.

(** The inner loops of [analyze_dependency_violations]: the violations one
    assembly adds to a list. *)
Fixpoint cycle_with (self : analyzer) (restricted : string -> bool)
    (assembly_name : string) (deps : list string) : list string :=
  match deps with
  | [] => []
  | dep :: rest =>
      if dict_mem dep (assemblies self) && negb (restricted dep)
         && set_mem assembly_name (dict_get_default dep [] (dependency_graph self))
      then (assembly_name +++ " <-> " +++ dep) :: cycle_with self restricted assembly_name rest
      else cycle_with self restricted assembly_name rest
  end.

Fixpoint violations_loop (self : analyzer) (items : list (string * assembly_info))
    (v : violations) : violations :=
  match items with
  | [] => v
  | (assembly_name, info) :: rest =>
      let v1 :=
        if is_editor assembly_name then
          {| editor_runtime_cycles :=
               editor_runtime_cycles v
               ++ cycle_with self is_editor assembly_name (info_references info);
             test_production_cycles := test_production_cycles v;
             circular_core_dependencies := circular_core_dependencies v;
             missing_dependencies := missing_dependencies v |}
        else v in
      let v2 :=
        if is_test assembly_name then
          {| editor_runtime_cycles := editor_runtime_cycles v1;
             test_production_cycles :=
               test_production_cycles v1
               ++ cycle_with self is_test assembly_name (info_references info);
             circular_core_dependencies := circular_core_dependencies v1;
             missing_dependencies := missing_dependencies v1 |}
        else v1 in
      violations_loop self rest v2
  end.

Definition analyze_dependency_violations (self : analyzer) : violations :=
  violations_loop self (assemblies self)
    {| editor_runtime_cycles := [];
       test_production_cycles := [];
       circular_core_dependencies := [];
       missing_dependencies := [] |}.

(** [s.replace('_', ' ')] *)
Fixpoint replace_underscores (s : string) : string :=
  match s with
  | EmptyString => EmptyString
  | String c s' =>
      String (if Ascii.eqb c "_"%char then " "%char else c) (replace_underscores s')
  end.

Definition is_lower (c : ascii) : bool :=
  let n := nat_of_ascii c in Nat.leb 97 n && Nat.leb n 122.
Definition is_upper (c : ascii) : bool :=
  let n := nat_of_ascii c in Nat.leb 65 n && Nat.leb n 90.
Definition to_upper (c : ascii) : ascii :=
  if is_lower c then ascii_of_nat (nat_of_ascii c - 32) else c.
Definition to_lower (c : ascii) : ascii :=
  if is_upper c then ascii_of_nat (nat_of_ascii c + 32) else c.

(** [s.title()] on ASCII text: the first letter of every run of letters in
    upper case, the others in lower case. *)
Fixpoint title_from (previous_is_cased : bool) (s : string) : string :=
  match s with
  | EmptyString => EmptyString
  | String c s' =>
      if is_lower c then
        String (if previous_is_cased then c else to_upper c) (title_from true s')
      else if is_upper c then
        String (if previous_is_cased then to_lower c else c) (title_from true s')
      else String c (title_from false s')
  end.

Definition title (s : string) : string := title_from false s.

Definition nl : string := String (ascii_of_nat 10) EmptyString.

Definition nonempty {A : Type} (l : list A) : bool :=
  match l with [] => false | _ => true end.

Section Recommendations.

(** [str(l)] for a list of strings [l], as an f-string interpolates it. *)
Variable str_of_list : list string -> string.

(** The lines one cycle adds; [i] is its number from [enumerate(cycles, 1)]. *)
Definition cycle_recommendations (i : nat) (cycle : list string) : list string :=
  let core_assemblies := filter (contains "Core") cycle in
  let editor_assemblies := filter (contains "Editor") cycle in
  let test_assemblies :=
    filter (fun a => contains "Testing" a || contains "Test" a) cycle in
  [nl +++ "   Cycle " +++ str_of_nat i +++ ": " +++ String.concat " -> " cycle]
  ++ ["   Analysis:"]
  ++ (if nonempty core_assemblies
      then ["     - Core assemblies in cycle: " +++ str_of_list core_assemblies]
      else [])
  ++ (if nonempty editor_assemblies
      then ["     - Editor assemblies in cycle: " +++ str_of_list editor_assemblies]
      else [])
  ++ (if nonempty test_assemblies
      then ["     - Test assemblies in cycle: " +++ str_of_list test_assemblies]
      else [])
  ++ ["   Suggested fixes:"]
  ++ (if nonempty editor_assemblies
         && Nat.ltb 0 (length (filter (fun a => negb (contains "Editor" a)) cycle))
      then ["     - Move shared code between Editor and Runtime to a separate shared assembly";
            "     - Use interfaces and dependency injection instead of direct references"]
      else [])
  ++ (if nonempty test_assemblies
      then ["     - Test assemblies should only reference production code, never the reverse";
            "     - Move test utilities to a separate TestUtilities assembly"]
      else [])
  ++ (if set_mem "Assembly-CSharp" cycle
      then ["     - Move code out of Assembly-CSharp into specific assemblies";
            "     - Assembly-CSharp should be minimal and only contain scene-specific code"]
      else []).

Fixpoint cycles_recommendations (i : nat) (cycles : list (list string)) : list string :=
  match cycles with
  | [] => []
  | cycle :: rest => cycle_recommendations i cycle ++ cycles_recommendations (S i) rest
  end.

Definition violation_recommendations (entry : string * list string) : list string :=
  let '(violation_type, items) := entry in
  if nonempty items then
    (nl +++ "   " +++ title (replace_underscores violation_type) +++ ":")
    :: map (fun item => "     - " +++ item) items
  else [].

Definition generate_fix_recommendations (cycles : list (list string))
    (v : violations) : list string :=
  ["=== CIRCULAR DEPENDENCY FIX RECOMMENDATIONS ===" +++ nl]
  ++ (if nonempty cycles
      then "1. DETECTED CIRCULAR DEPENDENCY CYCLES:" :: cycles_recommendations 1 cycles
      else [])
  ++ [nl +++ "2. SPECIFIC VIOLATIONS DETECTED:"]
  ++ flat_map violation_recommendations (violations_items v)
  ++ [nl +++ "3. GENERAL RECOMMENDATIONS:";
      "   - Follow dependency hierarchy: Core <- Data <- Systems <- UI <- Testing";
      "   - Use interfaces and events for loose coupling";
      "   - Move shared code to lower-level assemblies";
      "   - Keep Assembly-CSharp minimal";
      "   - Editor assemblies should not be referenced by runtime assemblies";
      "   - Test assemblies should only reference production assemblies"].

(** What the four passes of [run_analysis] compute. *)
Record analysis : Type := {
  scc_list : list (list string);
  found_cycles : list (list string);
  found_violations : violations;
  recommendations : list string
}.

Variable set_iter : pyset -> list string.

(** The passes of [run_analysis] on a built graph, in its order; the
    recommendations are generated from [scc_list]. *)
Definition run_passes (self : analyzer) : result analysis :=
  sccs <- find_strongly_connected_components set_iter self ;;
  cs <- detect_circular_dependencies set_iter self ;;
  let v := analyze_dependency_violations self in
  Ok {| scc_list := sccs;
        found_cycles := cs;
        found_violations := v;
        recommendations := generate_fix_recommendations sccs v |}.

End Recommendations.

End AssemblyDependencyAnalyzer.

(* ------------------------------------------------------------------------- *)
(** ** The value and exit status of [analyze_circular_deps.py] *)

Module AnalyzeCircularDepsMain.

(** The value [analyze_dependencies] returns, [len(circular_deps) == 0]; the
    files found under the project root are the argument, and the printed
    report is left out. *)
Definition analyze_dependencies (asmdef_files : list asmdef_file) : result bool :=
  let '((assemblies, graph), _) :=
    AnalyzeCircularDeps.build_dependency_graph asmdef_files in
  circular_deps <- AnalyzeCircularDeps.find_strongly_connected_components graph ;;
  Ok (Nat.eqb (length circular_deps) 0).

(** [exit(0 if success else 1)] *)
Definition exit_status (asmdef_files : list asmdef_file) : result nat :=
  success <- analyze_dependencies asmdef_files ;;
  Ok (if success then 0 else 1).

End AnalyzeCircularDepsMain.

(* ------------------------------------------------------------------------- *)
(** ** [DependencyAnalyzer.suggest_fixes] *)

Module SuggestFixes.

(** [cycle_participants[assembly] = cycle_participants.get(assembly, 0) + 1] *)
Definition count_participant (cycle_participants : dict nat) (assembly : string)
  : dict nat :=
  dict_set assembly (dict_get_default assembly 0 cycle_participants + 1)
    cycle_participants.

(** The two nested loops over the cycles and their members. *)
Definition count_participants (cycles : list (list string)) : dict nat :=
  fold_left (fun cycle_participants cycle =>
               fold_left count_participant cycle cycle_participants)
    cycles [].

(** [sorted(items, key=lambda x: x[1], reverse=True)]: by decreasing count;
    the sort is stable, items with equal counts keep their order. *)
Fixpoint insert_by_count (x : string * nat) (l : list (string * nat))
  : list (string * nat) :=
  match l with
  | [] => [x]
  | y :: l' =>
      if Nat.ltb (snd y) (snd x) then x :: y :: l' else y :: insert_by_count x l'
  end.

Definition sorted_by_count (items : list (string * nat)) : list (string * nat) :=
  fold_left (fun sorted x => insert_by_count x sorted) items [].

(** [sorted_participants[:5]] *)
Definition most_problematic (cycles : list (list string)) : list (string * nat) :=
  firstn 5 (sorted_by_count (count_participants cycles)).

(** [s * n] on strings. *)
Fixpoint string_repeat (s : string) (n : nat) : string :=
  match n with
  | 0 => EmptyString
  | S n' => s +++ string_repeat s n'
  end.

(** The lines [suggest_fixes] prints. *)
Definition suggest_fixes (cycles : list (list string)) : list string :=
  [AssemblyDependencyAnalyzer.nl +++ string_repeat "=" 50;
   "SUGGESTED FIXES:";
   AssemblyDependencyAnalyzer.nl +++ "Most problematic assemblies (in most cycles):"]
  ++ map (fun '(assembly, count) =>
            "  " +++ assembly +++ ": participates in " +++ str_of_nat count +++ " cycles")
       (most_problematic cycles)
  ++ [AssemblyDependencyAnalyzer.nl +++ "Recommended actions:";
      "1. Remove dependencies from high-participation assemblies";
      "2. Use event-driven communication instead of direct references";
      "3. Consider creating interface assemblies for shared contracts";
      "4. Move shared code to Core/Data assemblies"].

End SuggestFixes.

(* ------------------------------------------------------------------------- *)
(** ** [AssemblyDependencyAnalyzer.export_dependency_graph] *)

Module ExportDependencyGraph.

Import AssemblyDependencyAnalyzer.

(** The double quote character. *)
Definition dq : string := String (ascii_of_nat 34) EmptyString.

(** The [if]/[elif] chain that picks the colour of a node. *)
Definition fillcolor (assembly : string) : string :=
  if contains "Editor" assembly then "lightcoral"
  else if contains "Testing" assembly || contains "Test" assembly then "lightgreen"
  else if contains "Core" assembly then "gold"
  else "lightblue".

Definition node_line (assembly : string) : string :=
  "  " +++ dq +++ assembly +++ dq +++ " [fillcolor=" +++ fillcolor assembly
  +++ ", style=filled];" +++ nl.

Definition edge_line (assembly dep : string) : string :=
  "  " +++ dq +++ assembly +++ dq +++ " -> " +++ dq +++ dep +++ dq +++ ";" +++ nl.

(** The loop over [self.assemblies.keys()]. *)
Definition nodes_written (self : analyzer) : list string :=
  map node_line (dict_keys (assemblies self)).

Section SetIteration.

Variable set_iter : pyset -> list string.

(** The inner loop [for dep in deps] with its test [dep in self.assemblies]. *)
Definition edges_of (self : analyzer) (item : string * pyset) : list string :=
  flat_map (fun dep =>
              if dict_mem dep (assemblies self) then [edge_line (fst item) dep] else [])
    (set_iter (snd item)).

(** The loop over [self.dependency_graph.items()]. *)
Definition edges_written (self : analyzer) : list string :=
  flat_map (edges_of self) (dependency_graph self).

(** Everything [export_dependency_graph] writes to the file, one element per
    call of [f.write]. *)
Definition export_dependency_graph (self : analyzer) : list string :=
  ["digraph AssemblyDependencies {" +++ nl;
   "  rankdir=TB;" +++ nl;
   "  node [shape=box];" +++ nl +++ nl]
  ++ nodes_written self
  ++ [nl]
  ++ edges_written self
  ++ ["}" +++ nl].

End SetIteration.

End ExportDependencyGraph.

(* ------------------------------------------------------------------------- *)
(** * Properties *)

(** ** Containers *)

Lemma bind_Ok {A B : Type} (r : result A) (k : A -> result B) (b : B) :
  bind r k = Ok b -> exists a, r = Ok a /\ k a = Ok b.
Proof. destruct r; simpl; intros H; try discriminate. eauto. Qed.

Lemma set_mem_true x s : set_mem x s = true <-> In x s.
Proof.
  unfold set_mem. rewrite existsb_exists. split.
  - intros [y [Hy He]]. apply String.eqb_eq in He. now subst.
  - intros H. exists x. split; [assumption | apply String.eqb_refl].
Qed.

Lemma set_mem_false x s : set_mem x s = false <-> ~ In x s.
Proof.
  rewrite <- set_mem_true. destruct (set_mem x s); split; congruence.
Qed.

Lemma set_add_In x y s : In y (set_add x s) <-> y = x \/ In y s.
Proof.
  unfold set_add. destruct (set_mem x s) eqn:E.
  - apply set_mem_true in E. split; [auto | intros [->|]; auto].
  - rewrite in_app_iff. simpl. intuition.
Qed.

Lemma set_add_fresh x s : ~ In x s -> set_add x s = s ++ [x].
Proof. intros H. unfold set_add. apply set_mem_false in H. now rewrite H. Qed.

Lemma filter_neq_fresh x s :
  ~ In x s -> filter (fun y => negb (String.eqb x y)) s = s.
Proof.
  induction s as [|a s IH]; simpl; intros H; [reflexivity|].
  destruct (String.eqb_spec x a) as [->|Hne]; simpl.
  - exfalso. apply H. now left.
  - f_equal. apply IH. intros Hin. apply H. now right.
Qed.

Lemma set_remove_last x s :
  ~ In x s -> set_remove x (s ++ [x]) = Ok s.
Proof.
  intros H. unfold set_remove.
  assert (Hm : set_mem x (s ++ [x]) = true).
  { apply set_mem_true. apply in_or_app. right. now left. }
  rewrite Hm. f_equal. rewrite filter_app. simpl.
  rewrite String.eqb_refl. simpl. rewrite app_nil_r. now apply filter_neq_fresh.
Qed.

Lemma list_pop_last l x : list_pop (l ++ [x]) = Ok l.
Proof.
  unfold list_pop. destruct (l ++ [x]) eqn:E.
  - destruct l; discriminate.
  - rewrite <- E. now rewrite removelast_last.
Qed.

Lemma list_index_In x l : In x l -> exists i, list_index x l = Ok i /\ i < length l.
Proof.
  induction l as [|a l IH]; simpl; [tauto|]. intros H.
  destruct (String.eqb_spec x a) as [->|Hne].
  - exists 0. split; [reflexivity | lia].
  - destruct H as [H|H]; [congruence|].
    destruct (IH H) as [i [Hi Hlt]]. rewrite Hi. simpl. exists (S i). split; [reflexivity | lia].
Qed.

Lemma list_index_fresh x l : ~ In x l -> list_index x (l ++ [x]) = Ok (length l).
Proof.
  induction l as [|a l IH]; simpl; intros H.
  - now rewrite String.eqb_refl.
  - destruct (String.eqb_spec x a) as [->|Hne]; [exfalso; auto|].
    rewrite IH by tauto. reflexivity.
Qed.

Lemma list_index_Ok x l i :
  list_index x l = Ok i ->
  exists l1 l2, l = l1 ++ x :: l2 /\ length l1 = i /\ ~ In x l1.
Proof.
  revert i. induction l as [|a l IH]; simpl; intros i H; [discriminate|].
  destruct (String.eqb_spec x a) as [->|Hne].
  - injection H as <-. exists [], l. simpl. auto.
  - apply bind_Ok in H. destruct H as [j [Hj H]]. injection H as <-.
    destruct (IH _ Hj) as [l1 [l2 [-> [Hlen Hn]]]].
    exists (a :: l1), l2. simpl. repeat split; auto. intros [?|?]; [congruence|tauto].
Qed.

Lemma dict_mem_true {V} k (d : dict V) : dict_mem k d = true <-> In k (dict_keys d).
Proof.
  unfold dict_mem, dict_keys. induction d as [|[k' v] d IH]; simpl.
  - split; [discriminate | tauto].
  - destruct (String.eqb_spec k k') as [->|Hne].
    + split; auto.
    + rewrite IH. split; [auto | intros [H|H]; [congruence | assumption]].
Qed.

Lemma dict_mem_false {V} k (d : dict V) : dict_mem k d = false <-> ~ In k (dict_keys d).
Proof. rewrite <- dict_mem_true. destruct (dict_mem k d); split; congruence. Qed.

Lemma dict_get_In {V} k (d : dict V) v : dict_get k d = Some v -> In (k, v) d.
Proof.
  induction d as [|[k' v'] d IH]; simpl; [discriminate|].
  destruct (String.eqb_spec k k') as [->|Hne].
  - intros [= ->]. now left.
  - intros H. right. auto.
Qed.

Lemma dict_get_set_eq {V} k (v : V) d : dict_get k (dict_set k v d) = Some v.
Proof.
  induction d as [|[k' v'] d IH]; simpl.
  - now rewrite String.eqb_refl.
  - destruct (String.eqb_spec k k') as [->|Hne]; simpl.
    + now rewrite String.eqb_refl.
    + destruct (String.eqb_spec k k'); [congruence | assumption].
Qed.

Lemma dict_get_set_neq {V} k k' (v : V) d :
  k' <> k -> dict_get k' (dict_set k v d) = dict_get k' d.
Proof.
  intros Hne. induction d as [|[k0 v0] d IH]; simpl.
  - destruct (String.eqb_spec k' k); [congruence | reflexivity].
  - destruct (String.eqb_spec k k0) as [->|Hne0]; simpl.
    + destruct (String.eqb_spec k' k0); [congruence | reflexivity].
    + destruct (String.eqb_spec k' k0); [reflexivity | assumption].
Qed.

Lemma dict_mem_set {V} k k' (v : V) d :
  dict_mem k' (dict_set k v d) = String.eqb k' k || dict_mem k' d.
Proof.
  unfold dict_mem. destruct (String.eqb_spec k' k) as [->|Hne]; simpl.
  - now rewrite dict_get_set_eq.
  - now rewrite dict_get_set_neq.
Qed.

Lemma dict_keys_set_In {V} k k' (v : V) d :
  In k' (dict_keys (dict_set k v d)) <-> k' = k \/ In k' (dict_keys d).
Proof.
  rewrite <- !dict_mem_true, dict_mem_set, orb_true_iff.
  now rewrite String.eqb_eq.
Qed.

Lemma dict_keys_set_NoDup {V} k (v : V) d :
  NoDup (dict_keys d) -> NoDup (dict_keys (dict_set k v d)).
Proof.
  unfold dict_keys. induction d as [|[k' v'] d IH]; simpl; intros H.
  - constructor; [tauto | constructor].
  - inversion H as [|? ? Hn Hd]; subst.
    destruct (String.eqb_spec k k') as [->|Hne]; simpl.
    + now constructor.
    + constructor; [|auto].
      intros Hin. apply (dict_keys_set_In k k' v d) in Hin. destruct Hin; [congruence | tauto].
Qed.

Lemma dict_keys_set_length {V} k (v : V) d :
  length (dict_set k v d) <= S (length d).
Proof.
  induction d as [|[k' v'] d IH]; simpl; [lia|].
  destruct (String.eqb k k'); simpl; lia.
Qed.


(** ** Counting the nodes a traversal has not marked yet *)

Lemma filter_length_le {A} (f g : A -> bool) (l : list A) :
  (forall x, In x l -> f x = true -> g x = true) ->
  length (filter f l) <= length (filter g l).
Proof.
  induction l as [|a l IH]; simpl; intros H; [lia|].
  assert (IH' := IH (fun x Hx => H x (or_intror Hx))).
  destruct (f a) eqn:Ef.
  - rewrite (H a (or_introl eq_refl) Ef). simpl. lia.
  - destruct (g a); simpl; lia.
Qed.

Lemma filter_length_lt {A} (f g : A -> bool) (l : list A) (a : A) :
  (forall x, In x l -> f x = true -> g x = true) ->
  In a l -> f a = false -> g a = true ->
  length (filter f l) < length (filter g l).
Proof.
  induction l as [|b l IH]; simpl; intros H Hin Hf Hg; [tauto|].
  assert (Hle := filter_length_le f g l (fun x Hx => H x (or_intror Hx))).
  destruct Hin as [->|Hin].
  - rewrite Hf, Hg. simpl. lia.
  - assert (IH' := IH (fun x Hx => H x (or_intror Hx)) Hin Hf Hg).
    destruct (f b) eqn:Ef.
    + rewrite (H b (or_introl eq_refl) Ef). simpl. lia.
    + destruct (g b); simpl; lia.
Qed.

(** The elements of [universe] not in [marked]. *)
Definition unmarked (universe : list string) (marked : pyset) : list string :=
  filter (fun k => negb (set_mem k marked)) universe.

Lemma unmarked_le universe m m' :
  incl m m' -> length (unmarked universe m') <= length (unmarked universe m).
Proof.
  intros H. apply filter_length_le. intros x _ Hx.
  apply negb_true_iff in Hx. apply negb_true_iff.
  apply set_mem_false in Hx. apply set_mem_false. auto.
Qed.

Lemma unmarked_lt universe m m' k :
  incl m m' -> In k universe -> ~ In k m -> In k m' ->
  length (unmarked universe m') < length (unmarked universe m).
Proof.
  intros H Hk Hn Hin. apply filter_length_lt with (a := k); auto.
  - intros x _ Hx. apply negb_true_iff in Hx. apply negb_true_iff.
    apply set_mem_false in Hx. apply set_mem_false. auto.
  - apply negb_false_iff. now apply set_mem_true.
  - apply negb_true_iff. now apply set_mem_false.
Qed.

Lemma unmarked_length universe m : length (unmarked universe m) <= length universe.
Proof.
  unfold unmarked. induction universe as [|a l IH]; simpl; [lia|].
  destruct (negb (set_mem a m)); simpl; lia.
Qed.

(* ------------------------------------------------------------------------- *)
(** ** [DependencyAnalyzer.find_cycles] returns, with at most one cycle per
       start *)

Section FindCyclesTotal.

Import DependencyAnalyzer.

Variable graph : dict (list string).

(** Every name in [rec_stack] is on [path]: [path.index] cannot fail. *)
Definition synced (st : dfs_state) : Prop :=
  forall x, In x (rec_stack st) -> In x (path st).

(** What a call of [dfs] does to the locals, by its return value. *)
Definition dfs_post (st : dfs_state) (r : bool * dfs_state) : Prop :=
  synced (snd r) /\ incl (visited st) (visited (snd r)) /\
  (if fst r
   then exists c, cycles (snd r) = cycles st ++ [c]
   else cycles (snd r) = cycles st /\ rec_stack (snd r) = rec_stack st
        /\ path (snd r) = path st).

Definition dfs_returns (m : nat)
    (rec : string -> dfs_state -> result (bool * dfs_state)) : Prop :=
  forall node st,
    dict_mem node graph = true ->
    synced st -> length (unmarked (dict_keys graph) (visited st)) <= m ->
    exists r, rec node st = Ok r /\ dfs_post st r.

Lemma dfs_neighbors_returns m rec :
  dfs_returns m rec ->
  forall neighbors st,
    synced st -> length (unmarked (dict_keys graph) (visited st)) <= m ->
    exists r, dfs_neighbors rec graph neighbors st = Ok r /\ dfs_post st r.
Proof.
  intros Hrec. induction neighbors as [|n ns IH]; intros st Hs Hm; simpl.
  - exists (false, st). split; [reflexivity|]. unfold dfs_post; simpl.
    repeat split; auto using incl_refl.
  - destruct (dict_mem n graph) eqn:Hn; [|now apply IH].
    destruct (Hrec n st Hn Hs Hm) as [[b st1] [E1 [P1 [P2 P3]]]]. rewrite E1. simpl in *.
    destruct b.
    + exists (true, st1). split; [reflexivity|]. unfold dfs_post; simpl. auto.
    + destruct P3 as [Pc [Pr Pp]].
      destruct (IH st1 P1) as [[b2 st2] [E2 [Q1 [Q2 Q3]]]].
      { pose proof (unmarked_le (dict_keys graph) _ _ P2). lia. }
      rewrite E2. exists (b2, st2). split; [reflexivity|]. unfold dfs_post; simpl in *.
      repeat split; auto.
      * eapply incl_tran; eauto.
      * destruct b2; [destruct Q3 as [c Hc]; exists c; congruence|].
        destruct Q3 as [? [? ?]]. repeat split; congruence.
Qed.

Lemma dfs_returns_fuel fuel : dfs_returns fuel (dfs (S fuel) graph).
Proof.
  induction fuel as [|fuel IH]; intros node st Hk Hs Hm.
  - (* no unmarked key is left: [node] is already visited *)
    simpl. destruct (set_mem node (rec_stack st)) eqn:Hr.
    + apply set_mem_true in Hr.
      destruct (list_index_In _ _ (Hs _ Hr)) as [i [Hi _]]. rewrite Hi. simpl.
      eexists. split; [reflexivity|]. unfold dfs_post; simpl.
      repeat split; eauto using incl_refl.
    + destruct (set_mem node (visited st)) eqn:Hv.
      * eexists. split; [reflexivity|]. unfold dfs_post; simpl.
        repeat split; auto using incl_refl.
      * exfalso. apply set_mem_false in Hv. apply dict_mem_true in Hk.
        assert (In node (unmarked (dict_keys graph) (visited st))).
        { apply filter_In. split; [assumption|]. apply negb_true_iff. now apply set_mem_false. }
        destruct (unmarked (dict_keys graph) (visited st)); simpl in *; [tauto | lia].
  - change (dfs (S (S fuel)) graph node st) with
      (if set_mem node (rec_stack st) then
         cycle_start <- list_index node (path st) ;;
         Ok (true, {| cycles := cycles st ++ [skipn cycle_start (path st) ++ [node]];
                      visited := visited st; rec_stack := rec_stack st; path := path st |})
       else if set_mem node (visited st) then Ok (false, st)
       else
         r <- dfs_neighbors (dfs (S fuel) graph) graph (dict_get_default node [] graph)
                {| cycles := cycles st; visited := set_add node (visited st);
                   rec_stack := set_add node (rec_stack st); path := path st ++ [node] |} ;;
         if fst r then Ok (true, snd r)
         else
           rs <- set_remove node (rec_stack (snd r)) ;;
           p <- list_pop (path (snd r)) ;;
           Ok (false, {| cycles := cycles (snd r); visited := visited (snd r);
                         rec_stack := rs; path := p |})).
    destruct (set_mem node (rec_stack st)) eqn:Hr.
    + apply set_mem_true in Hr.
      destruct (list_index_In _ _ (Hs _ Hr)) as [i [Hi _]]. rewrite Hi. simpl.
      eexists. split; [reflexivity|]. unfold dfs_post; simpl.
      repeat split; eauto using incl_refl.
    + destruct (set_mem node (visited st)) eqn:Hv.
      * eexists. split; [reflexivity|]. unfold dfs_post; simpl.
        repeat split; auto using incl_refl.
      * apply set_mem_false in Hr, Hv. apply dict_mem_true in Hk.
        set (st1 := {| cycles := cycles st; visited := set_add node (visited st);
                       rec_stack := set_add node (rec_stack st);
                       path := path st ++ [node] |}).
        assert (Hs1 : synced st1).
        { intros x Hx. simpl in *. apply set_add_In in Hx. apply in_or_app.
          destruct Hx as [->|Hx]; [right; now left | left; auto]. }
        assert (Hm1 : length (unmarked (dict_keys graph) (visited st1)) <= fuel).
        { assert (length (unmarked (dict_keys graph) (visited st1))
                  < length (unmarked (dict_keys graph) (visited st))).
          { apply unmarked_lt with (k := node); auto.
            - intros x Hx. apply set_add_In. now right.
            - apply set_add_In. now left. }
          lia. }
        destruct (dfs_neighbors_returns fuel _ IH (dict_get_default node [] graph) st1 Hs1 Hm1)
          as [[b st2] [E2 [Q1 [Q2 Q3]]]].
        rewrite E2. simpl in *.
        assert (Hvis : incl (visited st) (visited st2)).
        { intros x Hx. apply Q2. apply set_add_In. now right. }
        destruct b.
        -- eexists. split; [reflexivity|]. unfold dfs_post; simpl. auto.
        -- destruct Q3 as [Qc [Qr Qp]]. rewrite Qr, Qp.
           rewrite (set_add_fresh _ _ Hr), (set_remove_last _ _ Hr). simpl.
           rewrite list_pop_last. simpl.
           eexists. split; [reflexivity|]. unfold dfs_post; simpl. auto.
Qed.

Lemma find_cycles_loop_returns todo : forall st,
  (forall k, In k todo -> dict_mem k graph = true) -> synced st ->
  exists st', find_cycles_loop (S (length graph)) graph todo st = Ok st'
              /\ synced st'
              /\ length (cycles st') <= length (cycles st) + length todo.
Proof.
  induction todo as [|a todo IH]; intros st Hk Hs; cbn [find_cycles_loop].
  - exists st. repeat split; auto. simpl. lia.
  - assert (Hk' : forall k, In k todo -> dict_mem k graph = true) by (intros; apply Hk; now right).
    destruct (set_mem a (visited st)).
    + destruct (IH st Hk' Hs) as [st' [E [S' L]]]. exists st'. repeat split; auto.
      simpl. lia.
    + destruct (dfs_returns_fuel (length graph) a st) as [[b st1] [E1 [P1 [P2 P3]]]]; auto.
      { apply Hk. now left. }
      { pose proof (unmarked_length (dict_keys graph) (visited st)).
        unfold dict_keys in *. rewrite length_map in *. lia. }
      rewrite E1. cbn [bind snd]. cbn [fst snd] in *.
      destruct (IH st1 Hk' P1) as [st' [E [S' L]]]. exists st'. repeat split; auto.
      destruct b.
      * destruct P3 as [c Hc]. rewrite Hc, length_app in L. simpl in *. lia.
      * destruct P3 as [Hc _]. rewrite Hc in L. simpl. lia.
Qed.

End FindCyclesTotal.

Lemma find_cycles_returns (self : DependencyAnalyzer.analyzer) :
  exists cycles,
    DependencyAnalyzer.find_cycles self = Ok cycles
    /\ length cycles <= length (dict_keys (DependencyAnalyzer.dependency_graph self)).
Proof.
  unfold DependencyAnalyzer.find_cycles, DependencyAnalyzer.find_cycles_from.
  set (graph := DependencyAnalyzer.dependency_graph self).
  destruct (find_cycles_loop_returns graph (dict_keys graph)
              {| DependencyAnalyzer.cycles := []; DependencyAnalyzer.visited := [];
                 DependencyAnalyzer.rec_stack := []; DependencyAnalyzer.path := [] |})
    as [st' [E [_ L]]].
  - intros k Hk. now apply dict_mem_true.
  - intros x Hx. simpl in Hx. tauto.
  - rewrite E. simpl. exists (DependencyAnalyzer.cycles st'). split; [reflexivity|].
    simpl in L. lia.
Qed.

(** C10.  Every call of [dfs] the outer loop of [DependencyAnalyzer.find_cycles]
    makes returns, and appends exactly one cycle when it returns [True] and
    none when it returns [False]: the first cycle found ends the whole
    recursion.  So [find_cycles] returns at most as many cycles as the graph
    has modules. *)
Theorem find_cycles_at_most_one_cycle_per_start (self : DependencyAnalyzer.analyzer) :
  let graph := DependencyAnalyzer.dependency_graph self in
  (forall start st,
      dict_mem start graph = true -> synced st ->
      exists found st',
        DependencyAnalyzer.dfs (S (length graph)) graph start st = Ok (found, st')
        /\ exists appended,
             DependencyAnalyzer.cycles st' = DependencyAnalyzer.cycles st ++ appended
             /\ length appended = (if found then 1 else 0))
  /\ exists cycles,
       DependencyAnalyzer.find_cycles self = Ok cycles
       /\ length cycles <= length (dict_keys graph).
Proof.
  intros graph. split.
  - intros start st Hk Hs.
    destruct (dfs_returns_fuel graph (length graph) start st) as [[b st1] [E1 [P1 [P2 P3]]]]; auto.
    { pose proof (unmarked_length (dict_keys graph) (DependencyAnalyzer.visited st)).
      unfold dict_keys in *. rewrite length_map in *. lia. }
    exists b, st1. split; [assumption|]. simpl in P3. destruct b.
    + destruct P3 as [c Hc]. exists [c]. auto.
    + destruct P3 as [Hc _]. exists []. rewrite app_nil_r. auto.
  - apply find_cycles_returns.
Qed.

Definition two_cycle_analyzer : DependencyAnalyzer.analyzer :=
  {| DependencyAnalyzer.assemblies := [];
     DependencyAnalyzer.dependency_graph := [("A", ["B"]); ("B", ["A"])] |}.

Lemma find_cycles_at_most_one_cycle_per_start_witness :
  (exists found st',
      DependencyAnalyzer.dfs 3 (DependencyAnalyzer.dependency_graph two_cycle_analyzer) "A"
        {| DependencyAnalyzer.cycles := []; DependencyAnalyzer.visited := [];
           DependencyAnalyzer.rec_stack := []; DependencyAnalyzer.path := [] |}
      = Ok (found, st')
      /\ exists appended,
           DependencyAnalyzer.cycles st' = [] ++ appended
           /\ length appended = (if found then 1 else 0))
  /\ exists cycles,
       DependencyAnalyzer.find_cycles two_cycle_analyzer = Ok cycles
       /\ length cycles <= 2.
Proof.
  destruct (find_cycles_at_most_one_cycle_per_start two_cycle_analyzer) as [H1 H2].
  split.
  - apply (H1 "A"
             {| DependencyAnalyzer.cycles := []; DependencyAnalyzer.visited := [];
                DependencyAnalyzer.rec_stack := []; DependencyAnalyzer.path := [] |}).
    + reflexivity.
    + intros x Hx. exact Hx.
  - exact H2.
Defined.


(* ------------------------------------------------------------------------- *)
(** ** The forward edges between known modules *)

(** [depends graph a b]: [b] is a declared dependency of [a] and a module of
    the graph. *)
Definition depends (graph : dict (list string)) (a b : string) : Prop :=
  In b (dict_get_default a [] graph) /\ dict_mem b graph = true.

(** No module reaches itself along one or more forward edges. *)
Definition acyclic (graph : dict (list string)) : Prop :=
  forall x, ~ clos_trans string (depends graph) x x.

(* ------------------------------------------------------------------------- *)
(** ** [DependencyAnalyzer.find_cycles] on an acyclic graph *)

Section FindCyclesAcyclic.

Import DependencyAnalyzer.

Variable graph : dict (list string).
Hypothesis graph_acyclic : acyclic graph.

(** A call of [dfs] that finds nothing restores [rec_stack] and [path]. *)
Definition dfs_finds_nothing (st : dfs_state) (r : bool * dfs_state) : Prop :=
  fst r = false /\ synced (snd r) /\ cycles (snd r) = cycles st
  /\ rec_stack (snd r) = rec_stack st /\ path (snd r) = path st.

Definition dfs_quiet (rec : string -> dfs_state -> result (bool * dfs_state)) : Prop :=
  forall node st r,
    rec node st = Ok r -> synced st ->
    (forall x, In x (path st) -> clos_trans string (depends graph) x node) ->
    dfs_finds_nothing st r.

Lemma dfs_neighbors_quiet rec :
  dfs_quiet rec ->
  forall neighbors st r,
    dfs_neighbors rec graph neighbors st = Ok r -> synced st ->
    (forall n x, In n neighbors -> dict_mem n graph = true -> In x (path st) ->
                 clos_trans string (depends graph) x n) ->
    dfs_finds_nothing st r.
Proof.
  intros Hrec. induction neighbors as [|n ns IH]; intros st r E Hs Hp; simpl in E.
  - injection E as <-. unfold dfs_finds_nothing; simpl. auto.
  - destruct (dict_mem n graph) eqn:Hn.
    + apply bind_Ok in E. destruct E as [r1 [E1 E]].
      destruct (Hrec n st r1 E1 Hs) as [F1 [F2 [F3 [F4 F5]]]].
      { intros x Hx. apply (Hp n x); auto. now left. }
      rewrite F1 in E.
      destruct (IH (snd r1) r E F2) as [G1 [G2 [G3 [G4 G5]]]].
      { intros m x Hm Hk Hx. rewrite F5 in Hx. apply (Hp m x); auto. now right. }
      unfold dfs_finds_nothing. repeat split; auto; congruence.
    + apply (IH st r E Hs). intros m x Hm Hk Hx. apply (Hp m x); auto. now right.
Qed.

Lemma dfs_quiet_fuel fuel : dfs_quiet (dfs fuel graph).
Proof.
  induction fuel as [|fuel IH]; intros node st r E Hs Hp; [discriminate|].
  cbn [dfs] in E.
  destruct (set_mem node (rec_stack st)) eqn:Hr.
  - exfalso. apply set_mem_true in Hr. apply (graph_acyclic node). auto.
  - destruct (set_mem node (visited st)) eqn:Hv.
    + injection E as <-. unfold dfs_finds_nothing; simpl. auto.
    + apply set_mem_false in Hr.
      apply bind_Ok in E. destruct E as [r1 [E1 E]].
      apply dfs_neighbors_quiet in E1; auto.
      * destruct E1 as [F1 [F2 [F3 [F4 F5]]]]. rewrite F1 in E. simpl in *.
        rewrite F4, F5, (set_add_fresh _ _ Hr), (set_remove_last _ _ Hr) in E.
        rewrite list_pop_last in E. simpl in E. injection E as <-.
        unfold dfs_finds_nothing; simpl. auto.
      * intros x Hx. simpl in *. apply set_add_In in Hx. apply in_or_app.
        destruct Hx as [->|Hx]; [right; now left | left; auto].
      * intros n x Hn Hk Hx. simpl in Hx. apply in_app_or in Hx.
        assert (Hd : depends graph node n) by (split; assumption).
        destruct Hx as [Hx|[<-|[]]].
        -- eapply t_trans; [apply Hp; eassumption | now apply t_step].
        -- now apply t_step.
Qed.

Lemma find_cycles_loop_quiet fuel todo : forall st st',
  find_cycles_loop fuel graph todo st = Ok st' ->
  synced st -> path st = [] ->
  cycles st' = cycles st.
Proof.
  induction todo as [|a todo IH]; intros st st' E Hs Hp; cbn [find_cycles_loop] in E.
  - now injection E as <-.
  - destruct (set_mem a (visited st)); [eauto|].
    apply bind_Ok in E. destruct E as [r1 [E1 E]].
    destruct (dfs_quiet_fuel fuel a st r1 E1 Hs) as [F1 [F2 [F3 [F4 F5]]]].
    { rewrite Hp. intros x []. }
    rewrite <- F3. apply IH; auto. congruence.
Qed.

Lemma find_cycles_acyclic self :
  dependency_graph self = graph -> find_cycles self = Ok [].
Proof.
  intros Hg.
  destruct (find_cycles_returns self) as [cs [E _]].
  rewrite E. f_equal.
  unfold find_cycles, find_cycles_from in E. rewrite Hg in E.
  apply bind_Ok in E. destruct E as [st' [E1 E]]. injection E as <-.
  apply find_cycles_loop_quiet in E1; auto.
  intros x [].
Qed.

End FindCyclesAcyclic.


(* ------------------------------------------------------------------------- *)
(** ** Tarjan's algorithm: the components are the strongly connected
       components with two or more members *)

Lemma NoDup_concat_unique {A} (ls : list (list A)) (l1 l2 : list A) (x : A) :
  NoDup (concat ls) -> In l1 ls -> In l2 ls -> In x l1 -> In x l2 -> l1 = l2.
Proof.
  induction ls as [|l ls IH]; simpl; intros Hnd H1 H2 Hx1 Hx2; [tauto|].
  assert (Hdisj : forall l', In l' ls -> forall y, In y l -> In y l' -> False).
  { intros l' Hl' y Hy Hy'.
    apply NoDup_app_remove_l in Hnd as Hnd'.
    clear - Hnd Hl' Hy Hy'.
    induction l as [|a l IHl]; simpl in *; [tauto|].
    inversion Hnd as [|? ? Hn Hd]; subst.
    destruct Hy as [->|Hy]; [|auto].
    apply Hn. apply in_or_app. right. apply in_concat. eauto. }
  destruct H1 as [->|H1], H2 as [->|H2]; auto.
  - exfalso. eapply Hdisj; eauto.
  - exfalso. eapply Hdisj; eauto.
  - apply IH; auto. now apply NoDup_app_remove_l in Hnd.
Qed.

Section TarjanCorrect.

Import Tarjan.

Variable successors : string -> list string.
Variable skip : string -> bool.

(** The edges [strongconnect] follows. *)
Definition edge (a b : string) : Prop := In b (successors a) /\ skip b = false.

Definition reach : string -> string -> Prop := clos_refl_trans string edge.

Lemma reach_refl x : reach x x.
Proof. apply rt_refl. Qed.

Lemma reach_trans x y z : reach x y -> reach y z -> reach x z.
Proof. apply rt_trans. Qed.

Lemma reach_edge x y : edge x y -> reach x y.
Proof. apply rt_step. Qed.

Definition indexed (st : state) (x : string) : Prop := dict_mem x (index st) = true.

(** Nodes whose component has been popped off the stack. *)
Definition popped (st : state) (x : string) : Prop :=
  indexed st x /\ ~ In x (stack st).

(** The stack holds the nodes by decreasing index, top first. *)
Fixpoint sorted_stack (idx : dict nat) (stk : list string) : Prop :=
  match stk with
  | [] => True
  | x :: rest =>
      (exists i, dict_get x idx = Some i
                 /\ forall y, In y rest -> exists j, dict_get y idx = Some j /\ j < i)
      /\ sorted_stack idx rest
  end.

(** All successors of [y] have been looked at, and none that is on the stack
    has an index below the lowlink of [y]. *)
Definition finished (st : state) (y : string) : Prop :=
  forall z, edge y z ->
    indexed st z
    /\ (In z (stack st) ->
        exists l j, dict_get y (lowlinks st) = Some l
                    /\ dict_get z (index st) = Some j /\ l <= j).

Record wf (st : state) : Prop := {
  wf_low : forall x, indexed st x -> dict_mem x (lowlinks st) = true;
  wf_counter : forall x i, dict_get x (index st) = Some i -> i < index_counter st;
  wf_on_stack : forall x, dict_get_default x false (on_stack st) = true <-> In x (stack st);
  wf_sorted : sorted_stack (index st) (stack st);
  wf_lowlink : forall y, In y (stack st) ->
      exists l i z, dict_get y (lowlinks st) = Some l
                    /\ dict_get y (index st) = Some i /\ l <= i
                    /\ In z (stack st) /\ dict_get z (index st) = Some l /\ reach y z;
  wf_sound : forall comp, In comp (components st) ->
      2 <= length comp /\ forall x y, In x comp -> In y comp -> reach x y;
  wf_closed : forall x y, popped st x -> edge x y -> popped st y;
  wf_complete : forall x y, popped st x -> reach x y -> reach y x -> x <> y ->
      exists comp, In comp (components st) /\ In x comp /\ In y comp;
  wf_disjoint : NoDup (concat (components st));
  wf_members : forall x, In x (concat (components st)) -> popped st x
}.

Lemma indexed_get st x : indexed st x <-> exists i, dict_get x (index st) = Some i.
Proof.
  unfold indexed, dict_mem. destruct (dict_get x (index st)); split; eauto.
  - discriminate.
  - intros [i Hi]. discriminate.
Qed.

Lemma sorted_stack_ext idx idx' stk :
  (forall x i, dict_get x idx = Some i -> dict_get x idx' = Some i) ->
  sorted_stack idx stk -> sorted_stack idx' stk.
Proof.
  intros Hext. induction stk as [|x rest IH]; simpl; [auto|].
  intros [[i [Hi Hlt]] Hs]. split; [|auto].
  exists i. split; [auto|]. intros y Hy. destruct (Hlt y Hy) as [j [Hj Hji]]. eauto.
Qed.

Lemma sorted_stack_indexed idx stk x :
  sorted_stack idx stk -> In x stk -> exists i, dict_get x idx = Some i.
Proof.
  induction stk as [|a rest IH]; simpl; [tauto|].
  intros [[i [Hi _]] Hs] [->|Hx]; eauto.
Qed.

Lemma sorted_stack_app idx l1 l2 :
  sorted_stack idx (l1 ++ l2) ->
  sorted_stack idx l1 /\ sorted_stack idx l2
  /\ forall x y i j, In x l1 -> In y l2 ->
       dict_get x idx = Some i -> dict_get y idx = Some j -> j < i.
Proof.
  induction l1 as [|a l1 IH]; simpl.
  - intros H. repeat split; auto. intros x y i j [].
  - intros [[i [Hi Hlt]] Hs]. destruct (IH Hs) as [S1 [S2 Hc]].
    repeat split; auto.
    + exists i. split; [auto|]. intros y Hy. apply Hlt. apply in_or_app. now left.
    + intros x y i' j [->|Hx] Hy Hi' Hj.
      * destruct (Hlt y) as [j' [Hj' Hlt']]; [apply in_or_app; now right|].
        congruence.
      * eapply Hc; eauto.
Qed.

Lemma sorted_stack_NoDup idx stk : sorted_stack idx stk -> NoDup stk.
Proof.
  induction stk as [|a rest IH]; simpl; [constructor|].
  intros [[i [Hi Hlt]] Hs]. constructor; [|auto].
  intros Hin. destruct (Hlt a Hin) as [j [Hj Hji]]. rewrite Hi in Hj. injection Hj as <-. lia.
Qed.

Lemma closed_reach (P : string -> Prop) x y :
  (forall a b, P a -> edge a b -> P b) -> P x -> reach x y -> P y.
Proof.
  intros Hc Hx Hr. apply clos_rt_rt1n in Hr.
  induction Hr as [|x y z Hxy Hyz IH]; [assumption|].
  apply IH. eapply Hc; eauto.
Qed.

(** Popped nodes only reach popped nodes. *)
Lemma popped_reach st x y : wf st -> popped st x -> reach x y -> popped st y.
Proof.
  intros Hwf Hx Hr. apply (closed_reach (popped st) x y); auto.
  apply (wf_closed st Hwf).
Qed.

Lemma wf_initial : wf initial.
Proof.
  constructor; simpl.
  - intros x Hx. unfold indexed in Hx. simpl in Hx. discriminate.
  - intros x i Hx. discriminate.
  - intros x. unfold dict_get_default. simpl. split; [discriminate | tauto].
  - exact I.
  - intros y [].
  - intros comp [].
  - intros x y [Hx _]. unfold indexed in Hx. simpl in Hx. discriminate.
  - intros x y [Hx _]. unfold indexed in Hx. simpl in Hx. discriminate.
  - constructor.
  - intros x [].
Qed.

(** The first five statements of [strongconnect]. *)
Definition push (node : string) (st : state) : state :=
  {| index_counter := index_counter st + 1;
     stack := node :: stack st;
     lowlinks := dict_set node (index_counter st) (lowlinks st);
     index := dict_set node (index_counter st) (index st);
     on_stack := dict_set node true (on_stack st);
     components := components st |}.

Lemma not_indexed_get st x : ~ indexed st x -> dict_get x (index st) = None.
Proof.
  unfold indexed, dict_mem. destruct (dict_get x (index st)); [intros H; exfalso; auto | auto].
Qed.

Lemma stack_indexed st x : wf st -> In x (stack st) -> indexed st x.
Proof.
  intros Hwf Hx. apply indexed_get. eapply sorted_stack_indexed; eauto using wf_sorted.
Qed.

Lemma push_index_ext v st x i :
  ~ indexed st v -> dict_get x (index st) = Some i -> dict_get x (index (push v st)) = Some i.
Proof.
  intros Hv Hx. simpl. rewrite dict_get_set_neq; [assumption|].
  intros ->. apply not_indexed_get in Hv. congruence.
Qed.

Lemma wf_push v st : wf st -> ~ indexed st v -> wf (push v st).
Proof.
  intros Hwf Hv.
  assert (Hstk : forall y, In y (stack st) -> y <> v).
  { intros y Hy ->. apply Hv. now apply stack_indexed. }
  constructor; simpl.
  - intros x Hx. unfold indexed in Hx. simpl in Hx. rewrite dict_mem_set in *.
    apply orb_true_iff in Hx. apply orb_true_iff. destruct Hx as [Hx|Hx]; [now left|].
    right. now apply (wf_low st Hwf).
  - intros x i Hx. destruct (string_dec x v) as [->|Hne].
    + rewrite dict_get_set_eq in Hx. injection Hx as <-. lia.
    + rewrite dict_get_set_neq in Hx by assumption.
      apply (wf_counter st Hwf) in Hx. lia.
  - intros x. unfold dict_get_default. destruct (string_dec x v) as [->|Hne].
    + rewrite dict_get_set_eq. split; auto.
    + rewrite dict_get_set_neq by assumption.
      pose proof (wf_on_stack st Hwf x) as H. unfold dict_get_default in H.
      rewrite H. split; [auto | intros [?|?]; [congruence | assumption]].
  - split.
    + exists (index_counter st). split; [apply dict_get_set_eq|].
      intros y Hy. destruct (sorted_stack_indexed _ _ _ (wf_sorted st Hwf) Hy) as [j Hj].
      exists j. split.
      * rewrite dict_get_set_neq; auto.
      * eapply wf_counter; eauto.
    + apply sorted_stack_ext with (idx := index st); [|apply (wf_sorted st Hwf)].
      intros x i Hx. now apply (push_index_ext v st).
  - intros y [<-|Hy].
    + exists (index_counter st), (index_counter st), v.
      rewrite !dict_get_set_eq. repeat split; auto. apply reach_refl.
    + destruct (wf_lowlink st Hwf y Hy) as [l [i [z [H1 [H2 [H3 [H4 [H5 H6]]]]]]]].
      exists l, i, z. rewrite !dict_get_set_neq; auto.
      repeat split; auto.
  - apply (wf_sound st Hwf).
  - intros x y [Hx Hn] He.
    assert (Hxv : x <> v) by (intros ->; apply Hn; now left).
    assert (Hp : popped st x).
    { split; [|intros H; apply Hn; now right].
      unfold indexed in *. simpl in Hx. rewrite dict_mem_set in Hx.
      apply orb_true_iff in Hx. destruct Hx as [Hx|Hx]; [|assumption].
      apply String.eqb_eq in Hx. congruence. }
    destruct (wf_closed st Hwf x y Hp He) as [Hy Hny]. split.
    + unfold indexed in *. simpl. rewrite dict_mem_set. rewrite Hy. apply orb_true_r.
    + intros [<-|H]; auto.
  - intros x y [Hx Hn] Hxy Hyx Hne.
    assert (Hxv : x <> v) by (intros ->; apply Hn; now left).
    apply (wf_complete st Hwf x y); auto.
    split; [|intros H; apply Hn; now right].
    unfold indexed in *. simpl in Hx. rewrite dict_mem_set in Hx.
    apply orb_true_iff in Hx. destruct Hx as [Hx|Hx]; [|assumption].
    apply String.eqb_eq in Hx. congruence.
  - apply (wf_disjoint st Hwf).
  - intros x Hx. destruct (wf_members st Hwf x Hx) as [Hi Hn]. split.
    + unfold indexed in *. simpl. rewrite dict_mem_set. rewrite Hi. apply orb_true_r.
    + intros [<-|H]; auto.
Qed.

(** Lowering the lowlink of a node on the stack to the index of a stack node
    it reaches. *)
Lemma wf_set_lowlink v l st :
  wf st -> In v (stack st) ->
  (exists i z, dict_get v (index st) = Some i /\ l <= i
               /\ In z (stack st) /\ dict_get z (index st) = Some l /\ reach v z) ->
  wf (set_lowlink v l st).
Proof.
  intros Hwf Hv [i [z [Hi [Hle [Hz [Hzi Hr]]]]]].
  constructor; simpl; try apply Hwf.
  - intros x Hx. rewrite dict_mem_set. apply orb_true_iff. right.
    now apply (wf_low st Hwf).
  - intros y Hy. destruct (string_dec y v) as [->|Hne].
    + exists l, i, z. rewrite dict_get_set_eq. repeat split; auto.
    + destruct (wf_lowlink st Hwf y Hy) as [l' [i' [z' H]]].
      exists l', i', z'. rewrite dict_get_set_neq; auto.
Qed.

Lemma pop_component_spec v seg rest : forall ons acc,
  ~ In v seg ->
  exists ons',
    pop_component v (seg ++ v :: rest) ons acc = Ok (rest, ons', acc ++ seg ++ [v])
    /\ (forall x, In x (seg ++ [v]) -> dict_get_default x false ons' = false)
    /\ (forall x, ~ In x (seg ++ [v]) ->
                  dict_get_default x false ons' = dict_get_default x false ons).
Proof.
  induction seg as [|a seg IH]; intros ons acc Hn; simpl.
  - rewrite String.eqb_refl. eexists. split; [reflexivity|]. split.
    + intros x [<-|[]]. unfold dict_get_default. now rewrite dict_get_set_eq.
    + intros x Hx. unfold dict_get_default. rewrite dict_get_set_neq; auto.
  - destruct (String.eqb_spec a v) as [->|Hne]; [exfalso; apply Hn; now left|].
    destruct (IH (dict_set a false ons) (acc ++ [a])) as [ons' [E [H1 H2]]].
    { intros H. apply Hn. now right. }
    exists ons'. rewrite E. split; [now rewrite <- app_assoc|]. split.
    + intros x [<-|Hx]; [|auto].
      destruct (in_dec string_dec a (seg ++ [v])) as [Hin|Hnin]; [auto|].
      rewrite H2 by assumption. unfold dict_get_default. now rewrite dict_get_set_eq.
    + intros x Hx. rewrite H2 by (intros H; apply Hx; now right).
      unfold dict_get_default. rewrite dict_get_set_neq; auto.
Qed.

(** *** What a call of [strongconnect] guarantees *)

(** The nodes a call has pushed and left on the stack: all new, reachable
    from the node of the call, finished, and with a lowlink between the
    lowlink of that node and their own index. *)
Definition segment_ok (st0 st : state) (v : string) (seg : list string) : Prop :=
  forall y, In y seg ->
    ~ indexed st0 y /\ reach v y /\ finished st y
    /\ exists l lv i,
         dict_get y (lowlinks st) = Some l /\ dict_get v (lowlinks st) = Some lv
         /\ dict_get y (index st) = Some i /\ lv <= l /\ l < i.

(** State [st] inside the loop over the successors of [v], entered from
    [st0], once the successors in [done] have been handled. *)
Record loop_inv (st0 : state) (v : string) (done : list string) (st : state) : Prop := {
  li_wf : wf st;
  li_index : forall x i, dict_get x (index st0) = Some i -> dict_get x (index st) = Some i;
  li_v : dict_get v (index st) = Some (index_counter st0);
  li_low : forall x, indexed st0 x -> dict_get x (lowlinks st) = dict_get x (lowlinks st0);
  li_stack : exists seg, stack st = seg ++ v :: stack st0 /\ segment_ok st0 st v seg;
  li_done : forall z, In z done -> skip z = false ->
      indexed st z
      /\ (In z (stack st) ->
          exists l j, dict_get v (lowlinks st) = Some l
                      /\ dict_get z (index st) = Some j /\ l <= j)
}.

(** State [st] when [strongconnect v] returns, entered from [st0]. *)
Record returned (st0 : state) (v : string) (st : state) : Prop := {
  rt_wf : wf st;
  rt_index : forall x i, dict_get x (index st0) = Some i -> dict_get x (index st) = Some i;
  rt_v : dict_get v (index st) = Some (index_counter st0);
  rt_low : forall x, indexed st0 x -> dict_get x (lowlinks st) = dict_get x (lowlinks st0);
  rt_stack : exists seg,
      stack st = seg ++ stack st0 /\ segment_ok st0 st v seg
      /\ ((exists seg', seg = seg' ++ [v])
          \/ (seg = [] /\ dict_get v (lowlinks st) = Some (index_counter st0)))
}.

Lemma indexed_ext st st' x :
  (forall x i, dict_get x (index st) = Some i -> dict_get x (index st') = Some i) ->
  indexed st x -> indexed st' x.
Proof.
  intros Hext Hx. apply indexed_get in Hx. destruct Hx as [i Hi].
  apply indexed_get. eauto.
Qed.

Lemma finished_frame st st' y :
  finished st y ->
  (forall x i, dict_get x (index st) = Some i -> dict_get x (index st') = Some i) ->
  dict_get y (lowlinks st') = dict_get y (lowlinks st) ->
  (forall z, indexed st z -> In z (stack st') -> In z (stack st)) ->
  finished st' y.
Proof.
  intros Hf Hext Hlow Hstk z Hz. destruct (Hf z Hz) as [Hi Hs]. split.
  - eapply indexed_ext; eauto.
  - intros Hin. destruct (Hs (Hstk z Hi Hin)) as [l [j [H1 [H2 H3]]]].
    exists l, j. rewrite Hlow. auto.
Qed.

Lemma finished_set_lowlink st y v l :
  y <> v -> finished st y -> finished (set_lowlink v l st) y.
Proof.
  intros Hne Hf z Hz. destruct (Hf z Hz) as [Hi Hs]. split; [exact Hi|].
  simpl. intros Hin. destruct (Hs Hin) as [l' [j [H1 [H2 H3]]]].
  exists l', j. rewrite dict_get_set_neq; auto.
Qed.

Lemma loop_inv_v_on_stack st0 v done st :
  loop_inv st0 v done st -> In v (stack st).
Proof.
  intros H. destruct (li_stack _ _ _ _ H) as [seg [E _]]. rewrite E.
  apply in_or_app. right. now left.
Qed.

Lemma loop_inv_segment_neq st0 v done st seg y :
  loop_inv st0 v done st -> stack st = seg ++ v :: stack st0 -> In y seg -> y <> v.
Proof.
  intros H E Hy ->.
  pose proof (sorted_stack_NoDup _ _ (wf_sorted _ (li_wf _ _ _ _ H))) as Hnd.
  rewrite E in Hnd. apply NoDup_remove_2 in Hnd. apply Hnd.
  apply in_or_app. now left.
Qed.

Lemma loop_inv_lower st0 v done st lv l' :
  ~ indexed st0 v -> loop_inv st0 v done st ->
  dict_get v (lowlinks st) = Some lv -> l' <= lv ->
  wf (set_lowlink v l' st) ->
  loop_inv st0 v done (set_lowlink v l' st).
Proof.
  intros Hv H Hlv Hle Hwf.
  constructor; simpl.
  - exact Hwf.
  - apply (li_index _ _ _ _ H).
  - apply (li_v _ _ _ _ H).
  - intros x Hx. rewrite dict_get_set_neq; [now apply (li_low _ _ _ _ H)|].
    intros ->. auto.
  - destruct (li_stack _ _ _ _ H) as [seg [E Hseg]]. exists seg. split; [exact E|].
    intros y Hy. destruct (Hseg y Hy) as [H1 [H2 [H3 [l [lv0 [i [G1 [G2 [G3 [G4 G5]]]]]]]]]].
    assert (Hne : y <> v) by (eapply loop_inv_segment_neq; eauto).
    split; [exact H1|]. split; [exact H2|]. split.
    + now apply finished_set_lowlink.
    + exists l, l', i. simpl. rewrite dict_get_set_eq, dict_get_set_neq by assumption.
      repeat split; auto. assert (lv0 = lv) by congruence. lia.
  - intros z Hz Hs. destruct (li_done _ _ _ _ H z Hz Hs) as [Hi Hstk].
    split; [exact Hi|]. intros Hin.
    destruct (Hstk Hin) as [l [j0 [G1 [G2 G3]]]].
    exists l', j0. rewrite dict_get_set_eq. repeat split; auto.
    assert (l = lv) by congruence. lia.
Qed.

Lemma loop_inv_snoc st0 v done st s :
  loop_inv st0 v done st ->
  (skip s = false ->
   indexed st s
   /\ (In s (stack st) ->
       exists l j, dict_get v (lowlinks st) = Some l
                   /\ dict_get s (index st) = Some j /\ l <= j)) ->
  loop_inv st0 v (done ++ [s]) st.
Proof.
  intros H Hs.
  constructor;
    [ apply (li_wf _ _ _ _ H) | apply (li_index _ _ _ _ H) | apply (li_v _ _ _ _ H)
    | apply (li_low _ _ _ _ H) | apply (li_stack _ _ _ _ H) | ].
  intros z Hz Hsk. apply in_app_or in Hz. destruct Hz as [Hz|[<-|[]]].
  - now apply (li_done _ _ _ _ H).
  - auto.
Qed.

Lemma loop_inv_low_v st0 v done st :
  loop_inv st0 v done st ->
  exists lv, dict_get v (lowlinks st) = Some lv /\ lv <= index_counter st0.
Proof.
  intros H.
  destruct (wf_lowlink _ (li_wf _ _ _ _ H) v (loop_inv_v_on_stack _ _ _ _ H))
    as [l [i [z [H1 [H2 [H3 _]]]]]].
  exists l. split; [assumption|]. rewrite (li_v _ _ _ _ H) in H2. injection H2 as <-. lia.
Qed.

(** The branch of the loop that finds the successor on the stack. *)
Lemma loop_inv_on_stack st0 v done st s lv i :
  ~ indexed st0 v -> loop_inv st0 v done st -> edge v s ->
  In s (stack st) ->
  dict_get v (lowlinks st) = Some lv -> dict_get s (index st) = Some i ->
  loop_inv st0 v (done ++ [s]) (set_lowlink v (Nat.min lv i) st).
Proof.
  intros Hv H He Hs Hlv Hi.
  assert (Hwf : wf (set_lowlink v (Nat.min lv i) st)).
  { apply wf_set_lowlink; [apply H | eapply loop_inv_v_on_stack; eauto |].
    destruct (wf_lowlink _ (li_wf _ _ _ _ H) v (loop_inv_v_on_stack _ _ _ _ H))
      as [l [iv [z [H1 [H2 [H3 [H4 [H5 H6]]]]]]]].
    assert (l = lv) by congruence. subst l.
    destruct (le_lt_dec lv i) as [Hle|Hlt].
    - rewrite Nat.min_l by assumption. exists iv, z. auto.
    - rewrite Nat.min_r by lia. exists iv, s. repeat split; auto.
      + lia.
      + now apply reach_edge. }
  apply loop_inv_snoc.
  - eapply loop_inv_lower; eauto. apply Nat.le_min_l.
  - intros _. split.
    + apply indexed_get. simpl. eauto.
    + intros _. exists (Nat.min lv i), i. simpl. rewrite dict_get_set_eq.
      repeat split; auto. apply Nat.le_min_r.
Qed.

(** The branch of the loop that calls [strongconnect] on the successor. *)
Lemma loop_inv_call st0 v done st s st1 lv ls :
  ~ indexed st0 v -> loop_inv st0 v done st -> edge v s -> ~ indexed st s ->
  returned st s st1 ->
  dict_get v (lowlinks st1) = Some lv -> dict_get s (lowlinks st1) = Some ls ->
  loop_inv st0 v (done ++ [s]) (set_lowlink v (Nat.min lv ls) st1).
Proof.
  intros Hv H He Hns R Hlv Hls.
  pose proof (li_wf _ _ _ _ H) as Hwf.
  pose proof (rt_wf _ _ _ R) as Hwf1.
  pose proof (li_v _ _ _ _ H) as Hvi.
  assert (Hvidx : indexed st v) by (apply indexed_get; eauto).
  assert (Hlv0 : dict_get v (lowlinks st) = Some lv).
  { rewrite <- (rt_low _ _ _ R v Hvidx). exact Hlv. }
  destruct (loop_inv_low_v _ _ _ _ H) as [lv' [Hlv' Hlvc]].
  assert (lv' = lv) by congruence. subst lv'.
  assert (Hc : index_counter st0 < index_counter st) by (eapply wf_counter; eauto).
  destruct (li_stack _ _ _ _ H) as [seg [Estk Hseg]].
  destruct (rt_stack _ _ _ R) as [seg_s [Estk1 [Hseg_s Hs_in]]].
  assert (Hframe : forall z, indexed st z -> In z (stack st1) -> In z (stack st)).
  { intros z Hz Hin. rewrite Estk1 in Hin. apply in_app_or in Hin.
    destruct Hin as [Hin|Hin]; [|assumption].
    exfalso. now apply (Hseg_s z Hin). }
  assert (Hv1 : In v (stack st1)).
  { rewrite Estk1, Estk. apply in_or_app. right. apply in_or_app. right. now left. }
  assert (Hwf2 : wf (set_lowlink v (Nat.min lv ls) st1)).
  { apply wf_set_lowlink; auto.
    destruct (wf_lowlink _ Hwf1 v Hv1) as [l [iv [z [H1 [H2 [H3 [H4 [H5 H6]]]]]]]].
    assert (l = lv) by congruence. subst l.
    destruct (le_lt_dec lv ls) as [Hle|Hlt].
    - rewrite Nat.min_l by assumption. exists iv, z. auto.
    - rewrite Nat.min_r by lia.
      destruct Hs_in as [[seg' Hs_in]|[_ Hpop]];
        [|exfalso; rewrite Hpop in Hls; injection Hls as <-; lia].
      assert (Hs1 : In s (stack st1)).
      { rewrite Estk1, Hs_in. apply in_or_app. left. apply in_or_app. right. now left. }
      destruct (wf_lowlink _ Hwf1 s Hs1) as [l' [i_s [z' [K1 [K2 [K3 [K4 [K5 K6]]]]]]]].
      assert (l' = ls) by congruence. subst l'.
      exists iv, z'. repeat split; auto; [lia|].
      eapply reach_trans; [apply reach_edge; eassumption | assumption]. }
  constructor; simpl.
  - exact Hwf2.
  - intros x i Hx. apply (rt_index _ _ _ R). now apply (li_index _ _ _ _ H).
  - now apply (rt_index _ _ _ R).
  - intros x Hx. rewrite dict_get_set_neq by (intros ->; auto).
    rewrite (rt_low _ _ _ R); [now apply (li_low _ _ _ _ H)|].
    eapply indexed_ext; [apply (li_index _ _ _ _ H) | assumption].
  - exists (seg_s ++ seg). split; [rewrite Estk1, Estk; now rewrite app_assoc|].
    intros y Hy. apply in_app_or in Hy. destruct Hy as [Hy|Hy].
    + destruct (Hseg_s y Hy) as [H1 [H2 [H3 [l [ls0 [i [G1 [G2 [G3 [G4 G5]]]]]]]]]].
      assert (ls0 = ls) by congruence. subst ls0.
      assert (Hne : y <> v) by (intros ->; auto).
      split; [|split; [|split]].
      * intros Hy0. apply H1. eapply indexed_ext; [apply (li_index _ _ _ _ H) | assumption].
      * eapply reach_trans; [apply reach_edge; eassumption | assumption].
      * now apply finished_set_lowlink.
      * exists l, (Nat.min lv ls), i. simpl.
        rewrite dict_get_set_eq, dict_get_set_neq by assumption.
        repeat split; auto. lia.
    + destruct (Hseg y Hy) as [H1 [H2 [H3 [l [lv0 [i [G1 [G2 [G3 [G4 G5]]]]]]]]]].
      assert (lv0 = lv) by congruence. subst lv0.
      assert (Hne : y <> v) by (eapply loop_inv_segment_neq; eauto).
      assert (Hyi : indexed st y) by (apply indexed_get; eauto).
      split; [exact H1|]. split; [exact H2|]. split.
      * apply finished_set_lowlink; [assumption|].
        eapply finished_frame; eauto using rt_index, rt_low.
      * exists l, (Nat.min lv ls), i. simpl.
        rewrite dict_get_set_eq, dict_get_set_neq by assumption.
        rewrite (rt_low _ _ _ R y Hyi).
        repeat split; auto; [now apply (rt_index _ _ _ R) | lia].
  - intros z Hz Hsk. apply in_app_or in Hz. destruct Hz as [Hz|[<-|[]]].
    + destruct (li_done _ _ _ _ H z Hz Hsk) as [Hi Hstk]. split.
      * eapply indexed_ext; [apply (rt_index _ _ _ R) | assumption].
      * intros Hin. destruct (Hstk (Hframe z Hi Hin)) as [l [j0 [G1 [G2 G3]]]].
        assert (l = lv) by congruence. subst l.
        exists (Nat.min lv ls), j0. rewrite dict_get_set_eq.
        repeat split; auto; [now apply (rt_index _ _ _ R) | lia].
    + split.
      * apply indexed_get. exists (index_counter st). apply (rt_v _ _ _ R).
      * intros _. exists (Nat.min lv ls), (index_counter st). rewrite dict_get_set_eq.
        repeat split; auto; [apply (rt_v _ _ _ R) | lia].
Qed.

(** *** Popping a component *)

Section PopComponent.

Variables (st0 st2 : state) (v : string) (seg : list string) (ons' : dict bool).

Hypothesis v_new : ~ indexed st0 v.
Hypothesis inv : loop_inv st0 v (successors v) st2.
Hypothesis stack2 : stack st2 = seg ++ v :: stack st0.
Hypothesis seg_ok : segment_ok st0 st2 v seg.
Hypothesis root : dict_get v (lowlinks st2) = Some (index_counter st0).
Hypothesis ons_popped : forall x, In x (seg ++ [v]) -> dict_get_default x false ons' = false.
Hypothesis ons_kept : forall x, ~ In x (seg ++ [v]) ->
  dict_get_default x false ons' = dict_get_default x false (on_stack st2).

Definition after_pop : state :=
  {| index_counter := index_counter st2;
     stack := stack st0;
     lowlinks := lowlinks st2;
     index := index st2;
     on_stack := ons';
     components :=
       if Nat.ltb 1 (length (seg ++ [v]))
       then components st2 ++ [seg ++ [v]]
       else components st2 |}.

Let wf2 : wf st2 := li_wf _ _ _ _ inv.

Lemma pop_in_stack2 x : In x (seg ++ [v]) \/ In x (stack st0) <-> In x (stack st2).
Proof.
  rewrite stack2, !in_app_iff. simpl. tauto.
Qed.

Lemma pop_NoDup : NoDup (seg ++ v :: stack st0).
Proof. rewrite <- stack2. apply (sorted_stack_NoDup (index st2)). apply wf2. Qed.

Lemma pop_disjoint x : In x (seg ++ [v]) -> ~ In x (stack st0).
Proof.
  intros Hx Hin. pose proof pop_NoDup as Hnd.
  apply in_app_or in Hx. destruct Hx as [Hx|[<-|[]]].
  - assert (Hnd' : NoDup (seg ++ stack st0)) by (eapply NoDup_remove_1; eauto).
    clear - Hnd' Hx Hin. induction seg as [|a l IH]; simpl in *; [tauto|].
    inversion Hnd' as [|? ? Hn Hd]; subst. destruct Hx as [->|Hx]; [|auto].
    apply Hn. apply in_or_app. now right.
  - apply NoDup_remove_2 in Hnd. apply Hnd. apply in_or_app. now right.
Qed.

Lemma pop_above x i : In x seg -> dict_get x (index st2) = Some i -> index_counter st0 < i.
Proof.
  intros Hx Hi. pose proof (wf_sorted _ wf2) as Hs. rewrite stack2 in Hs.
  destruct (sorted_stack_app _ _ _ Hs) as [_ [_ Hc]].
  apply (Hc x v i (index_counter st0)); auto; [now left | apply (li_v _ _ _ _ inv)].
Qed.

Lemma pop_below x i :
  In x (stack st0) -> dict_get x (index st2) = Some i -> i < index_counter st0.
Proof.
  intros Hx Hi. pose proof (wf_sorted _ wf2) as Hs. rewrite stack2 in Hs.
  destruct (sorted_stack_app _ _ _ Hs) as [_ [Hs2 _]].
  simpl in Hs2. destruct Hs2 as [[iv [Hiv Hlt]] _].
  rewrite (li_v _ _ _ _ inv) in Hiv. injection Hiv as <-.
  destruct (Hlt x Hx) as [j [Hj Hji]]. congruence.
Qed.

(** Every node of the segment reaches the root [v]. *)
Lemma pop_reaches_root : forall n y i,
  In y seg -> dict_get y (index st2) = Some i -> i <= index_counter st0 + n -> reach y v.
Proof.
  induction n as [|n IH]; intros y i Hy Hi Hle.
  - pose proof (pop_above y i Hy Hi). lia.
  - destruct (seg_ok y Hy) as [_ [_ [_ [l [lv [i' [G1 [G2 [G3 [G4 G5]]]]]]]]]].
    assert (i' = i) by congruence. subst i'.
    assert (lv = index_counter st0) by congruence. subst lv.
    assert (Hy2 : In y (stack st2)) by (apply pop_in_stack2; left; apply in_or_app; now left).
    destruct (wf_lowlink _ wf2 y Hy2) as [l' [i'' [z [K1 [K2 [K3 [K4 [K5 K6]]]]]]]].
    assert (l' = l) by congruence. subst l'.
    apply pop_in_stack2 in K4. destruct K4 as [K4|K4].
    + apply in_app_or in K4. destruct K4 as [K4|[<-|[]]]; [|assumption].
      eapply reach_trans; [eassumption|]. apply (IH z l); auto. lia.
    + pose proof (pop_below z l K4 K5). lia.
Qed.

Lemma pop_mutual x y : In x (seg ++ [v]) -> In y (seg ++ [v]) -> reach x y.
Proof.
  intros Hx Hy. apply reach_trans with (y := v).
  - apply in_app_or in Hx. destruct Hx as [Hx|[<-|[]]]; [|apply reach_refl].
    assert (Hx2 : In x (stack st2)) by (apply pop_in_stack2; left; apply in_or_app; now left).
    destruct (sorted_stack_indexed _ _ _ (wf_sorted _ wf2) Hx2) as [i Hi].
    apply (pop_reaches_root i x i); auto. lia.
  - apply in_app_or in Hy. destruct Hy as [Hy|[<-|[]]]; [|apply reach_refl].
    now apply (seg_ok y Hy).
Qed.

(** No edge leaves the popped component for the rest of the stack. *)
Lemma pop_edges x y :
  In x (seg ++ [v]) -> edge x y -> indexed st2 y /\ ~ In y (stack st0).
Proof.
  intros Hx He. apply in_app_or in Hx.
  assert (Hkey : forall l,
             (indexed st2 y /\ (In y (stack st2) ->
                exists l' j, Some l = Some l' /\ dict_get y (index st2) = Some j /\ l' <= j)) ->
             index_counter st0 <= l ->
             indexed st2 y /\ ~ In y (stack st0)).
  { intros l [Hi Hs] Hl. split; [assumption|]. intros Hin.
    destruct Hs as [l' [j [E1 [E2 E3]]]]; [apply pop_in_stack2; now right|].
    injection E1 as <-. pose proof (pop_below y j Hin E2). lia. }
  destruct Hx as [Hx|[<-|[]]].
  - destruct (seg_ok x Hx) as [_ [_ [Hf [l [lv [i [G1 [G2 [G3 [G4 G5]]]]]]]]]].
    assert (lv = index_counter st0) by congruence. subst lv.
    apply (Hkey l); [|assumption]. rewrite <- G1. apply Hf. assumption.
  - apply (Hkey (index_counter st0)); [|lia]. rewrite <- root.
    destruct He as [He1 He2]. apply (li_done _ _ _ _ inv y He1 He2).
Qed.

Lemma pop_popped x : popped after_pop x <-> (In x (seg ++ [v]) \/ popped st2 x).
Proof.
  unfold popped, indexed. simpl. split.
  - intros [Hi Hn]. destruct (in_dec string_dec x (seg ++ [v])) as [Hin|Hnin]; [now left|].
    right. split; [assumption|]. intros H. apply pop_in_stack2 in H. tauto.
  - intros [Hin|[Hi Hn]].
    + split; [|now apply pop_disjoint].
      apply (stack_indexed st2 x wf2). apply pop_in_stack2. now left.
    + split; [assumption|]. intros H. apply Hn. apply pop_in_stack2. now right.
Qed.

Lemma pop_closed x y : popped after_pop x -> edge x y -> popped after_pop y.
Proof.
  intros Hx He. apply pop_popped in Hx. destruct Hx as [Hx|Hx].
  - destruct (pop_edges x y Hx He) as [Hi Hn]. split; assumption.
  - apply pop_popped. right. eapply wf_closed; eauto.
Qed.

Lemma two_distinct_length (l : list string) x y :
  In x l -> In y l -> x <> y -> 2 <= length l.
Proof.
  destruct l as [|a [|b l]]; simpl; intros Hx Hy Hne; try tauto; try lia.
  destruct Hx as [<-|[]], Hy as [<-|[]]. congruence.
Qed.

Lemma wf_after_pop : wf after_pop.
Proof.
  constructor.
  - apply (wf_low _ wf2).
  - apply (wf_counter _ wf2).
  - intros x. simpl. destruct (in_dec string_dec x (seg ++ [v])) as [Hin|Hnin].
    + rewrite (ons_popped x Hin). split; [discriminate|].
      intros H. exfalso. eapply pop_disjoint; eauto.
    + rewrite (ons_kept x Hnin), (wf_on_stack _ wf2 x), <- pop_in_stack2. tauto.
  - simpl. pose proof (wf_sorted _ wf2) as Hs. rewrite stack2 in Hs.
    destruct (sorted_stack_app _ _ _ Hs) as [_ [Hs2 _]]. apply Hs2.
  - intros y Hy. simpl in Hy.
    assert (Hy2 : In y (stack st2)) by (apply pop_in_stack2; now right).
    destruct (wf_lowlink _ wf2 y Hy2) as [l [i [z [K1 [K2 [K3 [K4 [K5 K6]]]]]]]].
    exists l, i, z. simpl. repeat split; auto.
    pose proof (pop_below y i Hy K2) as Hlt.
    apply pop_in_stack2 in K4. destruct K4 as [K4|K4]; [|assumption].
    exfalso. apply in_app_or in K4. destruct K4 as [K4|[<-|[]]].
    + pose proof (pop_above z l K4 K5). lia.
    + rewrite (li_v _ _ _ _ inv) in K5. injection K5 as <-. lia.
  - intros comp Hc. simpl in Hc.
    destruct (Nat.ltb 1 (length (seg ++ [v]))) eqn:Hlen.
    + apply in_app_or in Hc. destruct Hc as [Hc|[<-|[]]]; [now apply (wf_sound _ wf2)|].
      apply Nat.ltb_lt in Hlen. split; [lia|]. apply pop_mutual.
    + now apply (wf_sound _ wf2).
  - apply pop_closed.
  - intros x y Hx Hxy Hyx Hne.
    assert (Hold : forall comp, In comp (components st2) -> In comp (components after_pop)).
    { intros comp Hc. simpl. destruct (Nat.ltb 1 (length (seg ++ [v]))); [|assumption].
      apply in_or_app. now left. }
    apply pop_popped in Hx as Hx'. destruct Hx' as [Hin|Hp].
    + assert (Hy : In y (seg ++ [v])).
      { assert (Hyp : popped after_pop y)
          by (apply (closed_reach (popped after_pop) x y);
              [exact pop_closed | assumption | assumption]).
        apply pop_popped in Hyp. destruct Hyp as [Hyp|Hyp]; [assumption|].
        exfalso. destruct (popped_reach st2 y x wf2 Hyp Hyx) as [_ Hn].
        apply Hn. apply pop_in_stack2. now left. }
      exists (seg ++ [v]). split; [|auto]. simpl.
      pose proof (two_distinct_length _ x y Hin Hy Hne) as Hlen.
      apply Nat.ltb_lt in Hlen. rewrite Hlen. apply in_or_app. right. now left.
    + destruct (wf_complete _ wf2 x y Hp Hxy Hyx Hne) as [comp [Hc Hxy']].
      exists comp. split; auto.
  - simpl. destruct (Nat.ltb 1 (length (seg ++ [v]))); [|apply (wf_disjoint _ wf2)].
    rewrite concat_app. simpl. rewrite app_nil_r.
    assert (Hnd : NoDup (seg ++ [v])).
    { pose proof pop_NoDup as Hnd.
      assert (E : seg ++ v :: stack st0 = (seg ++ [v]) ++ stack st0)
        by (now rewrite <- app_assoc).
      rewrite E in Hnd. eapply NoDup_app_remove_r; eauto. }
    assert (Hd : forall x, In x (concat (components st2)) -> ~ In x (seg ++ [v])).
    { intros x Hx Hin. destruct (wf_members _ wf2 x Hx) as [_ Hn].
      apply Hn. apply pop_in_stack2. now left. }
    pose proof (wf_disjoint _ wf2) as Hnd2.
    revert Hnd2 Hd. generalize (concat (components st2)) as l.
    induction l as [|a l IH]; simpl; intros Hnd2 Hd; [assumption|].
    inversion Hnd2 as [|? ? Hn Hd2]; subst. constructor.
    * intros Hin. apply in_app_or in Hin. destruct Hin as [Hin|Hin]; [tauto|].
      apply (Hd a); auto.
    * apply IH; auto.
  - intros x Hx. apply pop_popped. simpl in Hx.
    destruct (Nat.ltb 1 (length (seg ++ [v]))).
    + rewrite concat_app in Hx. simpl in Hx. rewrite app_nil_r in Hx.
      apply in_app_or in Hx. destruct Hx as [Hx|Hx]; [|now left].
      right. now apply (wf_members _ wf2).
    + right. now apply (wf_members _ wf2).
Qed.

End PopComponent.

(** *** The recursion returns *)

Variable universe : list string.
Hypothesis universe_closed : forall a b, edge a b -> In b universe.

(** Number of nodes of the universe without an index yet. *)
Definition remaining (st : state) : nat :=
  length (unmarked universe (dict_keys (index st))).

Lemma remaining_ext st st' :
  (forall x i, dict_get x (index st) = Some i -> dict_get x (index st') = Some i) ->
  remaining st' <= remaining st.
Proof.
  intros Hext. apply unmarked_le. intros x Hx.
  apply dict_mem_true in Hx. apply dict_mem_true.
  apply (indexed_ext st st' x Hext Hx).
Qed.

Definition call_ok (m : nat) (rec : string -> state -> result state) : Prop :=
  forall v st,
    wf st -> ~ indexed st v -> In v universe -> remaining st <= m ->
    exists st', rec v st = Ok st' /\ returned st v st'.

Lemma visit_successors_ok m rec st0 v :
  call_ok m rec -> ~ indexed st0 v ->
  forall todo done st,
    loop_inv st0 v done st -> remaining st <= m ->
    (forall z, In z todo -> In z (successors v)) ->
    exists st', visit_successors skip rec v todo st = Ok st'
                /\ loop_inv st0 v (done ++ todo) st'.
Proof.
  intros Hrec Hv. induction todo as [|s rest IH]; intros done st H Hm Hsub.
  - exists st. rewrite app_nil_r. auto.
  - assert (Hrest : forall z, In z rest -> In z (successors v))
      by (intros z Hz; apply Hsub; now right).
    replace (done ++ s :: rest) with ((done ++ [s]) ++ rest)
      by (now rewrite <- app_assoc).
    cbn [visit_successors]. destruct (skip s) eqn:Hsk.
    { apply IH; auto. apply loop_inv_snoc; auto. congruence. }
    assert (He : edge v s) by (split; [apply Hsub; now left | assumption]).
    destruct (loop_inv_low_v _ _ _ _ H) as [lv [Hlv _]].
    destruct (dict_mem s (index st)) eqn:Hidx; cbn [negb].
    + destruct (dict_get_default s false (on_stack st)) eqn:Hon.
      * apply (wf_on_stack _ (li_wf _ _ _ _ H)) in Hon.
        assert (Hi : indexed st s) by exact Hidx.
        apply indexed_get in Hi. destruct Hi as [i Hi].
        unfold dict_lookup. rewrite Hlv, Hi. cbn [bind].
        apply IH; auto. eapply loop_inv_on_stack; eauto.
      * apply IH; auto. apply loop_inv_snoc; auto. intros _. split; [exact Hidx|].
        intros Hin. apply (wf_on_stack _ (li_wf _ _ _ _ H)) in Hin. congruence.
    + assert (Hns : ~ indexed st s) by (unfold indexed; congruence).
      destruct (Hrec s st (li_wf _ _ _ _ H) Hns (universe_closed _ _ He) Hm)
        as [st1 [E1 R]].
      rewrite E1. cbn [bind].
      assert (Hvi : indexed st v) by (apply indexed_get; eauto using li_v).
      assert (Hlv1 : dict_get v (lowlinks st1) = Some lv).
      { rewrite (rt_low _ _ _ R v Hvi). exact Hlv. }
      assert (Hls : exists ls, dict_get s (lowlinks st1) = Some ls).
      { assert (Hs1 : indexed st1 s) by (apply indexed_get; eauto using rt_v).
        apply (wf_low _ (rt_wf _ _ _ R)) in Hs1. unfold dict_mem in Hs1.
        destruct (dict_get s (lowlinks st1)); [eauto | discriminate]. }
      destruct Hls as [ls Hls].
      unfold dict_lookup. rewrite Hlv1, Hls. cbn [bind].
      apply IH; auto.
      * eapply loop_inv_call; eauto.
      * pose proof (remaining_ext st st1 (rt_index _ _ _ R)).
        unfold remaining in *. simpl. lia.
Qed.

Lemma loop_inv_push st0 v :
  wf st0 -> ~ indexed st0 v -> loop_inv st0 v [] (push v st0).
Proof.
  intros Hwf Hv. constructor.
  - now apply wf_push.
  - intros x i Hx. now apply push_index_ext.
  - simpl. apply dict_get_set_eq.
  - intros x Hx. simpl. apply dict_get_set_neq. intros ->. auto.
  - exists []. split; [reflexivity|]. intros y [].
  - intros z [].
Qed.

Lemma strongconnect_ok m : call_ok m (strongconnect successors skip (S m)).
Proof.
  induction m as [|m IH]; intros v st Hwf Hv Hu Hm.
  - exfalso.
    assert (Hin : In v (unmarked universe (dict_keys (index st)))).
    { apply filter_In. split; [assumption|]. apply negb_true_iff.
      apply set_mem_false. intros H. apply Hv. now apply dict_mem_true. }
    unfold remaining in Hm.
    destruct (unmarked universe (dict_keys (index st))); simpl in *; [tauto | lia].
  - change (strongconnect successors skip (S (S m)) v st) with
      (st2 <- visit_successors skip (strongconnect successors skip (S m)) v
                (successors v) (push v st) ;;
       ln <- dict_lookup v (lowlinks st2) ;;
       i <- dict_lookup v (index st2) ;;
       if Nat.eqb ln i then
         popped <- pop_component v (stack st2) (on_stack st2) [] ;;
         let '(stk, ons, component) := popped in
         Ok {| index_counter := index_counter st2;
               stack := stk;
               lowlinks := lowlinks st2;
               index := index st2;
               on_stack := ons;
               components :=
                 if Nat.ltb 1 (length component)
                 then components st2 ++ [component]
                 else components st2 |}
       else Ok st2).
    assert (Hm1 : remaining (push v st) <= m).
    { assert (remaining (push v st) < remaining st); [|lia].
      unfold remaining. apply unmarked_lt with (k := v); auto.
      - intros x Hx. simpl. apply dict_keys_set_In. now right.
      - intros H. apply Hv. now apply dict_mem_true.
      - simpl. apply dict_keys_set_In. now left. }
    destruct (visit_successors_ok m _ st v IH Hv (successors v) [] (push v st)
                (loop_inv_push st v Hwf Hv) Hm1 (fun z Hz => Hz))
      as [st2 [E2 H]].
    rewrite E2. cbn [bind]. simpl app in H.
    destruct (loop_inv_low_v _ _ _ _ H) as [lv [Hlv Hle]].
    unfold dict_lookup. rewrite Hlv, (li_v _ _ _ _ H). cbn [bind].
    destruct (li_stack _ _ _ _ H) as [seg [Estk Hseg]].
    destruct (Nat.eqb_spec lv (index_counter st)) as [->|Hne].
    + (* [v] is the root of a component *)
      assert (Hnin : ~ In v seg).
      { intros Hin. eapply loop_inv_segment_neq; eauto. }
      rewrite Estk.
      destruct (pop_component_spec v seg (stack st) (on_stack st2) [] Hnin)
        as [ons' [Ep [Hp1 Hp2]]].
      rewrite Ep. cbn [bind app].
      eexists. split; [reflexivity|].
      pose proof (wf_after_pop st st2 v seg ons' H Estk Hseg Hlv Hp1 Hp2) as Hwf3.
      constructor.
      * exact Hwf3.
      * apply (li_index _ _ _ _ H).
      * apply (li_v _ _ _ _ H).
      * apply (li_low _ _ _ _ H).
      * exists []. split; [reflexivity|]. split; [intros y []|].
        right. split; [reflexivity | exact Hlv].
    + exists st2. split; [reflexivity|]. constructor.
      * apply (li_wf _ _ _ _ H).
      * apply (li_index _ _ _ _ H).
      * apply (li_v _ _ _ _ H).
      * apply (li_low _ _ _ _ H).
      * exists (seg ++ [v]). split; [rewrite Estk; now rewrite <- app_assoc|].
        split; [|left; now exists seg].
        intros y Hy. apply in_app_or in Hy. destruct Hy as [Hy|[<-|[]]]; [now apply Hseg|].
        split; [exact Hv|]. split; [apply reach_refl|]. split.
        -- intros z [Hz1 Hz2]. apply (li_done _ _ _ _ H z Hz1 Hz2).
        -- exists lv, lv, (index_counter st).
           split; [exact Hlv|]. split; [exact Hlv|].
           split; [apply (li_v _ _ _ _ H)|]. split; lia.
Qed.

(** *** The loop over the roots and the result *)

Lemma returned_from_empty st v st' :
  returned st v st' -> stack st = [] -> stack st' = [].
Proof.
  intros R Hempty. destruct (rt_stack _ _ _ R) as [seg [E [Hseg Hv]]].
  rewrite Hempty, app_nil_r in E.
  destruct Hv as [[seg' ->]|[-> _]]; [exfalso|assumption].
  assert (Hin : In v (seg' ++ [v])) by (apply in_or_app; right; now left).
  destruct (Hseg v Hin) as [_ [_ [_ [l [lv [i [G1 [G2 [G3 [G4 G5]]]]]]]]]].
  assert (i = index_counter st) by (rewrite (rt_v _ _ _ R) in G3; congruence). subst i.
  assert (Hin' : In v (stack st')) by (rewrite E; exact Hin).
  destruct (wf_lowlink _ (rt_wf _ _ _ R) v Hin') as [l' [i' [z [K1 [K2 [K3 [K4 [K5 K6]]]]]]]].
  assert (l' = l) by congruence. subst l'.
  pose proof (wf_sorted _ (rt_wf _ _ _ R)) as Hs. rewrite E in Hs.
  rewrite E in K4. apply in_app_or in K4. destruct K4 as [K4|[<-|[]]].
  - destruct (sorted_stack_app _ _ _ Hs) as [_ [_ Hc]].
    pose proof (Hc z v l (index_counter st) K4 (or_introl eq_refl) K5 (rt_v _ _ _ R)). lia.
  - rewrite (rt_v _ _ _ R) in K5. injection K5 as <-. lia.
Qed.

Lemma visit_roots_ok m :
  length universe <= m ->
  forall roots st,
    wf st -> stack st = [] -> (forall r, In r roots -> In r universe) ->
    exists st',
      visit_roots successors skip (S m) roots st = Ok st'
      /\ wf st' /\ stack st' = []
      /\ (forall x, indexed st x -> indexed st' x)
      /\ (forall r, In r roots -> indexed st' r).
Proof.
  intros Hm. induction roots as [|r roots IH]; intros st Hwf Hempty Hu.
  - exists st. split; [reflexivity|]. split; [exact Hwf|]. split; [exact Hempty|].
    split; [auto | intros r []].
  - cbn [visit_roots].
    assert (Hu' : forall r', In r' roots -> In r' universe) by (intros; apply Hu; now right).
    destruct (dict_mem r (index st)) eqn:Hr; cbn [negb].
    + destruct (IH st Hwf Hempty Hu') as [st' [E [W [S' [M A]]]]].
      exists st'. split; [exact E|]. split; [exact W|]. split; [exact S'|].
      split; [exact M|].
      intros r' [<-|Hr']; [apply M; exact Hr | auto].
    + assert (Hnr : ~ indexed st r) by (unfold indexed; congruence).
      destruct (strongconnect_ok m r st Hwf Hnr (Hu r (or_introl eq_refl)))
        as [st1 [E1 R]].
      { pose proof (unmarked_length universe (dict_keys (index st))).
        unfold remaining. lia. }
      rewrite E1. cbn [bind].
      destruct (IH st1 (rt_wf _ _ _ R) (returned_from_empty _ _ _ R Hempty) Hu')
        as [st' [E [W [S' [M A]]]]].
      exists st'. split; [exact E|]. split; [exact W|]. split; [exact S'|]. split.
      * intros x Hx. apply M. eapply indexed_ext; [apply (rt_index _ _ _ R) | assumption].
      * intros r' [<-|Hr']; [|auto]. apply M. apply indexed_get.
        exists (index_counter st). apply (rt_v _ _ _ R).
Qed.

Lemma NoDup_concat_member {A} (ls : list (list A)) (l : list A) :
  NoDup (concat ls) -> In l ls -> NoDup l.
Proof.
  induction ls as [|a ls IH]; simpl; intros Hnd Hin; [tauto|].
  destruct Hin as [->|Hin].
  - eapply NoDup_app_remove_r; eauto.
  - apply IH; auto. eapply NoDup_app_remove_l; eauto.
Qed.

(** The result of the whole function: it returns; every component has two or
    more distinct members that reach each other; no node is in two
    components; and two distinct nodes that reach each other, one of them a
    root, are together in a component. *)
Theorem run_correct m roots :
  length universe <= m ->
  (forall r, In r roots -> In r universe) ->
  exists comps,
    run successors skip (S m) roots = Ok comps
    /\ (forall comp, In comp comps ->
          2 <= length comp /\ NoDup comp
          /\ forall x y, In x comp -> In y comp -> reach x y)
    /\ NoDup (concat comps)
    /\ (forall x y, In x roots -> reach x y -> reach y x -> x <> y ->
          exists comp, In comp comps /\ In x comp /\ In y comp).
Proof.
  intros Hm Hu. unfold run.
  destruct (visit_roots_ok m Hm roots initial wf_initial eq_refl Hu)
    as [st' [E [W [S' [_ A]]]]].
  rewrite E. cbn [bind]. exists (components st'). split; [reflexivity|].
  split; [|split].
  - intros comp Hc. destruct (wf_sound _ W comp Hc) as [H1 H2].
    split; [exact H1|]. split; [|exact H2].
    eapply NoDup_concat_member; eauto using wf_disjoint.
  - apply (wf_disjoint _ W).
  - intros x y Hx Hxy Hyx Hne. apply (wf_complete _ W x y); auto.
    split; [now apply A|]. rewrite S'. intros [].
Qed.

End TarjanCorrect.


(* ------------------------------------------------------------------------- *)
(** ** The graphs the three programs build from the same files *)

Lemma dict_get_default_In {V} k (d : dict (list V)) x :
  In x (dict_get_default k [] d) -> exists l, dict_get k d = Some l /\ In x l.
Proof.
  unfold dict_get_default. destruct (dict_get k d) as [l|]; [eauto | intros []].
Qed.

Section SameFiles.

(** [references] of the last declaration of every name agree between
    [analyze_circular_deps.py] and [dependency_analyzer.py]. *)
Definition same_references (assemblies : dict AnalyzeCircularDeps.asmdef)
    (graph : dict (list string)) : Prop :=
  forall k, option_map AnalyzeCircularDeps.references (dict_get k assemblies)
            = dict_get k graph.

Lemma collect_assemblies_same files : forall assemblies self,
  same_references assemblies (DependencyAnalyzer.dependency_graph self) ->
  same_references
    (fst (AnalyzeCircularDeps.collect_assemblies files assemblies))
    (DependencyAnalyzer.dependency_graph
       (fst (DependencyAnalyzer.load_assemblies files self))).
Proof.
  induction files as [|f files IH]; intros assemblies self H; simpl; [exact H|].
  unfold AnalyzeCircularDeps.parse_asmdef, DependencyAnalyzer.load_one.
  destruct (content f) as [e|d].
  - specialize (IH assemblies self H).
    destruct (AnalyzeCircularDeps.collect_assemblies files assemblies).
    destruct (DependencyAnalyzer.load_assemblies files self). exact IH.
  - match goal with
    | |- context [AnalyzeCircularDeps.collect_assemblies files ?a] =>
        match goal with
        | |- context [DependencyAnalyzer.load_assemblies files ?s] =>
            specialize (IH a s)
        end
    end.
    simpl in IH.
    destruct (AnalyzeCircularDeps.collect_assemblies files _).
    destruct (DependencyAnalyzer.load_assemblies files _).
    apply IH. intros k. simpl. destruct (string_dec k (get_name "" d)) as [->|Hne].
    + now rewrite !dict_get_set_eq.
    + rewrite !dict_get_set_neq by assumption. apply H.
Qed.

Lemma collect_assemblies_NoDup files : forall assemblies,
  NoDup (dict_keys assemblies) ->
  NoDup (dict_keys (fst (AnalyzeCircularDeps.collect_assemblies files assemblies))).
Proof.
  induction files as [|f files IH]; intros assemblies H; simpl; [exact H|].
  unfold AnalyzeCircularDeps.parse_asmdef. destruct (content f) as [e|d].
  - specialize (IH assemblies H).
    destruct (AnalyzeCircularDeps.collect_assemblies files assemblies). exact IH.
  - match goal with
    | |- context [AnalyzeCircularDeps.collect_assemblies files ?a] => specialize (IH a)
    end.
    destruct (AnalyzeCircularDeps.collect_assemblies files _).
    apply IH. simpl. now apply dict_keys_set_NoDup.
Qed.

(** Every edge of the graph of [build_dependency_graph] is a reference of
    its source to an assembly of the project. *)
Definition edges_declared (assemblies : dict AnalyzeCircularDeps.asmdef)
    (graph : dict (list string)) : Prop :=
  forall a b, In b (dict_get_default a [] graph) ->
    (exists asm, In (a, asm) assemblies /\ In b (AnalyzeCircularDeps.references asm))
    /\ dict_mem b assemblies = true.

Lemma add_references_declared assemblies nm asm refs : forall graph,
  In (nm, asm) assemblies ->
  (forall r, In r refs -> In r (AnalyzeCircularDeps.references asm)) ->
  edges_declared assemblies graph ->
  edges_declared assemblies (AnalyzeCircularDeps.add_references assemblies nm refs graph).
Proof.
  induction refs as [|r refs IH]; intros graph Hin Hsub H; simpl; [exact H|].
  assert (Hsub' : forall r', In r' refs -> In r' (AnalyzeCircularDeps.references asm))
    by (intros; apply Hsub; now right).
  destruct (dict_mem r assemblies) eqn:Hr; [|now apply IH].
  apply IH; auto. intros a b Hb.
  unfold AnalyzeCircularDeps.defaultdict_append in Hb.
  unfold dict_get_default in Hb at 1.
  destruct (string_dec a nm) as [->|Hne].
  - rewrite dict_get_set_eq in Hb. apply in_app_or in Hb. destruct Hb as [Hb|[<-|[]]].
    + now apply H.
    + split; [|assumption]. exists asm. split; [assumption|]. apply Hsub. now left.
  - rewrite dict_get_set_neq in Hb by assumption. now apply H.
Qed.

Lemma build_graph_declared assemblies items : forall graph,
  (forall it, In it items -> In it assemblies) ->
  edges_declared assemblies graph ->
  edges_declared assemblies (AnalyzeCircularDeps.build_graph assemblies items graph).
Proof.
  induction items as [|[nm asm] items IH]; intros graph Hsub H; simpl; [exact H|].
  apply IH; [intros; apply Hsub; now right|].
  apply add_references_declared with (asm := asm); auto. apply Hsub. now left.
Qed.

Lemma dict_get_NoDup_In {V} (d : dict V) k v :
  NoDup (dict_keys d) -> In (k, v) d -> dict_get k d = Some v.
Proof.
  unfold dict_keys. induction d as [|[k' v'] d IH]; simpl; intros Hnd Hin; [tauto|].
  inversion Hnd as [|? ? Hn Hd]; subst.
  destruct Hin as [[= -> ->]|Hin].
  - now rewrite String.eqb_refl.
  - destruct (String.eqb_spec k k') as [->|Hne]; [|auto].
    exfalso. apply Hn. apply in_map_iff. exists (k', v). auto.
Qed.

(** The edges [analyze_circular_deps.py] follows are forward edges of the
    graph of [dependency_analyzer.py] built from the same files. *)
Lemma build_dependency_graph_depends files a b :
  In b (dict_get_default a []
          (snd (fst (AnalyzeCircularDeps.build_dependency_graph files)))) ->
  depends (DependencyAnalyzer.dependency_graph
             (fst (DependencyAnalyzer.load_assemblies files DependencyAnalyzer.init))) a b.
Proof.
  unfold AnalyzeCircularDeps.build_dependency_graph.
  pose proof (collect_assemblies_same files [] DependencyAnalyzer.init (fun k => eq_refl))
    as Hsame.
  pose proof (collect_assemblies_NoDup files [] (NoDup_nil _)) as Hnd.
  destruct (AnalyzeCircularDeps.collect_assemblies files []) as [assemblies out].
  simpl in *. intros Hb.
  destruct (build_graph_declared assemblies assemblies [] (fun it H => H)) with (a := a) (b := b)
    as [[asm [Hin Href]] Hmem]; auto.
  { intros a' b' H'. unfold dict_get_default in H'. simpl in H'. tauto. }
  apply (dict_get_NoDup_In _ _ _ Hnd) in Hin.
  split.
  - unfold dict_get_default. rewrite <- Hsame, Hin. simpl. exact Href.
  - unfold dict_mem in *. rewrite <- Hsame.
    destruct (dict_get b assemblies); [reflexivity | discriminate].
Qed.

End SameFiles.

(* ------------------------------------------------------------------------- *)
(** ** [analyze_circular_deps.find_strongly_connected_components] *)

Section AnalyzeCircularDepsComponents.

Variable graph : dict (list string).

Definition graph_successors (node : string) : list string :=
  dict_get_default node [] graph.

Definition never_skip (_ : string) : bool := false.

Lemma nodes_closed a b :
  edge graph_successors never_skip a b -> In b (AnalyzeCircularDeps.nodes graph).
Proof.
  intros [Hb _]. unfold graph_successors in Hb.
  apply dict_get_default_In in Hb. destruct Hb as [l [Hl Hb]].
  apply dict_get_In in Hl. unfold AnalyzeCircularDeps.nodes.
  apply in_or_app. right. apply in_concat. exists l. split; [|assumption].
  apply in_map_iff. exists (a, l). auto.
Qed.

Lemma analyze_circular_deps_components :
  exists comps,
    AnalyzeCircularDeps.find_strongly_connected_components graph = Ok comps
    /\ (forall comp, In comp comps ->
          2 <= length comp /\ NoDup comp
          /\ forall x y, In x comp -> In y comp ->
               reach graph_successors never_skip x y)
    /\ NoDup (concat comps)
    /\ (forall x y, In x (dict_keys graph) ->
          reach graph_successors never_skip x y ->
          reach graph_successors never_skip y x -> x <> y ->
          exists comp, In comp comps /\ In x comp /\ In y comp).
Proof.
  unfold AnalyzeCircularDeps.find_strongly_connected_components.
  apply (run_correct graph_successors never_skip (AnalyzeCircularDeps.nodes graph)
           nodes_closed (length (AnalyzeCircularDeps.nodes graph)) (dict_keys graph)).
  - lia.
  - intros r Hr. unfold AnalyzeCircularDeps.nodes. apply in_or_app. now left.
Qed.

End AnalyzeCircularDepsComponents.

Lemma clos_trans_mono (R R' : string -> string -> Prop) x y :
  (forall a b, R a b -> R' a b) -> clos_trans string R x y -> clos_trans string R' x y.
Proof.
  intros H Hx. induction Hx; [apply t_step | eapply t_trans]; eauto.
Qed.

Lemma clos_refl_trans_mono (R R' : string -> string -> Prop) x y :
  (forall a b, R a b -> R' a b) ->
  clos_refl_trans string R x y -> clos_refl_trans string R' x y.
Proof.
  intros H Hx. induction Hx; [apply rt_step | apply rt_refl | eapply rt_trans]; eauto.
Qed.

Lemma step_then_reach (R : string -> string -> Prop) a b c :
  R a b -> clos_refl_trans string R b c -> clos_trans string R a c.
Proof.
  intros Hab Hbc. apply clos_rt_rt1n in Hbc. revert a Hab.
  induction Hbc as [b|b b' c Hbb' Hb'c IH]; intros a Hab.
  - now apply t_step.
  - eapply t_trans; [apply t_step; exact Hab | now apply IH].
Qed.

(** Two distinct nodes that reach each other lie on a cycle. *)
Lemma mutual_reach_cycle (R : string -> string -> Prop) x y :
  x <> y -> clos_refl_trans string R x y -> clos_refl_trans string R y x ->
  clos_trans string R x x.
Proof.
  intros Hne Hxy Hyx. apply clos_rt_rt1n in Hxy.
  destruct Hxy as [|z w Hxz Hzw]; [congruence|].
  apply clos_rt1n_rt in Hzw. apply step_then_reach with (b := z); [assumption|].
  eapply rt_trans; eassumption.
Qed.

(** A component with two distinct members that reach each other closes a
    cycle. *)
Lemma component_cycle (R : string -> string -> Prop) (comp : list string) :
  2 <= length comp -> NoDup comp ->
  (forall x y, In x comp -> In y comp -> clos_refl_trans string R x y) ->
  exists x, clos_trans string R x x.
Proof.
  intros Hlen Hnd Hr. destruct comp as [|x [|y comp]]; simpl in Hlen; try lia.
  assert (Hne : x <> y).
  { inversion Hnd as [|? ? Hn _]; subst. intros ->. apply Hn. now left. }
  exists x. apply mutual_reach_cycle with (y := y); auto; apply Hr; simpl; auto.
Qed.

(** C9.  On a graph without a directed cycle among its modules,
    [DependencyAnalyzer.find_cycles] returns no cycle and
    [find_strongly_connected_components] of [analyze_circular_deps.py], run on
    the graph built from the same files, returns no component (it only
    returns components with two or more members). *)
Theorem acyclic_graph_no_cycles_no_components (files : list asmdef_file) :
  let self := fst (DependencyAnalyzer.load_assemblies files DependencyAnalyzer.init) in
  let graph := snd (fst (AnalyzeCircularDeps.build_dependency_graph files)) in
  acyclic (DependencyAnalyzer.dependency_graph self) ->
  DependencyAnalyzer.find_cycles self = Ok []
  /\ AnalyzeCircularDeps.find_strongly_connected_components graph = Ok [].
Proof.
  intros self graph Hacyc. split.
  - now apply (find_cycles_acyclic (DependencyAnalyzer.dependency_graph self)).
  - destruct (analyze_circular_deps_components graph) as [comps [E [Hsound _]]].
    rewrite E. f_equal. destruct comps as [|comp comps]; [reflexivity|]. exfalso.
    destruct (Hsound comp (or_introl eq_refl)) as [Hlen [Hnd Hr]].
    destruct (component_cycle _ comp Hlen Hnd Hr) as [x Hx].
    apply (Hacyc x). revert Hx. apply clos_trans_mono.
    intros a b [Hab _]. now apply build_dependency_graph_depends.
Qed.

Lemma acyclic_by_rank (graph : dict (list string)) (rank : string -> nat) :
  (forall a b, depends graph a b -> rank b < rank a) -> acyclic graph.
Proof.
  intros Hrank x Hx.
  assert (H : forall a b, clos_trans string (depends graph) a b -> rank b < rank a).
  { intros a b Hab. induction Hab as [a b Hab|a b c _ IH1 _ IH2]; [auto | lia]. }
  specialize (H x x Hx). lia.
Qed.

Definition declare (nm : string) (refs : list string) : declaration :=
  {| decl_name := Some nm; decl_references := refs; decl_assembly_references := [] |}.

(** Scenario 2 of the specification: [A -> B], [B -> C]. *)
Definition chain_files : list asmdef_file :=
  files_of [declare "A" ["B"]; declare "B" ["C"]; declare "C" []].

Lemma chain_files_acyclic :
  acyclic (DependencyAnalyzer.dependency_graph
             (fst (DependencyAnalyzer.load_assemblies chain_files DependencyAnalyzer.init))).
Proof.
  apply acyclic_by_rank with
    (rank := fun s => if String.eqb s "A" then 2 else if String.eqb s "B" then 1 else 0).
  intros a b [Hb _].
  change (DependencyAnalyzer.dependency_graph
            (fst (DependencyAnalyzer.load_assemblies chain_files DependencyAnalyzer.init)))
    with [("A", ["B"]); ("B", ["C"]); ("C", @nil string)] in Hb.
  unfold dict_get_default in Hb. simpl in Hb.
  destruct (String.eqb_spec a "A") as [->|HA].
  { destruct Hb as [<-|[]]. simpl. lia. }
  destruct (String.eqb_spec a "B") as [->|HB].
  { destruct Hb as [<-|[]]. simpl. lia. }
  destruct (String.eqb_spec a "C") as [->|HC]; destruct Hb.
Qed.

Lemma acyclic_graph_no_cycles_no_components_witness :
  DependencyAnalyzer.find_cycles
    (fst (DependencyAnalyzer.load_assemblies chain_files DependencyAnalyzer.init)) = Ok []
  /\ AnalyzeCircularDeps.find_strongly_connected_components
       (snd (fst (AnalyzeCircularDeps.build_dependency_graph chain_files))) = Ok [].
Proof.
  apply (acyclic_graph_no_cycles_no_components chain_files). exact chain_files_acyclic.
Defined.


(* ------------------------------------------------------------------------- *)
(** ** The graph of [AssemblyDependencyAnalyzer] *)

(** [set_iter] goes through every set in some order of its elements. *)
Definition iteration_order (set_iter : pyset -> list string) : Prop :=
  forall s, Permutation s (set_iter s).

Lemma iteration_order_In set_iter s x :
  iteration_order set_iter -> (In x (set_iter s) <-> In x s).
Proof.
  intros H. split; intros Hx.
  - eapply Permutation_in; [apply Permutation_sym, H | exact Hx].
  - eapply Permutation_in; [apply H | exact Hx].
Qed.

(** The edges [detect_circular_dependencies] and
    [find_strongly_connected_components] follow: [b] is in the dependency set
    of [a] and is an assembly of the project. *)
Definition assembly_depends (self : AssemblyDependencyAnalyzer.analyzer)
    (a b : string) : Prop :=
  In b (dict_get_default a [] (AssemblyDependencyAnalyzer.dependency_graph self))
  /\ dict_mem b (AssemblyDependencyAnalyzer.assemblies self) = true.

Section AssemblyGraph.

Import AssemblyDependencyAnalyzer.

Lemma add_edge_assemblies a r self : assemblies (add_edge a r self) = assemblies self.
Proof. reflexivity. Qed.

Lemma add_edge_keeps a r self k x :
  In x (dict_get_default k [] (dependency_graph self)) ->
  In x (dict_get_default k [] (dependency_graph (add_edge a r self))).
Proof.
  intros H. simpl. unfold defaultdict_add, dict_get_default at 1.
  destruct (string_dec k a) as [->|Hne].
  - rewrite dict_get_set_eq. apply set_add_In. now right.
  - rewrite dict_get_set_neq by assumption. exact H.
Qed.

Lemma add_edge_adds a r self :
  In r (dict_get_default a [] (dependency_graph (add_edge a r self))).
Proof.
  simpl. unfold defaultdict_add, dict_get_default at 1.
  rewrite dict_get_set_eq. apply set_add_In. now left.
Qed.

Lemma add_references_assemblies a refs : forall self,
  assemblies (add_references a refs self) = assemblies self.
Proof. induction refs as [|r refs IH]; intros self; simpl; [reflexivity | now rewrite IH]. Qed.

Lemma add_references_keeps a refs k x : forall self,
  In x (dict_get_default k [] (dependency_graph self)) ->
  In x (dict_get_default k [] (dependency_graph (add_references a refs self))).
Proof.
  induction refs as [|r refs IH]; intros self H; simpl; [exact H|].
  apply IH. now apply add_edge_keeps.
Qed.

Lemma add_references_adds a refs x : forall self,
  In x refs ->
  In x (dict_get_default a [] (dependency_graph (add_references a refs self))).
Proof.
  induction refs as [|r refs IH]; intros self H; simpl; [destruct H|].
  destruct H as [->|H]; [|now apply IH].
  apply add_references_keeps. apply add_edge_adds.
Qed.

Lemma add_assembly_references_assemblies a refs : forall self,
  assemblies (add_assembly_references a refs self) = assemblies self.
Proof.
  induction refs as [|r refs IH]; intros self; simpl; [reflexivity|].
  destruct (String.prefix "GUID:" r); now rewrite IH.
Qed.

Lemma add_assembly_references_keeps a refs k x : forall self,
  In x (dict_get_default k [] (dependency_graph self)) ->
  In x (dict_get_default k [] (dependency_graph (add_assembly_references a refs self))).
Proof.
  induction refs as [|r refs IH]; intros self H; simpl; [exact H|].
  destruct (String.prefix "GUID:" r); apply IH; [exact H | now apply add_edge_keeps].
Qed.

Lemma build_items_assemblies items : forall self,
  assemblies (build_items items self) = assemblies self.
Proof.
  induction items as [|[a info] items IH]; intros self; simpl; [reflexivity|].
  now rewrite IH, add_assembly_references_assemblies, add_references_assemblies.
Qed.

Lemma build_items_keeps items k x : forall self,
  In x (dict_get_default k [] (dependency_graph self)) ->
  In x (dict_get_default k [] (dependency_graph (build_items items self))).
Proof.
  induction items as [|[a info] items IH]; intros self H; simpl; [exact H|].
  apply IH. apply add_assembly_references_keeps. now apply add_references_keeps.
Qed.

Lemma build_items_adds items a info x : forall self,
  In (a, info) items -> In x (info_references info) ->
  In x (dict_get_default a [] (dependency_graph (build_items items self))).
Proof.
  induction items as [|[a' info'] items IH]; intros self Hin Hx; simpl; [destruct Hin|].
  destruct Hin as [[= -> ->]|Hin]; [|now apply IH].
  apply build_items_keeps. apply add_assembly_references_keeps.
  now apply add_references_adds.
Qed.

(** Every reference of an assembly is in its dependency set. *)
Lemma build_dependency_graph_references self a info x :
  dict_get a (assemblies self) = Some info -> In x (info_references info) ->
  In x (dict_get_default a [] (dependency_graph (build_dependency_graph self))).
Proof.
  intros Hget Hx. unfold build_dependency_graph.
  apply build_items_adds with (info := info); auto. now apply dict_get_In.
Qed.

Lemma build_dependency_graph_assemblies self :
  assemblies (build_dependency_graph self) = assemblies self.
Proof. apply build_items_assemblies. Qed.

(** The file is unreadable or its JSON has the key [name]: the three
    programs then give it the same name. *)
Definition declares_name (f : asmdef_file) : Prop :=
  match content f with
  | Json d => decl_name d <> None
  | Unreadable _ => True
  end.

Lemma declares_name_same f d stem :
  declares_name f -> content f = Json d -> get_name stem d = get_name "" d.
Proof.
  unfold declares_name, get_name. intros H Hc. rewrite Hc in H.
  destruct (decl_name d); [reflexivity | congruence].
Qed.

Lemma load_assembly_definitions_loop files self :
  fst (load_assembly_definitions files self) = fst (load_loop files self).
Proof. reflexivity. Qed.

(** When every file declares its name, the last declaration of every name
    gives the same references to [AssemblyDependencyAnalyzer] and to
    [DependencyAnalyzer]. *)
Lemma load_loop_same files : forall self self',
  Forall declares_name files ->
  (forall k, option_map info_references (dict_get k (assemblies self))
             = dict_get k (DependencyAnalyzer.dependency_graph self')) ->
  forall k,
    option_map info_references
      (dict_get k (assemblies (fst (load_loop files self))))
    = dict_get k (DependencyAnalyzer.dependency_graph
                    (fst (DependencyAnalyzer.load_assemblies files self'))).
Proof.
  induction files as [|f files IH]; intros self self' Hnamed H; simpl; [exact H|].
  inversion Hnamed as [|? ? Hf Hfiles]; subst.
  unfold load_one, DependencyAnalyzer.load_one.
  destruct (content f) as [e|d] eqn:Hc.
  - specialize (IH self self' Hfiles H).
    destruct (load_loop files self).
    destruct (DependencyAnalyzer.load_assemblies files self'). exact IH.
  - rewrite (declares_name_same f d (file_stem f) Hf Hc).
    match goal with
    | |- context [load_loop files ?a] =>
        match goal with
        | |- context [DependencyAnalyzer.load_assemblies files ?s] =>
            specialize (IH a s Hfiles)
        end
    end.
    destruct (load_loop files _).
    destruct (DependencyAnalyzer.load_assemblies files _).
    apply IH. intros k. simpl. destruct (string_dec k (get_name "" d)) as [->|Hne].
    + now rewrite !dict_get_set_eq.
    + rewrite !dict_get_set_neq by assumption. apply H.
Qed.

Lemma load_assembly_definitions_same files self self' :
  Forall declares_name files ->
  (forall k, option_map info_references (dict_get k (assemblies self))
             = dict_get k (DependencyAnalyzer.dependency_graph self')) ->
  forall k,
    option_map info_references
      (dict_get k (assemblies (fst (load_assembly_definitions files self))))
    = dict_get k (DependencyAnalyzer.dependency_graph
                    (fst (DependencyAnalyzer.load_assemblies files self'))).
Proof. exact (load_loop_same files self self'). Qed.

(** When every file declares its name, a forward edge of the graph of
    [DependencyAnalyzer] is an edge of the graph [AssemblyDependencyAnalyzer]
    builds from the same files. *)
Lemma depends_assembly_depends files a b :
  Forall declares_name files ->
  depends (DependencyAnalyzer.dependency_graph
             (fst (DependencyAnalyzer.load_assemblies files DependencyAnalyzer.init))) a b ->
  assembly_depends (load files) a b.
Proof.
  intros Hnamed [Hb Hk]. unfold load.
  pose proof (load_assembly_definitions_same files init DependencyAnalyzer.init Hnamed
                (fun k => eq_refl)) as Hsame.
  set (self0 := fst (load_assembly_definitions files init)) in *.
  set (graph := DependencyAnalyzer.dependency_graph _) in *.
  split.
  - apply dict_get_default_In in Hb. destruct Hb as [refs [Hrefs Hb]].
    rewrite <- Hsame in Hrefs.
    destruct (dict_get a (assemblies self0)) as [info|] eqn:Hinfo; [|discriminate].
    simpl in Hrefs. injection Hrefs as <-.
    now apply build_dependency_graph_references with (info := info).
  - rewrite build_dependency_graph_assemblies. unfold dict_mem in *.
    rewrite <- Hsame in Hk. destruct (dict_get b (assemblies self0)); [reflexivity | discriminate].
Qed.

(** *** Its strongly connected components *)

Variable set_iter : pyset -> list string.
Hypothesis set_iter_order : iteration_order set_iter.
Variable self : analyzer.

Definition assembly_successors (node : string) : list string :=
  set_iter (dict_get_default node [] (dependency_graph self)).

Definition external (neighbor : string) : bool :=
  negb (dict_mem neighbor (assemblies self)).

Lemma edge_assembly_depends a b :
  edge assembly_successors external a b <-> assembly_depends self a b.
Proof.
  unfold edge, assembly_depends, assembly_successors, external.
  rewrite iteration_order_In by assumption. rewrite negb_false_iff. tauto.
Qed.

Lemma reach_assembly_depends a b :
  reach assembly_successors external a b
  <-> clos_refl_trans string (assembly_depends self) a b.
Proof.
  split; apply clos_refl_trans_mono; intros x y; apply edge_assembly_depends.
Qed.

Lemma assembly_components :
  exists comps,
    find_strongly_connected_components set_iter self = Ok comps
    /\ (forall comp, In comp comps ->
          2 <= length comp /\ NoDup comp
          /\ forall x y, In x comp -> In y comp ->
               clos_refl_trans string (assembly_depends self) x y)
    /\ NoDup (concat comps)
    /\ (forall x y, dict_mem x (assemblies self) = true ->
          clos_refl_trans string (assembly_depends self) x y ->
          clos_refl_trans string (assembly_depends self) y x -> x <> y ->
          exists comp, In comp comps /\ In x comp /\ In y comp).
Proof.
  unfold find_strongly_connected_components.
  destruct (run_correct assembly_successors external (dict_keys (assemblies self)))
    with (m := length (assemblies self)) (roots := dict_keys (assemblies self))
    as [comps [E [Hs [Hd Hc]]]].
  - intros a b [_ Hb]. apply dict_mem_true. unfold external in Hb.
    now apply negb_false_iff in Hb.
  - unfold dict_keys. rewrite length_map. lia.
  - auto.
  - exists comps. split; [exact E|]. split; [|split; [exact Hd|]].
    + intros comp Hcomp. destruct (Hs comp Hcomp) as [H1 [H2 H3]].
      split; [exact H1|]. split; [exact H2|].
      intros x y Hx Hy. apply reach_assembly_depends. now apply H3.
    + intros x y Hx Hxy Hyx Hne. apply Hc; auto.
      * now apply dict_mem_true.
      * now apply reach_assembly_depends.
      * now apply reach_assembly_depends.
Qed.

End AssemblyGraph.


(* ------------------------------------------------------------------------- *)
(** ** Well-formed cycles *)

(** Every two consecutive elements of [l] are related by [R]. *)
Fixpoint chain (R : string -> string -> Prop) (l : list string) : Prop :=
  match l with
  | a :: ((b :: _) as rest) => R a b /\ chain R rest
  | _ => True
  end.

(** [c] is [[m0; m1; ...; mk; m0]] and every consecutive pair is an edge. *)
Definition well_formed_cycle (R : string -> string -> Prop) (c : list string) : Prop :=
  (exists m ms, c = m :: ms ++ [m]) /\ chain R c.

Lemma chain_app_r R l1 l2 : chain R (l1 ++ l2) -> chain R l2.
Proof.
  induction l1 as [|a l1 IH]; simpl; [auto|].
  destruct (l1 ++ l2) eqn:E; intros H.
  - destruct l1; [simpl in E; subst; exact I | discriminate].
  - apply IH. apply H.
Qed.

Lemma chain_snoc R l a b : chain R (l ++ [a]) -> R a b -> chain R ((l ++ [a]) ++ [b]).
Proof.
  intros H Hab. induction l as [|x l IH]; simpl in *; [auto|].
  destruct (l ++ [a]) eqn:E; [destruct l; discriminate|].
  simpl. split; [apply H|]. apply IH. apply H.
Qed.

Lemma chain_mono (R R' : string -> string -> Prop) l :
  (forall a b, R a b -> R' a b) -> chain R l -> chain R' l.
Proof.
  intros H. induction l as [|a l IH]; simpl; [auto|].
  destruct l; [auto|]. intros [H1 H2]. split; auto.
Qed.

Lemma chain_reach_first R a l :
  chain R (a :: l) -> forall x, In x (a :: l) -> clos_refl_trans string R a x.
Proof.
  revert a. induction l as [|b l IH]; intros a H x Hx.
  - destruct Hx as [<-|[]]. apply rt_refl.
  - destruct H as [Hab H]. destruct Hx as [<-|Hx]; [apply rt_refl|].
    eapply rt_trans; [apply rt_step; exact Hab | now apply IH].
Qed.

Lemma chain_reach_last R l z :
  chain R (l ++ [z]) -> forall x, In x (l ++ [z]) -> clos_refl_trans string R x z.
Proof.
  induction l as [|a l IH]; intros H x Hx.
  - destruct Hx as [<-|[]]. apply rt_refl.
  - destruct Hx as [<-|Hx].
    + apply chain_reach_first with (l := l ++ [z]); [exact H|].
      right. apply in_or_app. right. now left.
    + apply IH; [|exact Hx]. apply (chain_app_r R [a]). exact H.
Qed.

(** The members of a well-formed cycle reach each other. *)
Lemma well_formed_cycle_reach R c x y :
  well_formed_cycle R c -> In x c -> In y c -> clos_refl_trans string R x y.
Proof.
  intros [[m [ms ->]] Hc] Hx Hy.
  apply rt_trans with (y := m).
  - apply (chain_reach_last R (m :: ms) m); assumption.
  - apply (chain_reach_first R m (ms ++ [m])); assumption.
Qed.

Lemma skipn_index_cycle x l i :
  list_index x l = Ok i -> exists l1 l2, l = l1 ++ x :: l2 /\ skipn i l = x :: l2.
Proof.
  intros H. destruct (list_index_Ok _ _ _ H) as [l1 [l2 [-> [Hlen _]]]].
  exists l1, l2. split; [reflexivity|]. subst i.
  rewrite skipn_app, Nat.sub_diag, skipn_all. reflexivity.
Qed.

(* ------------------------------------------------------------------------- *)
(** ** [AssemblyDependencyAnalyzer.detect_circular_dependencies] *)

Section DetectCircularDependencies.

Import AssemblyDependencyAnalyzer.

Variable set_iter : pyset -> list string.
Hypothesis set_iter_order : iteration_order set_iter.
Variable self : analyzer.

(** [rec_stack] holds the names on [path]. *)
Definition path_synced (path : list string) (st : dfs_state) : Prop :=
  forall x, In x (rec_stack st) <-> In x path.

Record detect_post (node : string) (st st' : dfs_state) : Prop := {
  dp_rec_stack : rec_stack st' = rec_stack st;
  dp_visited : incl (visited st) (visited st');
  dp_node : In node (visited st') \/ In node (rec_stack st);
  dp_cycles : exists extra,
      cycles st' = cycles st ++ extra
      /\ Forall (well_formed_cycle (assembly_depends self)) extra
}.

Definition detect_returns (m : nat)
    (rec : string -> list string -> dfs_state -> result dfs_state) : Prop :=
  forall node path st,
    dict_mem node (assemblies self) = true ->
    path_synced path st -> chain (assembly_depends self) (path ++ [node]) ->
    length (unmarked (dict_keys (assemblies self)) (visited st)) <= m ->
    exists st', rec node path st = Ok st' /\ detect_post node st st'.

(** What the loop over the neighbors of a node does. *)
Record neighbors_post (st st' : dfs_state) : Prop := {
  np_rec_stack : rec_stack st' = rec_stack st;
  np_visited : incl (visited st) (visited st');
  np_cycles : exists extra,
      cycles st' = cycles st ++ extra
      /\ Forall (well_formed_cycle (assembly_depends self)) extra
}.

Lemma detect_neighbors_returns m rec :
  detect_returns m rec ->
  forall neighbors path st,
    path_synced path st ->
    (forall n, In n neighbors -> dict_mem n (assemblies self) = true ->
               chain (assembly_depends self) (path ++ [n])) ->
    length (unmarked (dict_keys (assemblies self)) (visited st)) <= m ->
    exists st', dfs_neighbors rec self neighbors path st = Ok st'
                /\ neighbors_post st st'.
Proof.
  intros Hrec. induction neighbors as [|n ns IH]; intros path st Hs Hc Hm; simpl.
  - exists st. split; [reflexivity|]. constructor; auto using incl_refl.
    exists []. rewrite app_nil_r. auto.
  - assert (Hc' : forall n', In n' ns -> dict_mem n' (assemblies self) = true ->
                             chain (assembly_depends self) (path ++ [n']))
      by (intros; apply Hc; auto; now right).
    destruct (dict_mem n (assemblies self)) eqn:Hn; [|now apply IH].
    destruct (Hrec n path st Hn Hs (Hc n (or_introl eq_refl) Hn) Hm) as [st1 [E1 P1]].
    rewrite E1. cbn [bind].
    destruct (IH path st1) as [st2 [E2 P2]]; auto.
    + intros x. rewrite (dp_rec_stack _ _ _ P1). apply Hs.
    + pose proof (unmarked_le (dict_keys (assemblies self)) _ _ (dp_visited _ _ _ P1)). lia.
    + exists st2. split; [exact E2|]. constructor.
      * rewrite (np_rec_stack _ _ P2). apply (dp_rec_stack _ _ _ P1).
      * eapply incl_tran; [apply (dp_visited _ _ _ P1) | apply (np_visited _ _ P2)].
      * destruct (dp_cycles _ _ _ P1) as [e1 [C1 F1]].
        destruct (np_cycles _ _ P2) as [e2 [C2 F2]].
        exists (e1 ++ e2). split; [rewrite C2, C1; now rewrite app_assoc|].
        apply Forall_app. auto.
Qed.

Lemma detect_returns_fuel m : detect_returns m (dfs set_iter (S m) self).
Proof.
  induction m as [|m IH]; intros node path st Hk Hs Hc Hm.
  - cbn [dfs]. destruct (set_mem node (rec_stack st)) eqn:Hr.
    + apply set_mem_true in Hr.
      destruct (list_index_In node path) as [i [Hi _]]; [now apply Hs|].
      rewrite Hi. cbn [bind]. eexists. split; [reflexivity|].
      constructor; simpl; auto using incl_refl.
      eexists. split; [reflexivity|]. constructor; [|constructor].
      destruct (skipn_index_cycle _ _ _ Hi) as [l1 [l2 [Hp Hsk]]]. rewrite Hsk.
      split; [now exists node, l2|].
      rewrite Hp in Hc. rewrite <- app_assoc in Hc. simpl in Hc.
      apply chain_app_r in Hc. exact Hc.
    + destruct (set_mem node (visited st)) eqn:Hv.
      * exists st. split; [reflexivity|]. apply set_mem_true in Hv.
        constructor; auto using incl_refl. exists []. rewrite app_nil_r. auto.
      * exfalso. apply set_mem_false in Hv. apply dict_mem_true in Hk.
        assert (In node (unmarked (dict_keys (assemblies self)) (visited st))).
        { apply filter_In. split; [assumption|]. apply negb_true_iff. now apply set_mem_false. }
        destruct (unmarked (dict_keys (assemblies self)) (visited st)); simpl in *; [tauto | lia].
  - change (dfs set_iter (S (S m)) self node path st) with
      (if set_mem node (rec_stack st) then
         cycle_start <- list_index node path ;;
         Ok {| visited := visited st; rec_stack := rec_stack st;
               cycles := cycles st ++ [skipn cycle_start path ++ [node]] |}
       else if set_mem node (visited st) then Ok st
       else
         st2 <- dfs_neighbors (dfs set_iter (S m) self) self
                  (set_iter (dict_get_default node [] (dependency_graph self)))
                  (path ++ [node])
                  {| visited := set_add node (visited st);
                     rec_stack := set_add node (rec_stack st);
                     cycles := cycles st |} ;;
         rs <- set_remove node (rec_stack st2) ;;
         Ok {| visited := visited st2; rec_stack := rs; cycles := cycles st2 |}).
    destruct (set_mem node (rec_stack st)) eqn:Hr.
    + apply set_mem_true in Hr.
      destruct (list_index_In node path) as [i [Hi _]]; [now apply Hs|].
      rewrite Hi. cbn [bind]. eexists. split; [reflexivity|].
      constructor; simpl; auto using incl_refl.
      eexists. split; [reflexivity|]. constructor; [|constructor].
      destruct (skipn_index_cycle _ _ _ Hi) as [l1 [l2 [Hp Hsk]]]. rewrite Hsk.
      split; [now exists node, l2|].
      rewrite Hp in Hc. rewrite <- app_assoc in Hc. simpl in Hc.
      apply chain_app_r in Hc. exact Hc.
    + destruct (set_mem node (visited st)) eqn:Hv.
      * exists st. split; [reflexivity|]. apply set_mem_true in Hv.
        constructor; auto using incl_refl. exists []. rewrite app_nil_r. auto.
      * apply set_mem_false in Hr, Hv.
        set (st1 := {| visited := set_add node (visited st);
                       rec_stack := set_add node (rec_stack st);
                       cycles := cycles st |}).
        destruct (detect_neighbors_returns m _ IH
                    (set_iter (dict_get_default node [] (dependency_graph self)))
                    (path ++ [node]) st1) as [st2 [E2 P2]].
        { intros x. simpl. rewrite set_add_In, in_app_iff. simpl.
          rewrite (Hs x). intuition. }
        { intros n Hn Hnk. apply chain_snoc; [exact Hc|].
          split; [|exact Hnk].
          exact (proj1 (iteration_order_In set_iter _ _ set_iter_order) Hn). }
        { assert (length (unmarked (dict_keys (assemblies self)) (visited st1))
                  < length (unmarked (dict_keys (assemblies self)) (visited st))); [|lia].
          apply unmarked_lt with (k := node); auto.
          - intros x Hx. apply set_add_In. now right.
          - now apply dict_mem_true.
          - apply set_add_In. now left. }
        rewrite E2. cbn [bind].
        rewrite (np_rec_stack _ _ P2). simpl.
        rewrite (set_add_fresh _ _ Hr), (set_remove_last _ _ Hr). cbn [bind].
        eexists. split; [reflexivity|]. constructor; simpl.
        -- reflexivity.
        -- intros x Hx. apply (np_visited _ _ P2). simpl. apply set_add_In. now right.
        -- left. apply (np_visited _ _ P2). simpl. apply set_add_In. now left.
        -- apply (np_cycles _ _ P2).
Qed.

Lemma detect_loop_returns todo : forall st,
  (forall k, In k todo -> dict_mem k (assemblies self) = true) ->
  rec_stack st = [] ->
  exists st',
    detect_loop set_iter (S (length (assemblies self))) self todo st = Ok st'
    /\ rec_stack st' = []
    /\ incl (visited st) (visited st')
    /\ (forall k, In k todo -> In k (visited st'))
    /\ exists extra,
         cycles st' = cycles st ++ extra
         /\ Forall (well_formed_cycle (assembly_depends self)) extra.
Proof.
  induction todo as [|a todo IH]; intros st Hk Hr; cbn [detect_loop].
  - exists st. split; [reflexivity|]. split; [exact Hr|]. split; [apply incl_refl|].
    split; [intros k []|]. exists []. rewrite app_nil_r. auto.
  - assert (Hk' : forall k, In k todo -> dict_mem k (assemblies self) = true)
      by (intros; apply Hk; now right).
    destruct (set_mem a (visited st)) eqn:Ha.
    + destruct (IH st Hk' Hr) as [st' [E [R' [V [A C]]]]].
      exists st'. split; [exact E|]. split; [exact R'|]. split; [exact V|]. split; [|exact C].
      intros k [<-|Hin]; [|auto]. apply V. now apply set_mem_true.
    + destruct (detect_returns_fuel (length (assemblies self)) a [] st) as [st1 [E1 P1]].
      * apply Hk. now left.
      * intros x. rewrite Hr. simpl. tauto.
      * exact I.
      * pose proof (unmarked_length (dict_keys (assemblies self)) (visited st)).
        unfold dict_keys in *. rewrite length_map in *. lia.
      * rewrite E1. cbn [bind].
        destruct (IH st1 Hk') as [st' [E [R' [V [A C]]]]].
        { rewrite (dp_rec_stack _ _ _ P1). exact Hr. }
        exists st'. split; [exact E|]. split; [exact R'|]. split; [|split].
        -- eapply incl_tran; [apply (dp_visited _ _ _ P1) | exact V].
        -- intros k [<-|Hin]; [|auto]. apply V.
           destruct (dp_node _ _ _ P1) as [H|H]; [exact H|]. rewrite Hr in H. destruct H.
        -- destruct (dp_cycles _ _ _ P1) as [e1 [C1 F1]]. destruct C as [e2 [C2 F2]].
           exists (e1 ++ e2). split; [rewrite C2, C1; now rewrite app_assoc|].
           apply Forall_app. auto.
Qed.

(** [detect_circular_dependencies] returns, and every cycle it returns is
    well formed. *)
Lemma detect_circular_dependencies_well_formed :
  exists cycles,
    detect_circular_dependencies set_iter self = Ok cycles
    /\ Forall (well_formed_cycle (assembly_depends self)) cycles.
Proof.
  unfold detect_circular_dependencies.
  destruct (detect_loop_returns (dict_keys (assemblies self))
              {| visited := []; rec_stack := []; cycles := [] |})
    as [st' [E [_ [_ [_ [extra [C F]]]]]]].
  - intros k Hk. now apply dict_mem_true.
  - reflexivity.
  - rewrite E. cbn [bind]. exists (cycles st'). split; [reflexivity|].
    rewrite C. exact F.
Qed.

(** *** A module that depends on itself *)

Section SelfLoop.

Variable X : string.
Hypothesis X_self : assembly_depends self X X.

Definition emitted (st : dfs_state) : Prop := In [X; X] (cycles st).

Definition self_ok (st : dfs_state) : Prop := In X (visited st) -> emitted st.

Record selfloop_spec (rec : string -> list string -> dfs_state -> result dfs_state)
  : Prop := {
  sl_frame : forall node path st st',
      rec node path st = Ok st' -> path_synced path st ->
      rec_stack st' = rec_stack st
      /\ (exists extra, cycles st' = cycles st ++ extra)
      /\ (self_ok st -> self_ok st');
  sl_emit : forall p st st',
      rec X (p ++ [X]) st = Ok st' -> ~ In X p -> In X (rec_stack st) -> emitted st'
}.

Lemma emitted_ext st st' :
  (exists extra, cycles st' = cycles st ++ extra) -> emitted st -> emitted st'.
Proof.
  intros [extra E] H. unfold emitted. rewrite E. apply in_or_app. now left.
Qed.

Lemma dfs_neighbors_frame rec :
  selfloop_spec rec ->
  forall neighbors path st st',
    dfs_neighbors rec self neighbors path st = Ok st' -> path_synced path st ->
    rec_stack st' = rec_stack st
    /\ (exists extra, cycles st' = cycles st ++ extra)
    /\ (self_ok st -> self_ok st').
Proof.
  intros Hrec. induction neighbors as [|n ns IH]; intros path st st' E Hs; simpl in E.
  - injection E as <-. split; [reflexivity|]. split; [|auto].
    exists []. now rewrite app_nil_r.
  - destruct (dict_mem n (assemblies self)); [|exact (IH path st st' E Hs)].
    apply bind_Ok in E. destruct E as [st1 [E1 E]].
    destruct (sl_frame _ Hrec n path st st1 E1 Hs) as [R1 [[e1 C1] J1]].
    destruct (IH path st1 st' E) as [R2 [[e2 C2] J2]].
    { intros x. rewrite R1. apply Hs. }
    split; [congruence|]. split; [|auto].
    exists (e1 ++ e2). rewrite C2, C1. now rewrite app_assoc.
Qed.

(** The loop over the neighbors of [X] itself. *)
Lemma dfs_neighbors_emits rec :
  selfloop_spec rec ->
  forall neighbors p st st',
    dfs_neighbors rec self neighbors (p ++ [X]) st = Ok st' ->
    path_synced (p ++ [X]) st -> ~ In X p ->
    In X neighbors \/ emitted st ->
    emitted st'.
Proof.
  intros Hrec. induction neighbors as [|n ns IH]; intros p st st' E Hs Hp Hx; simpl in E.
  - injection E as <-. destruct Hx as [[]|Hx]. exact Hx.
  - destruct (dict_mem n (assemblies self)) eqn:Hn.
    + apply bind_Ok in E. destruct E as [st1 [E1 E]].
      destruct (sl_frame _ Hrec n _ st st1 E1 Hs) as [R1 [C1 _]].
      apply (IH p st1 st' E); auto.
      { intros x. rewrite R1. apply Hs. }
      destruct Hx as [[->|Hx]|Hx].
      * right. apply (sl_emit _ Hrec p st st1 E1 Hp).
        apply Hs. apply in_or_app. right. now left.
      * now left.
      * right. eapply emitted_ext; eauto.
    + apply (IH p st st' E Hs Hp). destruct Hx as [[->|Hx]|Hx]; auto.
      destruct X_self as [_ Hk]. congruence.
Qed.

Lemma dfs_selfloop fuel : selfloop_spec (dfs set_iter fuel self).
Proof.
  induction fuel as [|fuel IH]; [constructor; discriminate|].
  constructor.
  - intros node path st st' E Hs. cbn [dfs] in E.
    destruct (set_mem node (rec_stack st)) eqn:Hr.
    + apply bind_Ok in E. destruct E as [i [_ E]]. injection E as <-. simpl.
      split; [reflexivity|]. split; [eauto|].
      intros J Hx. apply in_or_app. left. now apply J.
    + destruct (set_mem node (visited st)) eqn:Hv.
      * injection E as <-. split; [reflexivity|]. split; [|auto].
        exists []. now rewrite app_nil_r.
      * apply set_mem_false in Hr, Hv.
        apply bind_Ok in E. destruct E as [st2 [E2 E]].
        apply bind_Ok in E. destruct E as [rs [Ers E]]. injection E as <-. simpl.
        assert (Hs1 : path_synced (path ++ [node])
                        {| visited := set_add node (visited st);
                           rec_stack := set_add node (rec_stack st);
                           cycles := cycles st |}).
        { intros x. simpl. rewrite set_add_In, in_app_iff. simpl.
          rewrite (Hs x). intuition. }
        destruct (dfs_neighbors_frame _ IH _ _ _ _ E2 Hs1) as [R2 [C2 J2]].
        simpl in R2, C2, J2.
        rewrite R2, (set_add_fresh _ _ Hr), (set_remove_last _ _ Hr) in Ers.
        injection Ers as <-.
        split; [reflexivity|]. split; [exact C2|].
        intros J. unfold self_ok. simpl.
        destruct (string_dec node X) as [->|Hne].
        -- intros _. apply (dfs_neighbors_emits _ IH _ _ _ _ E2 Hs1).
           ++ intros Hin. apply Hr. now apply Hs.
           ++ left. apply (iteration_order_In set_iter _ _ set_iter_order).
              apply X_self.
        -- apply J2. intros Hx. simpl in Hx. apply set_add_In in Hx.
           destruct Hx as [Hx|Hx]; [congruence|]. now apply J.
  - intros p st st' E Hp Hin. cbn [dfs] in E.
    apply set_mem_true in Hin. rewrite Hin in E.
    rewrite (list_index_fresh _ _ Hp) in E. cbn [bind] in E. injection E as <-.
    unfold emitted. simpl. apply in_or_app. right. left.
    now rewrite skipn_app, Nat.sub_diag, skipn_all.
Qed.

Lemma detect_loop_selfloop fuel todo : forall st st',
  detect_loop set_iter fuel self todo st = Ok st' ->
  rec_stack st = [] -> self_ok st -> self_ok st'.
Proof.
  induction todo as [|a todo IH]; intros st st' E Hr J; cbn [detect_loop] in E.
  - now injection E as <-.
  - destruct (set_mem a (visited st)); [eauto|].
    apply bind_Ok in E. destruct E as [st1 [E1 E]].
    destruct (sl_frame _ (dfs_selfloop fuel) a [] st st1 E1) as [R1 [_ J1]].
    { intros x. rewrite Hr. simpl. tauto. }
    apply (IH st1 st' E); [congruence | auto].
Qed.

(** A module in its own dependency set gives the cycle [[X; X]]. *)
Lemma detect_circular_dependencies_self_loop :
  exists cycles,
    detect_circular_dependencies set_iter self = Ok cycles /\ In [X; X] cycles.
Proof.
  unfold detect_circular_dependencies.
  destruct (detect_loop_returns (dict_keys (assemblies self))
              {| visited := []; rec_stack := []; cycles := [] |})
    as [st' [E [_ [_ [A _]]]]].
  - intros k Hk. now apply dict_mem_true.
  - reflexivity.
  - rewrite E. cbn [bind]. exists (cycles st'). split; [reflexivity|].
    apply (detect_loop_selfloop _ _ _ _ E); [reflexivity | intros [] |].
    apply A. apply dict_mem_true. apply X_self.
Qed.

End SelfLoop.

End DetectCircularDependencies.


(* ------------------------------------------------------------------------- *)
(** ** Cycles and components *)

Lemma reach_target (R : string -> string -> Prop) x y :
  clos_refl_trans string R x y -> x <> y -> exists z, R z y.
Proof.
  intros H Hne. apply clos_rt_rtn1 in H. destruct H as [|z y Hzy _]; [congruence | eauto].
Qed.

(** Exactly one of the components [sccs] holds every module of [c]. *)
Definition in_one_component (sccs : list (list string)) (c : list string) : Prop :=
  exists s, In s sccs /\ (forall n, In n c -> In n s)
            /\ forall s', In s' sccs -> (forall n, In n c -> In n s') -> s' = s.

(** Some module of [c] lies on a cycle through another module. *)
Definition on_larger_cycle (R : string -> string -> Prop) (c : list string) : Prop :=
  exists x y, In x c /\ x <> y
              /\ clos_refl_trans string R x y /\ clos_refl_trans string R y x.

Section CycleComponent.

Variable self : AssemblyDependencyAnalyzer.analyzer.
Variable sccs : list (list string).

Hypothesis sccs_sound : forall comp, In comp sccs ->
  2 <= length comp /\ NoDup comp
  /\ forall x y, In x comp -> In y comp ->
       clos_refl_trans string (assembly_depends self) x y.
Hypothesis sccs_disjoint : NoDup (concat sccs).
Hypothesis sccs_complete : forall x y,
  dict_mem x (AssemblyDependencyAnalyzer.assemblies self) = true ->
  clos_refl_trans string (assembly_depends self) x y ->
  clos_refl_trans string (assembly_depends self) y x -> x <> y ->
  exists comp, In comp sccs /\ In x comp /\ In y comp.

(** A well-formed cycle lies in exactly one component when one of its
    modules lies on a cycle through another module, and in none otherwise. *)
Lemma cycle_component_criterion c :
  well_formed_cycle (assembly_depends self) c ->
  (in_one_component sccs c <-> on_larger_cycle (assembly_depends self) c).
Proof.
  intros Hwf.
  assert (Hreach : forall a b, In a c -> In b c ->
                     clos_refl_trans string (assembly_depends self) a b)
    by (intros; eapply well_formed_cycle_reach; eauto).
  split.
  - intros [s [Hs [Hall _]]].
    destruct Hwf as [[m [ms ->]] _].
    assert (Hm : In m s) by (apply Hall; now left).
    destruct (sccs_sound s Hs) as [Hlen [Hnd Hr]].
    assert (Hy : exists y, In y s /\ y <> m).
    { destruct s as [|a [|b s]]; simpl in Hlen; try lia.
      inversion Hnd as [|? ? Hn _]; subst.
      destruct (string_dec a m) as [->|Ha]; [|exists a; simpl; auto].
      exists b. split; [simpl; auto|]. intros ->. apply Hn. now left. }
    destruct Hy as [y [Hy Hne]]. exists m, y.
    split; [now left|]. split; [congruence|]. split; apply Hr; auto.
  - intros [x [y [Hx [Hne [Hxy Hyx]]]]].
    assert (Hknown : dict_mem x (AssemblyDependencyAnalyzer.assemblies self) = true).
    { destruct (reach_target _ y x Hyx) as [z [_ Hz]]; [congruence | exact Hz]. }
    destruct (sccs_complete x y Hknown Hxy Hyx Hne) as [s [Hs [Hxs Hys]]].
    exists s. split; [exact Hs|]. split.
    + intros n Hn. destruct (string_dec n x) as [->|Hnx]; [exact Hxs|].
      destruct (sccs_complete x n Hknown (Hreach x n Hx Hn) (Hreach n x Hn Hx))
        as [s' [Hs' [Hxs' Hns']]]; [congruence|].
      assert (s' = s) by (apply (NoDup_concat_unique sccs s' s x); assumption).
      now subst s'.
    + intros s' Hs' Hall. apply (NoDup_concat_unique sccs s' s x); auto.
Qed.

(** A well-formed cycle through two distinct modules lies in exactly one
    component. *)
Lemma cycle_component_unique c :
  well_formed_cycle (assembly_depends self) c ->
  (exists x y, In x c /\ In y c /\ x <> y) ->
  in_one_component sccs c.
Proof.
  intros Hwf [x [y [Hx [Hy Hne]]]]. apply cycle_component_criterion; [exact Hwf|].
  exists x, y. split; [exact Hx|]. split; [exact Hne|].
  split; eapply well_formed_cycle_reach; eauto.
Qed.

End CycleComponent.

(** Scenario 1 of the specification: [A -> B], [B -> C], [C -> A]. *)
Definition triangle_files : list asmdef_file :=
  files_of [declare "A" ["B"]; declare "B" ["C"]; declare "C" ["A"]].

(** C2 as stated fails on a module that only depends on itself: the cycle
    [[X; X]] is returned and no component contains [X]. *)
Lemma self_loop_cycle_in_no_component :
  let files := files_of [declare "X" ["X"]] in
  DependencyAnalyzer.find_cycles
    (fst (DependencyAnalyzer.load_assemblies files DependencyAnalyzer.init))
  = Ok [["X"; "X"]]
  /\ AssemblyDependencyAnalyzer.find_strongly_connected_components (fun s => s)
       (AssemblyDependencyAnalyzer.load files) = Ok []
  /\ ~ (exists s, In s (@nil (list string)) /\ forall n, In n ["X"; "X"] -> In n s).
Proof.
  split; [reflexivity|]. split; [reflexivity|]. intros [s [[] _]].
Qed.

(* ------------------------------------------------------------------------- *)
(** ** Violations *)

Section Violations.

Import AssemblyDependencyAnalyzer.

Definition no_violations : violations :=
  {| editor_runtime_cycles := [];
     test_production_cycles := [];
     circular_core_dependencies := [];
     missing_dependencies := [] |}.

(** The references of every assembly but the ones to itself. *)
Definition without_self_references (items : list (string * assembly_info))
  : list (string * assembly_info) :=
  map (fun item =>
         (fst item,
          {| info_file_path := info_file_path (snd item);
             info_references :=
               filter (fun dep => negb (String.eqb (fst item) dep))
                      (info_references (snd item));
             info_assembly_references := info_assembly_references (snd item) |}))
      items.

Lemma cycle_with_self self restricted a deps :
  restricted a = true ->
  cycle_with self restricted a (filter (fun dep => negb (String.eqb a dep)) deps)
  = cycle_with self restricted a deps.
Proof.
  intros Hr. induction deps as [|d deps IH]; simpl; [reflexivity|].
  destruct (String.eqb_spec a d) as [<-|Hne]; simpl.
  - rewrite Hr. simpl. rewrite andb_false_r. simpl. exact IH.
  - now rewrite IH.
Qed.

Lemma violations_loop_self self items : forall v,
  violations_loop self (without_self_references items) v = violations_loop self items v.
Proof.
  induction items as [|[a info] items IH]; intros v; simpl; [reflexivity|].
  rewrite IH. f_equal.
  destruct (is_editor a) eqn:He, (is_test a) eqn:Ht; simpl;
    rewrite ?cycle_with_self by assumption; reflexivity.
Qed.

(** The two lists no statement appends to stay empty. *)
Lemma violations_loop_unused self items : forall v,
  circular_core_dependencies (violations_loop self items v) = circular_core_dependencies v
  /\ missing_dependencies (violations_loop self items v) = missing_dependencies v.
Proof.
  induction items as [|[a info] items IH]; intros v; simpl; [auto|].
  match goal with |- context [violations_loop self items ?w] => destruct (IH w) as [H1 H2] end.
  rewrite H1, H2. destruct (is_editor a), (is_test a); simpl; auto.
Qed.

End Violations.


(** C4, as amended.  When a module [X] lists itself as a dependency,
    [detect_circular_dependencies] returns the cycle [[X; X]], and no
    returned component contains [X] unless [X] lies on a cycle through
    another module.  [analyze_dependency_violations] has no self-dependency
    kind: it returns what it returns when no assembly lists itself, and its
    lists [circular_core_dependencies] and [missing_dependencies] are always
    empty. *)
Theorem self_dependency_cycle_without_violation
    (set_iter : pyset -> list string) (files : list asmdef_file) (X : string) :
  iteration_order set_iter ->
  let self := AssemblyDependencyAnalyzer.load files in
  (exists info,
      dict_get X (AssemblyDependencyAnalyzer.assemblies self) = Some info
      /\ In X (AssemblyDependencyAnalyzer.info_references info)) ->
  (exists cycles,
      AssemblyDependencyAnalyzer.detect_circular_dependencies set_iter self = Ok cycles
      /\ In [X; X] cycles)
  /\ (exists sccs,
        AssemblyDependencyAnalyzer.find_strongly_connected_components set_iter self = Ok sccs
        /\ ((forall y, y <> X ->
               ~ (clos_refl_trans string (assembly_depends self) X y
                  /\ clos_refl_trans string (assembly_depends self) y X)) ->
            forall s, In s sccs -> ~ In X s))
  /\ AssemblyDependencyAnalyzer.analyze_dependency_violations self
     = AssemblyDependencyAnalyzer.violations_loop self
         (without_self_references (AssemblyDependencyAnalyzer.assemblies self))
         no_violations
  /\ AssemblyDependencyAnalyzer.circular_core_dependencies
       (AssemblyDependencyAnalyzer.analyze_dependency_violations self) = []
  /\ AssemblyDependencyAnalyzer.missing_dependencies
       (AssemblyDependencyAnalyzer.analyze_dependency_violations self) = [].
Proof.
  intros Horder self [info [Hinfo HX]].
  assert (Hself : assembly_depends self X X).
  { unfold self, AssemblyDependencyAnalyzer.load in *.
    rewrite build_dependency_graph_assemblies in Hinfo. split.
    - now apply build_dependency_graph_references with (info := info).
    - rewrite build_dependency_graph_assemblies. unfold dict_mem. now rewrite Hinfo. }
  split; [now apply detect_circular_dependencies_self_loop|]. split.
  - destruct (assembly_components set_iter Horder self) as [sccs [Es [Hsound _]]].
    exists sccs. split; [exact Es|]. intros Halone s Hs HX'.
    destruct (Hsound s Hs) as [Hlen [Hnd Hr]].
    assert (Hy : exists y, In y s /\ y <> X).
    { destruct s as [|a [|b s]]; simpl in Hlen; try lia.
      inversion Hnd as [|? ? Hn _]; subst.
      destruct (string_dec a X) as [->|Ha]; [|exists a; simpl; auto].
      exists b. split; [simpl; auto|]. intros ->. apply Hn. now left. }
    destruct Hy as [y [Hy Hne]]. apply (Halone y Hne). split; apply Hr; auto.
  - split; [symmetry; apply violations_loop_self|].
    apply (violations_loop_unused self).
Qed.

Lemma self_dependency_cycle_without_violation_witness :
  exists cycles,
    AssemblyDependencyAnalyzer.detect_circular_dependencies (fun s => s)
      (AssemblyDependencyAnalyzer.load (files_of [declare "X" ["X"]])) = Ok cycles
    /\ In ["X"; "X"] cycles.
Proof.
  apply (self_dependency_cycle_without_violation (fun s => s)
           (files_of [declare "X" ["X"]]) "X").
  - intros s. apply Permutation_refl.
  - eexists. split; [reflexivity|]. simpl. auto.
Defined.

(** C4 as stated fails: a module that lists itself gets no violation of any
    kind. *)
Lemma self_dependency_yields_no_violation :
  let self := AssemblyDependencyAnalyzer.load (files_of [declare "X" ["X"]]) in
  AssemblyDependencyAnalyzer.detect_circular_dependencies (fun s => s) self = Ok [["X"; "X"]]
  /\ ~ (exists kind items item,
          In (kind, items)
             (AssemblyDependencyAnalyzer.violations_items
                (AssemblyDependencyAnalyzer.analyze_dependency_violations self))
          /\ In item items).
Proof.
  split; [reflexivity|].
  intros [kind [items [item [Hk Hi]]]]. vm_compute in Hk.
  repeat (destruct Hk as [Hk|Hk]; [injection Hk as <- <-; destruct Hi|]).
  destruct Hk.
Qed.

(* ------------------------------------------------------------------------- *)
(** ** Scenarios 3 and 4 of the specification *)

Section Scenarios.

Import AssemblyDependencyAnalyzer.

Lemma test_production_cycles_loop self items : forall v,
  test_production_cycles (violations_loop self items v)
  = test_production_cycles v
    ++ flat_map (fun item =>
                   if is_test (fst item)
                   then cycle_with self is_test (fst item) (info_references (snd item))
                   else [])
                items.
Proof.
  induction items as [|[a info] items IH]; intros v; simpl.
  - now rewrite app_nil_r.
  - rewrite IH. destruct (is_editor a), (is_test a); simpl;
      rewrite ?app_nil_r, <- ?app_assoc; reflexivity.
Qed.

Lemma is_test_neq a b : is_test a = true -> is_test b = false -> a <> b.
Proof. intros Ha Hb ->. congruence. Qed.

Lemma load_reference files a info x :
  dict_get a (assemblies (load files)) = Some info -> In x (info_references info) ->
  set_mem x (dict_get_default a [] (dependency_graph (load files))) = true.
Proof.
  intros Hget Hx. apply set_mem_true. unfold load in *.
  rewrite build_dependency_graph_assemblies in Hget.
  now apply build_dependency_graph_references with (info := info).
Qed.

End Scenarios.


(** [detect_circular_dependencies] finds nothing in a graph without a
    directed cycle. *)
Lemma detect_circular_dependencies_acyclic set_iter self :
  iteration_order set_iter ->
  (forall x, ~ clos_trans string (assembly_depends self) x x) ->
  AssemblyDependencyAnalyzer.detect_circular_dependencies set_iter self = Ok [].
Proof.
  intros Horder Hacyc.
  destruct (detect_circular_dependencies_well_formed set_iter Horder self)
    as [cycles [E Hwf]].
  rewrite E. f_equal. destruct cycles as [|c cycles]; [reflexivity|]. exfalso.
  inversion Hwf as [|? ? [[m [ms ->]] Hchain] _]; subst.
  apply (Hacyc m).
  destruct (ms ++ [m]) as [|b rest] eqn:Eq; [destruct ms; discriminate|].
  apply step_then_reach with (b := b); [apply Hchain|].
  rewrite <- Eq in Hchain. apply (chain_app_r _ [m]) in Hchain.
  apply (chain_reach_last _ ms m Hchain). rewrite Eq. now left.
Qed.

(** C6 as stated fails: no violation of any kind is reported for the
    undeclared dependency. *)
Lemma dangling_reference_yields_no_violation :
  let self := AssemblyDependencyAnalyzer.load (files_of [declare "A" ["External.Lib"]]) in
  ~ (exists kind items item,
        In (kind, items)
           (AssemblyDependencyAnalyzer.violations_items
              (AssemblyDependencyAnalyzer.analyze_dependency_violations self))
        /\ In item items).
Proof.
  intros self [kind [items [item [Hk Hi]]]]. vm_compute in Hk.
  repeat (destruct Hk as [Hk|Hk]; [injection Hk as <- <-; destruct Hi|]).
  destruct Hk.
Qed.

(* ------------------------------------------------------------------------- *)
(** ** Duplicate declarations *)

(** The declaration of [nm] in the last readable file that declares it,
    for [dependency_analyzer.py] and [analyze_circular_deps.py]: a file
    without the key [name] declares the empty name. *)
Fixpoint last_declaration (files : list asmdef_file) (nm : string) : option declaration :=
  match files with
  | [] => None
  | f :: rest =>
      match last_declaration rest nm with
      | Some d => Some d
      | None =>
          match content f with
          | Json d => if String.eqb (get_name "" d) nm then Some d else None
          | Unreadable _ => None
          end
      end
  end.

(** The same for [assembly_dependency_analyzer.py]: a file without the key
    [name] declares the stem of its file name. *)
Fixpoint last_assembly_declaration (files : list asmdef_file) (nm : string)
  : option declaration :=
  match files with
  | [] => None
  | f :: rest =>
      match last_assembly_declaration rest nm with
      | Some d => Some d
      | None =>
          match content f with
          | Json d => if String.eqb (get_name (file_stem f) d) nm then Some d else None
          | Unreadable _ => None
          end
      end
  end.

(** The lines [build_dependency_graph] prints: one per unreadable file. *)
Definition parse_errors (files : list asmdef_file) : list string :=
  flat_map (fun f =>
              match content f with
              | Unreadable e => ["Error parsing " +++ file_path f +++ ": " +++ e]
              | Json _ => []
              end) files.

(** The lines [load_assembly_definitions] prints: the number of files, then
    one line per file. *)
Definition load_messages (files : list asmdef_file) : list string :=
  ("Found " +++ str_of_nat (length files) +++ " .asmdef files")
  :: map (fun f =>
            match content f with
            | Unreadable e => "Error loading " +++ file_path f +++ ": " +++ e
            | Json d => "Loaded: " +++ get_name (file_stem f) d
            end) files.

Lemma collect_assemblies_last files : forall assemblies nm,
  option_map AnalyzeCircularDeps.references
    (dict_get nm (fst (AnalyzeCircularDeps.collect_assemblies files assemblies)))
  = match last_declaration files nm with
    | Some d => Some (decl_references d)
    | None => option_map AnalyzeCircularDeps.references (dict_get nm assemblies)
    end.
Proof.
  induction files as [|f files IH]; intros assemblies nm; simpl; [reflexivity|].
  unfold AnalyzeCircularDeps.parse_asmdef. destruct (content f) as [e|d].
  - specialize (IH assemblies nm).
    destruct (AnalyzeCircularDeps.collect_assemblies files assemblies). simpl in *.
    rewrite IH. destruct (last_declaration files nm); reflexivity.
  - match goal with
    | |- context [AnalyzeCircularDeps.collect_assemblies files ?a] => specialize (IH a nm)
    end.
    destruct (AnalyzeCircularDeps.collect_assemblies files _). simpl in *.
    rewrite IH. destruct (last_declaration files nm); [reflexivity|].
    destruct (String.eqb_spec (get_name "" d) nm) as [<-|Hne].
    + now rewrite dict_get_set_eq.
    + rewrite dict_get_set_neq by congruence. reflexivity.
Qed.

Lemma collect_assemblies_output files : forall assemblies,
  snd (AnalyzeCircularDeps.collect_assemblies files assemblies) = parse_errors files.
Proof.
  induction files as [|f files IH]; intros assemblies; simpl; [reflexivity|].
  unfold AnalyzeCircularDeps.parse_asmdef. destruct (content f) as [e|d].
  - specialize (IH assemblies).
    destruct (AnalyzeCircularDeps.collect_assemblies files assemblies). simpl in *.
    now rewrite IH.
  - match goal with
    | |- context [AnalyzeCircularDeps.collect_assemblies files ?a] => specialize (IH a)
    end.
    destruct (AnalyzeCircularDeps.collect_assemblies files _). simpl in *.
    now rewrite IH.
Qed.

Lemma load_loop_last files : forall self nm,
  option_map AssemblyDependencyAnalyzer.info_references
    (dict_get nm (AssemblyDependencyAnalyzer.assemblies
                    (fst (AssemblyDependencyAnalyzer.load_loop files self))))
  = match last_assembly_declaration files nm with
    | Some d => Some (decl_references d)
    | None => option_map AssemblyDependencyAnalyzer.info_references
                (dict_get nm (AssemblyDependencyAnalyzer.assemblies self))
    end.
Proof.
  induction files as [|f files IH]; intros self nm; simpl; [reflexivity|].
  unfold AssemblyDependencyAnalyzer.load_one. destruct (content f) as [e|d].
  - specialize (IH self nm).
    destruct (AssemblyDependencyAnalyzer.load_loop files self). simpl in *.
    rewrite IH. destruct (last_assembly_declaration files nm); reflexivity.
  - match goal with
    | |- context [AssemblyDependencyAnalyzer.load_loop files ?a] =>
        specialize (IH a nm)
    end.
    destruct (AssemblyDependencyAnalyzer.load_loop files _). simpl in *.
    rewrite IH. destruct (last_assembly_declaration files nm); [reflexivity|].
    destruct (String.eqb_spec (get_name (file_stem f) d) nm) as [<-|Hne].
    + now rewrite dict_get_set_eq.
    + rewrite dict_get_set_neq by congruence. reflexivity.
Qed.

Lemma load_assembly_definitions_last files self nm :
  option_map AssemblyDependencyAnalyzer.info_references
    (dict_get nm (AssemblyDependencyAnalyzer.assemblies
                    (fst (AssemblyDependencyAnalyzer.load_assembly_definitions files self))))
  = match last_assembly_declaration files nm with
    | Some d => Some (decl_references d)
    | None => option_map AssemblyDependencyAnalyzer.info_references
                (dict_get nm (AssemblyDependencyAnalyzer.assemblies self))
    end.
Proof. exact (load_loop_last files self nm). Qed.

Lemma load_loop_output files : forall self,
  snd (AssemblyDependencyAnalyzer.load_loop files self) = tl (load_messages files).
Proof.
  unfold load_messages. cbn [tl].
  induction files as [|f files IH]; intros self; simpl; [reflexivity|].
  unfold AssemblyDependencyAnalyzer.load_one. destruct (content f) as [e|d].
  - specialize (IH self).
    destruct (AssemblyDependencyAnalyzer.load_loop files self). simpl in *.
    now rewrite IH.
  - match goal with
    | |- context [AssemblyDependencyAnalyzer.load_loop files ?a] =>
        specialize (IH a)
    end.
    destruct (AssemblyDependencyAnalyzer.load_loop files _). simpl in *.
    now rewrite IH.
Qed.

Lemma load_assembly_definitions_output files self :
  snd (AssemblyDependencyAnalyzer.load_assembly_definitions files self)
  = load_messages files.
Proof.
  unfold AssemblyDependencyAnalyzer.load_assembly_definitions. cbn [snd].
  rewrite load_loop_output. reflexivity.
Qed.

(** C7, as amended.  Graph construction never fails on a duplicate name: the
    last declaration of a name replaces the earlier ones.  Nothing records
    the duplicate: [build_dependency_graph] prints one line per unreadable
    file and nothing else; [load_assembly_definitions] prints the number of
    files found and then one line per file, the same for a duplicate as for
    any other file. *)
Theorem duplicate_declarations_last_wins_unrecorded (files : list asmdef_file) :
  (forall nm,
      option_map AnalyzeCircularDeps.references
        (dict_get nm (fst (fst (AnalyzeCircularDeps.build_dependency_graph files))))
      = option_map decl_references (last_declaration files nm))
  /\ snd (AnalyzeCircularDeps.build_dependency_graph files) = parse_errors files
  /\ (forall nm,
        option_map AssemblyDependencyAnalyzer.info_references
          (dict_get nm
             (AssemblyDependencyAnalyzer.assemblies
                (fst (AssemblyDependencyAnalyzer.load_assembly_definitions files
                        AssemblyDependencyAnalyzer.init))))
        = option_map decl_references (last_assembly_declaration files nm))
  /\ snd (AssemblyDependencyAnalyzer.load_assembly_definitions files
            AssemblyDependencyAnalyzer.init)
     = load_messages files.
Proof.
  split; [|split; [|split]].
  - intros nm. unfold AnalyzeCircularDeps.build_dependency_graph.
    pose proof (collect_assemblies_last files [] nm) as H.
    destruct (AnalyzeCircularDeps.collect_assemblies files []). simpl in *.
    rewrite H. destruct (last_declaration files nm); reflexivity.
  - unfold AnalyzeCircularDeps.build_dependency_graph.
    pose proof (collect_assemblies_output files []) as H.
    destruct (AnalyzeCircularDeps.collect_assemblies files []). exact H.
  - intros nm. rewrite load_assembly_definitions_last.
    destruct (last_assembly_declaration files nm); reflexivity.
  - apply load_assembly_definitions_output.
Qed.

Definition core_a : asmdef_file :=
  {| file_path := "Assets/Core/A.asmdef"; relative_path := "Core/A.asmdef";
     file_stem := "A"; content := Json (declare "A" ["B"]) |}.
Definition legacy_a : asmdef_file :=
  {| file_path := "Assets/Legacy/A.asmdef"; relative_path := "Legacy/A.asmdef";
     file_stem := "A"; content := Json (declare "A" ["C"]) |}.

(** C7 as stated fails: two files declare [A] with different references;
    [build_dependency_graph] returns, keeps the last one, prints nothing, and
    its result is the one it gives when the first file does not exist. *)
Lemma duplicate_declaration_silently_overwritten :
  option_map AnalyzeCircularDeps.references
    (dict_get "A" (fst (fst (AnalyzeCircularDeps.build_dependency_graph [core_a; legacy_a]))))
  = Some ["C"]
  /\ snd (AnalyzeCircularDeps.build_dependency_graph [core_a; legacy_a]) = []
  /\ AnalyzeCircularDeps.build_dependency_graph [core_a; legacy_a]
     = AnalyzeCircularDeps.build_dependency_graph [legacy_a].
Proof. repeat split. Qed.


(* ------------------------------------------------------------------------- *)
(** ** Determinism of the passes of [run_analysis] *)

Section SameIteration.

Import AssemblyDependencyAnalyzer.

Variable self : analyzer.
Variables order1 order2 : pyset -> list string.

(** The two orders go through every dependency set of the graph in the same
    way. *)
Hypothesis same_on_graph : forall node,
  order1 (dict_get_default node [] (dependency_graph self))
  = order2 (dict_get_default node [] (dependency_graph self)).

Lemma dfs_neighbors_ext rec1 rec2 :
  (forall n p s, rec1 n p s = rec2 n p s) ->
  forall neighbors path st,
    dfs_neighbors rec1 self neighbors path st = dfs_neighbors rec2 self neighbors path st.
Proof.
  intros H. induction neighbors as [|n ns IH]; intros path st; simpl; [reflexivity|].
  destruct (dict_mem n (assemblies self)); [|apply IH].
  rewrite H. destruct (rec2 n path st); simpl; auto.
Qed.

Lemma dfs_same_iteration fuel : forall node path st,
  dfs order1 fuel self node path st = dfs order2 fuel self node path st.
Proof.
  induction fuel as [|fuel IH]; intros node path st; [reflexivity|].
  cbn [dfs]. rewrite same_on_graph.
  rewrite (dfs_neighbors_ext _ _ IH). reflexivity.
Qed.

Lemma detect_same_iteration :
  detect_circular_dependencies order1 self = detect_circular_dependencies order2 self.
Proof.
  unfold detect_circular_dependencies. f_equal.
  generalize (S (length (assemblies self))) as fuel.
  generalize {| visited := []; rec_stack := []; cycles := [] |} as st.
  induction (dict_keys (assemblies self)) as [|a todo IH]; intros st fuel;
    cbn [detect_loop]; [reflexivity|].
  destruct (set_mem a (visited st)); [apply IH|].
  rewrite (dfs_same_iteration fuel a [] st).
  destruct (dfs order2 fuel self a [] st); simpl; auto.
Qed.

Lemma visit_successors_ext skip rec1 rec2 :
  (forall n s, rec1 n s = rec2 n s) ->
  forall succs node st,
    Tarjan.visit_successors skip rec1 node succs st
    = Tarjan.visit_successors skip rec2 node succs st.
Proof.
  intros H. induction succs as [|s succs IH]; intros node st; simpl; [reflexivity|].
  destruct (skip s); [apply IH|].
  destruct (negb (dict_mem s (Tarjan.index st))).
  - rewrite H. destruct (rec2 s st) as [st1| |]; simpl; auto.
    destruct (dict_lookup node (Tarjan.lowlinks st1)); simpl; auto.
    destruct (dict_lookup s (Tarjan.lowlinks st1)); simpl; auto.
  - destruct (dict_get_default s false (Tarjan.on_stack st)); [|apply IH].
    destruct (dict_lookup node (Tarjan.lowlinks st)); simpl; auto.
    destruct (dict_lookup s (Tarjan.index st)); simpl; auto.
Qed.

Lemma strongconnect_ext succs1 succs2 skip :
  (forall n, succs1 n = succs2 n) ->
  forall fuel node st,
    Tarjan.strongconnect succs1 skip fuel node st
    = Tarjan.strongconnect succs2 skip fuel node st.
Proof.
  intros H. induction fuel as [|fuel IH]; intros node st; [reflexivity|].
  cbn [Tarjan.strongconnect]. rewrite H.
  rewrite (visit_successors_ext skip _ _ IH). reflexivity.
Qed.

Lemma components_same_iteration :
  find_strongly_connected_components order1 self
  = find_strongly_connected_components order2 self.
Proof.
  unfold find_strongly_connected_components, Tarjan.run. f_equal.
  generalize Tarjan.initial as st.
  generalize (S (length (assemblies self))) as fuel.
  induction (dict_keys (assemblies self)) as [|a roots IH]; intros fuel st;
    cbn [Tarjan.visit_roots]; [reflexivity|].
  destruct (negb (dict_mem a (Tarjan.index st))); [|apply IH].
  rewrite (strongconnect_ext _
             (fun node => order2 (dict_get_default node [] (dependency_graph self)))
             _ same_on_graph).
  destruct (Tarjan.strongconnect _ _ _ a st); simpl; auto.
Qed.

Lemma run_passes_same_iteration str_of_list :
  run_passes str_of_list order1 self = run_passes str_of_list order2 self.
Proof.
  unfold run_passes. now rewrite components_same_iteration, detect_same_iteration.
Qed.

End SameIteration.

(** Whatever the iteration order, the components have the same members. *)
Lemma components_same_members self order1 order2 :
  iteration_order order1 -> iteration_order order2 ->
  exists sccs1 sccs2,
    AssemblyDependencyAnalyzer.find_strongly_connected_components order1 self = Ok sccs1
    /\ AssemblyDependencyAnalyzer.find_strongly_connected_components order2 self = Ok sccs2
    /\ forall s1, In s1 sccs1 ->
         exists s2, In s2 sccs2 /\ forall n, In n s1 <-> In n s2.
Proof.
  intros H1 H2.
  destruct (assembly_components order1 H1 self) as [sccs1 [E1 [Hsound1 [Hdisj1 Hcompl1]]]].
  destruct (assembly_components order2 H2 self) as [sccs2 [E2 [Hsound2 [Hdisj2 Hcompl2]]]].
  exists sccs1, sccs2. split; [exact E1|]. split; [exact E2|].
  intros s1 Hs1. destruct (Hsound1 s1 Hs1) as [Hlen [Hnd Hr]].
  destruct s1 as [|x [|y rest]]; simpl in Hlen; try lia.
  assert (Hxy : x <> y).
  { inversion Hnd as [|? ? Hn _]; subst. intros ->. apply Hn. now left. }
  assert (Hx : In x (x :: y :: rest)) by now left.
  assert (Hy : In y (x :: y :: rest)) by (right; now left).
  assert (Hknown : dict_mem x (AssemblyDependencyAnalyzer.assemblies self) = true).
  { destruct (reach_target _ y x (Hr y x Hy Hx)) as [z [_ Hz]]; [congruence | exact Hz]. }
  destruct (Hcompl2 x y Hknown (Hr x y Hx Hy) (Hr y x Hy Hx) Hxy) as [s2 [Hs2 [Hx2 Hy2]]].
  exists s2. split; [exact Hs2|]. intros n. split; intros Hn.
  - destruct (string_dec n x) as [->|Hnx]; [exact Hx2|].
    destruct (Hcompl2 x n Hknown (Hr x n Hx Hn) (Hr n x Hn Hx)) as [s' [Hs' [Hxs' Hns']]];
      [congruence|].
    assert (s' = s2) by (apply (NoDup_concat_unique sccs2 s' s2 x); assumption).
    now subst s'.
  - destruct (string_dec n x) as [->|Hnx]; [exact Hx|].
    destruct (Hsound2 s2 Hs2) as [_ [_ Hr2]].
    destruct (Hcompl1 x n Hknown (Hr2 x n Hx2 Hn) (Hr2 n x Hn Hx2)) as [s' [Hs' [Hxs' Hns']]];
      [congruence|].
    assert (s' = x :: y :: rest)
      by (apply (NoDup_concat_unique sccs1 s' (x :: y :: rest) x); assumption).
    now subst s'.
Qed.

(** C8, as amended.  Two runs of the passes of [run_analysis] on the same
    analyzer that go through every dependency set of its graph in the same
    order give the same result, cycles, components, violations and
    recommendations in the same order.  Between two runs that iterate the
    sets in different orders, the violations are the same and the components
    have the same members. *)
Theorem pipeline_deterministic_for_fixed_set_order
    (str_of_list : list string -> string)
    (self : AssemblyDependencyAnalyzer.analyzer)
    (order1 order2 : pyset -> list string) :
  ((forall node,
       order1 (dict_get_default node [] (AssemblyDependencyAnalyzer.dependency_graph self))
       = order2 (dict_get_default node [] (AssemblyDependencyAnalyzer.dependency_graph self))) ->
   AssemblyDependencyAnalyzer.run_passes str_of_list order1 self
   = AssemblyDependencyAnalyzer.run_passes str_of_list order2 self)
  /\ (iteration_order order1 -> iteration_order order2 ->
      exists r1 r2,
        AssemblyDependencyAnalyzer.run_passes str_of_list order1 self = Ok r1
        /\ AssemblyDependencyAnalyzer.run_passes str_of_list order2 self = Ok r2
        /\ AssemblyDependencyAnalyzer.found_violations r1
           = AssemblyDependencyAnalyzer.found_violations r2
        /\ forall s1, In s1 (AssemblyDependencyAnalyzer.scc_list r1) ->
             exists s2, In s2 (AssemblyDependencyAnalyzer.scc_list r2)
                        /\ forall n, In n s1 <-> In n s2).
Proof.
  split.
  - intros Hsame. now apply run_passes_same_iteration.
  - intros H1 H2.
    destruct (components_same_members self order1 order2 H1 H2)
      as [sccs1 [sccs2 [E1 [E2 Hmem]]]].
    destruct (detect_circular_dependencies_well_formed order1 H1 self) as [c1 [D1 _]].
    destruct (detect_circular_dependencies_well_formed order2 H2 self) as [c2 [D2 _]].
    unfold AssemblyDependencyAnalyzer.run_passes.
    rewrite E1, E2, D1, D2. cbn [bind].
    eexists. eexists. split; [reflexivity|]. split; [reflexivity|].
    split; [reflexivity|]. exact Hmem.
Qed.

Lemma pipeline_deterministic_for_fixed_set_order_witness :
  AssemblyDependencyAnalyzer.run_passes (String.concat ", ") (fun s => s)
    (AssemblyDependencyAnalyzer.load triangle_files)
  = AssemblyDependencyAnalyzer.run_passes (String.concat ", ") (@rev string)
      (AssemblyDependencyAnalyzer.load triangle_files)
  /\ exists r1 r2,
       AssemblyDependencyAnalyzer.run_passes (String.concat ", ") (fun s => s)
         (AssemblyDependencyAnalyzer.load triangle_files) = Ok r1
       /\ AssemblyDependencyAnalyzer.run_passes (String.concat ", ") (@rev string)
            (AssemblyDependencyAnalyzer.load triangle_files) = Ok r2
       /\ AssemblyDependencyAnalyzer.found_violations r1
          = AssemblyDependencyAnalyzer.found_violations r2
       /\ forall s1, In s1 (AssemblyDependencyAnalyzer.scc_list r1) ->
            exists s2, In s2 (AssemblyDependencyAnalyzer.scc_list r2)
                       /\ forall n, In n s1 <-> In n s2.
Proof.
  destruct (pipeline_deterministic_for_fixed_set_order (String.concat ", ")
              (AssemblyDependencyAnalyzer.load triangle_files) (fun s => s) (@rev string))
    as [H1 H2].
  split.
  - apply H1. intros node.
    assert (Hg : AssemblyDependencyAnalyzer.dependency_graph
                   (AssemblyDependencyAnalyzer.load triangle_files)
                 = [("A", ["B"]); ("B", ["C"]); ("C", ["A"])]) by reflexivity.
    rewrite Hg. unfold dict_get_default. simpl.
    destruct (String.eqb node "A"); [reflexivity|].
    destruct (String.eqb node "B"); [reflexivity|].
    destruct (String.eqb node "C"); reflexivity.
  - apply H2.
    + intros s. apply Permutation_refl.
    + intros s. apply Permutation_rev.
Defined.

(** [A] depends on [B] and [C], which both depend on [A]. *)
Definition fork_files : list asmdef_file :=
  files_of [declare "A" ["B"; "C"]; declare "B" ["A"]; declare "C" ["A"]].

(** C8 as stated fails: the dependency set of [A] has two elements, and the
    cycles come out in the order in which it is iterated. *)
Lemma pipeline_output_depends_on_set_iteration :
  iteration_order (fun s => s) /\ iteration_order (@rev string)
  /\ AssemblyDependencyAnalyzer.detect_circular_dependencies (fun s => s)
       (AssemblyDependencyAnalyzer.load fork_files)
     = Ok [["A"; "B"; "A"]; ["A"; "C"; "A"]]
  /\ AssemblyDependencyAnalyzer.detect_circular_dependencies (@rev string)
       (AssemblyDependencyAnalyzer.load fork_files)
     = Ok [["A"; "C"; "A"]; ["A"; "B"; "A"]]
  /\ forall str_of_list,
       AssemblyDependencyAnalyzer.run_passes str_of_list (fun s => s)
         (AssemblyDependencyAnalyzer.load fork_files)
       <> AssemblyDependencyAnalyzer.run_passes str_of_list (@rev string)
            (AssemblyDependencyAnalyzer.load fork_files).
Proof.
  split; [intros s; apply Permutation_refl|].
  split; [intros s; apply Permutation_rev|].
  split; [reflexivity|]. split; [reflexivity|].
  intros str_of_list H.
  apply (f_equal (fun r => match r with
                           | Ok a => Some (AssemblyDependencyAnalyzer.found_cycles a)
                           | _ => None
                           end)) in H.
  vm_compute in H. discriminate.
Qed.


(* ------------------------------------------------------------------------- *)
(** ** [DependencyAnalyzer.find_cycles] after its first cycle

    When [dfs] returns [True] the calls on the recursion path return at once,
    without [rec_stack.remove(node)] and [path.pop()]: their nodes stay in
    [rec_stack] and on [path] for the rest of the outer loop. *)

(** [C -> E, D], [E -> E], [D -> C]. *)
Definition stale_path_files : list asmdef_file :=
  files_of [declare "C" ["E"; "D"]; declare "E" ["E"]; declare "D" ["C"]].

(** C1 on [find_cycles]: the component [{C, D}] is returned by
    [find_strongly_connected_components], and neither of the two cycles
    [find_cycles] returns stays inside it: [E], left on [path] by the first
    outer call, is in the second cycle. *)
Lemma find_cycles_misses_component :
  DependencyAnalyzer.find_cycles
    (fst (DependencyAnalyzer.load_assemblies stale_path_files DependencyAnalyzer.init))
  = Ok [["E"; "E"]; ["C"; "E"; "D"; "C"]]
  /\ AssemblyDependencyAnalyzer.find_strongly_connected_components (fun s => s)
       (AssemblyDependencyAnalyzer.load stale_path_files)
     = Ok [["D"; "C"]]
  /\ ~ (exists c, In c [["E"; "E"]; ["C"; "E"; "D"; "C"]]
                  /\ forall n, In n c -> In n ["D"; "C"]).
Proof.
  split; [reflexivity|]. split; [reflexivity|].
  intros [c [[<-|[<-|[]]] H]].
  - destruct (H "E") as [E|[E|[]]]; [now left | discriminate | discriminate].
  - destruct (H "E") as [E|[E|[]]]; [right; now left | discriminate | discriminate].
Qed.

(** The sibling enumerator on the same files finds [C -> D -> C]. *)
Lemma detect_circular_dependencies_finds_component :
  AssemblyDependencyAnalyzer.detect_circular_dependencies (fun s => s)
    (AssemblyDependencyAnalyzer.load stale_path_files)
  = Ok [["E"; "E"]; ["C"; "D"; "C"]].
Proof. reflexivity. Qed.

(** [A -> B], [B -> A], [C -> A]. *)
Definition stale_stack_files : list asmdef_file :=
  files_of [declare "A" ["B"]; declare "B" ["A"]; declare "C" ["A"]].

(** C3 on [find_cycles]: the second sequence it returns has the consecutive
    pair [B], [C], and [B] does not depend on [C]. *)
Lemma find_cycles_returns_ill_formed_cycle :
  let self := fst (DependencyAnalyzer.load_assemblies stale_stack_files
                     DependencyAnalyzer.init) in
  DependencyAnalyzer.find_cycles self = Ok [["A"; "B"; "A"]; ["A"; "B"; "C"; "A"]]
  /\ ~ depends (DependencyAnalyzer.dependency_graph self) "B" "C"
  /\ ~ well_formed_cycle (depends (DependencyAnalyzer.dependency_graph self))
         ["A"; "B"; "C"; "A"].
Proof.
  split; [reflexivity|].
  assert (H : ~ depends
                (DependencyAnalyzer.dependency_graph
                   (fst (DependencyAnalyzer.load_assemblies stale_stack_files
                           DependencyAnalyzer.init))) "B" "C").
  { intros [Hin _]. vm_compute in Hin. destruct Hin as [E|[]]. discriminate. }
  split; [exact H|]. intros [_ Hchain]. apply H. apply Hchain.
Qed.

(** The sibling enumerator on the same files returns only [A -> B -> A]. *)
Lemma detect_circular_dependencies_on_stale_stack_files :
  AssemblyDependencyAnalyzer.detect_circular_dependencies (fun s => s)
    (AssemblyDependencyAnalyzer.load stale_stack_files)
  = Ok [["A"; "B"; "A"]].
Proof. reflexivity. Qed.


(* ------------------------------------------------------------------------- *)
(** ** [detect_circular_dependencies] finds a cycle inside every component *)

Lemma some_member_dec (S vis : list string) :
  (exists u, In u S /\ In u vis) \/ (forall u, In u S -> ~ In u vis).
Proof.
  induction S as [|a S IH].
  - right. intros u [].
  - destruct (in_dec string_dec a vis) as [Ha|Ha].
    + left. exists a. split; [now left | exact Ha].
    + destruct IH as [[u [Hu Hv]]|IH].
      * left. exists u. split; [now right | exact Hv].
      * right. intros u [<-|Hu]; auto.
Qed.

Lemma reach_last_step (R : string -> string -> Prop) x y :
  clos_refl_trans string R x y -> x <> y ->
  exists z, clos_refl_trans string R x z /\ R z y.
Proof.
  intros H Hne. apply clos_rt_rtn1 in H. destruct H as [|z y Hzy Hxz]; [congruence|].
  exists z. split; [now apply clos_rtn1_rt | exact Hzy].
Qed.

Section DetectComplete.

Import AssemblyDependencyAnalyzer.

Variable set_iter : pyset -> list string.
Hypothesis set_iter_order : iteration_order set_iter.
Variable self : analyzer.

(** A strongly connected component with two or more members. *)
Variable S : list string.
Hypothesis S_reach : forall x y, In x S -> In y S ->
  clos_refl_trans string (assembly_depends self) x y.
Hypothesis S_closed : forall x y, In x S ->
  clos_refl_trans string (assembly_depends self) x y ->
  clos_refl_trans string (assembly_depends self) y x -> In y S.
Hypothesis S_two : exists x y, In x S /\ In y S /\ x <> y.

(** A cycle inside the component has been recorded. *)
Definition inside (st : dfs_state) : Prop :=
  exists c, In c (cycles st) /\ incl c S.

(** No member of the component has been visited. *)
Definition untouched (st : dfs_state) : Prop :=
  forall u, In u S -> ~ In u (visited st).

(** Every edge from a visited node that is not on the recursion stack leads
    to a visited node. *)
Definition explored (st : dfs_state) : Prop :=
  forall u w, In u (visited st) -> ~ In u (rec_stack st) ->
              assembly_depends self u w -> In w (visited st).

Lemma inside_ext st st' :
  (exists extra, cycles st' = cycles st ++ extra) -> inside st -> inside st'.
Proof.
  intros [extra E] [c [Hc Hi]]. exists c. split; [|exact Hi].
  rewrite E. apply in_or_app. now left.
Qed.

Lemma S_known x : In x S -> dict_mem x (assemblies self) = true.
Proof.
  intros Hx. destruct S_two as [a [b [Ha [Hb Hne]]]].
  destruct (string_dec a x) as [->|Hax].
  - destruct (reach_target _ b x (S_reach b x Hb Hx)) as [z [_ Hz]]; [congruence | exact Hz].
  - destruct (reach_target _ a x (S_reach a x Ha Hx)) as [z [_ Hz]]; [assumption | exact Hz].
Qed.

(** Once a member is visited and off the stack, with no member on the stack,
    every member is visited. *)
Lemma explored_component st a :
  explored st -> (forall x, In x S -> ~ In x (rec_stack st)) ->
  In a S -> In a (visited st) ->
  forall y, In y S -> In y (visited st).
Proof.
  intros Hex Hstack Ha Hva y Hy.
  pose proof (S_reach a y Ha Hy) as Hr. apply clos_rt_rt1n in Hr.
  induction Hr as [a|a b y Hab Hby IH]; [exact Hva|].
  assert (Hb : In b S).
  { apply (S_closed a b Ha); [now apply rt_step|].
    eapply rt_trans; [apply clos_rt1n_rt; exact Hby | now apply S_reach]. }
  apply IH; auto. apply (Hex a b); auto.
Qed.

Record complete_post (node : string) (st st' : dfs_state) : Prop := {
  cp_rec_stack : rec_stack st' = rec_stack st;
  cp_visited : incl (visited st) (visited st');
  cp_node : In node (visited st');
  cp_cycles : exists extra, cycles st' = cycles st ++ extra;
  cp_explored : explored st';
  cp_back : forall u w, In u S -> In w S ->
      ~ In u (visited st) -> In u (visited st') ->
      assembly_depends self u w -> In w (rec_stack st) -> inside st';
  cp_first : untouched st -> (exists u, In u S /\ In u (visited st')) -> inside st';
  cp_emit : In node (rec_stack st) -> In node S -> inside st'
}.

Definition complete_spec
    (rec : string -> list string -> dfs_state -> result dfs_state) : Prop :=
  forall node path st st',
    rec node path st = Ok st' ->
    path_synced path st -> chain (assembly_depends self) (path ++ [node]) ->
    incl (rec_stack st) (visited st) -> explored st ->
    complete_post node st st'.

Record complete_loop_post (neighbors : list string) (st st' : dfs_state) : Prop := {
  cl_rec_stack : rec_stack st' = rec_stack st;
  cl_visited : incl (visited st) (visited st');
  cl_cycles : exists extra, cycles st' = cycles st ++ extra;
  cl_explored : explored st';
  cl_all : forall w, In w neighbors -> dict_mem w (assemblies self) = true ->
      In w (visited st');
  cl_back : forall u w, In u S -> In w S ->
      ~ In u (visited st) -> In u (visited st') ->
      assembly_depends self u w -> In w (rec_stack st) -> inside st';
  cl_first : untouched st -> (exists u, In u S /\ In u (visited st')) -> inside st';
  cl_emit : forall w, In w neighbors -> dict_mem w (assemblies self) = true ->
      In w S -> In w (rec_stack st) -> inside st'
}.

Lemma dfs_neighbors_complete rec :
  complete_spec rec ->
  forall neighbors path st st',
    dfs_neighbors rec self neighbors path st = Ok st' ->
    path_synced path st ->
    (forall n, In n neighbors -> dict_mem n (assemblies self) = true ->
               chain (assembly_depends self) (path ++ [n])) ->
    incl (rec_stack st) (visited st) -> explored st ->
    complete_loop_post neighbors st st'.
Proof.
  intros Hrec. induction neighbors as [|n ns IH]; intros path st st' E Hs Hc Hrv Hex;
    simpl in E.
  - injection E as <-. constructor; auto using incl_refl.
    + exists []. now rewrite app_nil_r.
    + intros w [].
    + intros u w _ _ Hn Hv. contradiction.
    + intros Hu [u [HuS Hv]]. exfalso. now apply (Hu u).
    + intros w [].
  - assert (Hc' : forall n', In n' ns -> dict_mem n' (assemblies self) = true ->
                             chain (assembly_depends self) (path ++ [n']))
      by (intros; apply Hc; auto; now right).
    destruct (dict_mem n (assemblies self)) eqn:Hn.
    + apply bind_Ok in E. destruct E as [st1 [E1 E]].
      pose proof (Hrec n path st st1 E1 Hs (Hc n (or_introl eq_refl) Hn) Hrv Hex) as P1.
      assert (Hs1 : path_synced path st1).
      { intros x. rewrite (cp_rec_stack _ _ _ P1). apply Hs. }
      assert (Hrv1 : incl (rec_stack st1) (visited st1)).
      { rewrite (cp_rec_stack _ _ _ P1). eapply incl_tran; [exact Hrv|].
        apply (cp_visited _ _ _ P1). }
      pose proof (IH path st1 st' E Hs1 Hc' Hrv1 (cp_explored _ _ _ P1)) as P2.
      constructor.
      * rewrite (cl_rec_stack _ _ _ P2). apply (cp_rec_stack _ _ _ P1).
      * eapply incl_tran; [apply (cp_visited _ _ _ P1) | apply (cl_visited _ _ _ P2)].
      * destruct (cp_cycles _ _ _ P1) as [e1 C1]. destruct (cl_cycles _ _ _ P2) as [e2 C2].
        exists (e1 ++ e2). rewrite C2, C1. now rewrite app_assoc.
      * apply (cl_explored _ _ _ P2).
      * intros w [<-|Hw] Hk.
        -- apply (cl_visited _ _ _ P2). apply (cp_node _ _ _ P1).
        -- now apply (cl_all _ _ _ P2).
      * intros u w Hu Hw Hnv Hv Huw Hst.
        destruct (in_dec string_dec u (visited st1)) as [Hv1|Hv1].
        -- apply (inside_ext st1 st' (cl_cycles _ _ _ P2)).
           apply (cp_back _ _ _ P1 u w); auto.
        -- apply (cl_back _ _ _ P2 u w); auto.
           now rewrite (cp_rec_stack _ _ _ P1).
      * intros Hun Hsome.
        destruct (some_member_dec S (visited st1)) as [Hsome1|Hnone1].
        -- apply (inside_ext st1 st' (cl_cycles _ _ _ P2)).
           apply (cp_first _ _ _ P1); auto.
        -- apply (cl_first _ _ _ P2); auto.
      * intros w [<-|Hw] Hk HwS Hst.
        -- apply (inside_ext st1 st' (cl_cycles _ _ _ P2)).
           apply (cp_emit _ _ _ P1); auto.
        -- apply (cl_emit _ _ _ P2 w); auto.
           now rewrite (cp_rec_stack _ _ _ P1).
    + pose proof (IH path st st' E Hs Hc' Hrv Hex) as P2.
      constructor; try apply P2.
      * intros w [<-|Hw] Hk; [congruence|]. now apply (cl_all _ _ _ P2).
      * intros w [<-|Hw] Hk; [congruence|]. now apply (cl_emit _ _ _ P2).
Qed.

(** The cycle [dfs] records when it meets a member of the component on the
    recursion stack stays inside the component. *)
Lemma emitted_cycle_inside node path i :
  In node S -> list_index node path = Ok i ->
  chain (assembly_depends self) (path ++ [node]) ->
  incl (skipn i path ++ [node]) S.
Proof.
  intros HS Hi Hc.
  destruct (skipn_index_cycle _ _ _ Hi) as [l1 [l2 [Hp Hsk]]]. rewrite Hsk.
  rewrite Hp, <- app_assoc in Hc. simpl in Hc. apply chain_app_r in Hc.
  intros x Hx. apply (S_closed node x HS).
  - apply (chain_reach_first _ node (l2 ++ [node]) Hc). exact Hx.
  - apply (chain_reach_last _ (node :: l2) node Hc). exact Hx.
Qed.

Lemma dfs_complete fuel : complete_spec (dfs set_iter fuel self).
Proof.
  induction fuel as [|fuel IH]; intros node path st st' E Hs Hc Hrv Hex; [discriminate|].
  cbn [dfs] in E.
  destruct (set_mem node (rec_stack st)) eqn:Hr.
  - apply set_mem_true in Hr.
    apply bind_Ok in E. destruct E as [i [Hi E]]. injection E as <-.
    constructor; simpl; auto using incl_refl.
    + eauto.
    + intros u w _ _ Hn Hv. contradiction.
    + intros Hu [u [HuS Hv]]. exfalso. now apply (Hu u).
    + intros _ HS. eexists. split; [apply in_or_app; right; now left|].
      now apply emitted_cycle_inside.
  - destruct (set_mem node (visited st)) eqn:Hv.
    + injection E as <-. apply set_mem_true in Hv. apply set_mem_false in Hr.
      constructor; auto using incl_refl.
      * exists []. now rewrite app_nil_r.
      * intros u w _ _ Hn Hv'. contradiction.
      * intros Hu [u [HuS Hv']]. exfalso. now apply (Hu u).
      * intros Hin. contradiction.
    + apply set_mem_false in Hr, Hv.
      apply bind_Ok in E. destruct E as [st2 [E2 E]].
      apply bind_Ok in E. destruct E as [rs [Ers E]]. injection E as <-.
      set (st1 := {| visited := set_add node (visited st);
                     rec_stack := set_add node (rec_stack st);
                     cycles := cycles st |}) in *.
      set (ns := set_iter (dict_get_default node [] (dependency_graph self))) in *.
      assert (Hns : forall w, assembly_depends self node w -> In w ns).
      { intros w [Hw _]. apply (iteration_order_In set_iter _ _ set_iter_order). exact Hw. }
      assert (Hs1 : path_synced (path ++ [node]) st1).
      { intros x. simpl. rewrite set_add_In, in_app_iff. simpl.
        rewrite (Hs x). intuition. }
      assert (Hin1 : In node (rec_stack st1)) by (simpl; apply set_add_In; now left).
      assert (Hrv1 : incl (rec_stack st1) (visited st1)).
      { intros x Hx. simpl in *. apply set_add_In in Hx. apply set_add_In.
        destruct Hx as [->|Hx]; [now left | right; auto]. }
      assert (Hex1 : explored st1).
      { intros u w Hu Hnu Huw. simpl in *. apply set_add_In. right.
        rewrite set_add_In in Hu, Hnu.
        destruct Hu as [->|Hu]; [exfalso; apply Hnu; now left|].
        apply (Hex u w); auto. }
      assert (P2 : complete_loop_post ns st1 st2).
      { apply (dfs_neighbors_complete _ IH ns (path ++ [node])); auto.
        intros n Hn Hnk. apply chain_snoc; [exact Hc|].
        split; [|exact Hnk].
        exact (proj1 (iteration_order_In set_iter _ _ set_iter_order) Hn). }
      assert (Hrs : rs = rec_stack st).
      { rewrite (cl_rec_stack _ _ _ P2) in Ers. simpl in Ers.
        rewrite (set_add_fresh _ _ Hr), (set_remove_last _ _ Hr) in Ers. congruence. }
      subst rs.
      assert (Hvis : incl (visited st) (visited st2)).
      { intros x Hx. apply (cl_visited _ _ _ P2). simpl. apply set_add_In. now right. }
      assert (Hnode : In node (visited st2)).
      { apply (cl_visited _ _ _ P2). simpl. apply set_add_In. now left. }
      assert (Hex' : explored {| visited := visited st2; rec_stack := rec_stack st;
                                 cycles := cycles st2 |}).
      { intros u w Hu Hnu Huw. simpl in *.
        destruct (string_dec u node) as [->|Hne].
        - apply (cl_all _ _ _ P2 w); [now apply Hns | apply Huw].
        - apply (cl_explored _ _ _ P2 u w); auto.
          rewrite (cl_rec_stack _ _ _ P2). simpl. rewrite set_add_In. tauto. }
      constructor; simpl; auto.
      * apply (cl_cycles _ _ _ P2).
      * intros u w Hu Hw Hnv Hv' Huw Hst.
        destruct (cl_cycles _ _ _ P2) as [extra C2].
        assert (Hgoal : inside st2).
        { assert (Hw1 : In w (rec_stack st1)) by (simpl; apply set_add_In; now right).
          destruct (string_dec u node) as [->|Hne].
          - apply (cl_emit _ _ _ P2 w); auto. apply Huw.
          - apply (cl_back _ _ _ P2 u w); auto.
            simpl. rewrite set_add_In. tauto. }
        destruct Hgoal as [c [Hcin Hinc]]. exists c. auto.
      * intros Hun Hsome.
        assert (Hgoal : inside st2).
        { destruct (in_dec string_dec node S) as [HnS|HnS].
          - destruct S_two as [a [b [Ha [Hb Hab]]]].
            assert (Hx : exists x, In x S /\ x <> node).
            { destruct (string_dec a node) as [->|Hne]; [exists b | exists a]; auto. }
            destruct Hx as [x [HxS Hxn]].
            destruct (reach_last_step _ x node (S_reach x node HxS HnS) Hxn)
              as [z [Hxz Hzn]].
            assert (HzS : In z S).
            { apply (S_closed x z HxS Hxz).
              eapply rt_trans; [apply rt_step; exact Hzn | now apply S_reach]. }
            destruct (string_dec z node) as [->|Hzne].
            + apply (cl_emit _ _ _ P2 node); auto. apply Hzn.
            + apply (cl_back _ _ _ P2 z node); auto.
              * simpl. rewrite set_add_In. intros [?|Hz]; [congruence|].
                now apply (Hun z).
              * apply (explored_component _ node Hex'); auto.
                simpl. intros y Hy Hst. apply (Hun y Hy). now apply Hrv.
          - apply (cl_first _ _ _ P2); auto.
            intros u Hu Hin. simpl in Hin. apply set_add_In in Hin.
            destruct Hin as [->|Hin]; [contradiction | now apply (Hun u)]. }
        destruct Hgoal as [c [Hcin Hinc]]. exists c. auto.
      * intros Hin. contradiction.
Qed.

Lemma detect_loop_complete fuel todo : forall st st',
  detect_loop set_iter fuel self todo st = Ok st' ->
  rec_stack st = [] -> explored st ->
  (exists extra, cycles st' = cycles st ++ extra)
  /\ (untouched st -> (exists u, In u S /\ In u (visited st')) -> inside st').
Proof.
  induction todo as [|a todo IH]; intros st st' E Hr Hex; cbn [detect_loop] in E.
  - injection E as <-. split; [exists []; now rewrite app_nil_r|].
    intros Hu [u [HuS Hv]]. exfalso. now apply (Hu u).
  - destruct (set_mem a (visited st)); [eauto|].
    apply bind_Ok in E. destruct E as [st1 [E1 E]].
    assert (P1 : complete_post a st st1).
    { apply (dfs_complete fuel a [] st st1 E1).
      - intros x. rewrite Hr. simpl. tauto.
      - exact I.
      - rewrite Hr. intros x [].
      - exact Hex. }
    destruct (IH st1 st' E) as [[e2 C2] F2].
    { rewrite (cp_rec_stack _ _ _ P1). exact Hr. }
    { apply (cp_explored _ _ _ P1). }
    destruct (cp_cycles _ _ _ P1) as [e1 C1].
    split; [exists (e1 ++ e2); rewrite C2, C1; now rewrite app_assoc|].
    intros Hun Hsome.
    destruct (some_member_dec S (visited st1)) as [Hsome1|Hnone1].
    + apply (inside_ext st1 st'); [eauto|]. apply (cp_first _ _ _ P1); auto.
    + apply F2; auto.
Qed.

(** [detect_circular_dependencies] returns a cycle all of whose modules are
    in the component. *)
Lemma detect_circular_dependencies_inside_component :
  exists cycles,
    detect_circular_dependencies set_iter self = Ok cycles
    /\ exists c, In c cycles /\ forall n, In n c -> In n S.
Proof.
  unfold detect_circular_dependencies.
  destruct (detect_loop_returns set_iter set_iter_order self (dict_keys (assemblies self))
              {| visited := []; rec_stack := []; cycles := [] |})
    as [st' [E [_ [_ [A _]]]]].
  - intros k Hk. now apply dict_mem_true.
  - reflexivity.
  - rewrite E. cbn [bind]. exists (cycles st'). split; [reflexivity|].
    destruct (detect_loop_complete _ _ _ _ E) as [_ F].
    + reflexivity.
    + intros u w [].
    + destruct F as [c [Hc Hinc]].
      * intros u _ [].
      * destruct S_two as [a [_ [Ha _]]]. exists a. split; [exact Ha|].
        apply A. apply dict_mem_true. now apply S_known.
      * exists c. split; [exact Hc | exact Hinc].
Qed.

End DetectComplete.

(** For every component returned by [find_strongly_connected_components],
    [detect_circular_dependencies] returns a cycle all of whose modules are
    in that component: the enumerator that restores [rec_stack] and copies
    [path] does what [DependencyAnalyzer.find_cycles] misses. *)
Lemma detect_circular_dependencies_cycle_in_every_component
    (set_iter : pyset -> list string) (self : AssemblyDependencyAnalyzer.analyzer) :
  iteration_order set_iter ->
  exists sccs cycles,
    AssemblyDependencyAnalyzer.find_strongly_connected_components set_iter self = Ok sccs
    /\ AssemblyDependencyAnalyzer.detect_circular_dependencies set_iter self = Ok cycles
    /\ forall s, In s sccs -> exists c, In c cycles /\ forall n, In n c -> In n s.
Proof.
  intros Horder.
  destruct (assembly_components set_iter Horder self) as [sccs [Es [Hsound [Hdisj Hcompl]]]].
  destruct (detect_circular_dependencies_well_formed set_iter Horder self) as [cycles [Ec _]].
  exists sccs, cycles. split; [exact Es|]. split; [exact Ec|].
  intros s Hs. destruct (Hsound s Hs) as [Hlen [Hnd Hr]].
  assert (Htwo : exists x y, In x s /\ In y s /\ x <> y).
  { destruct s as [|x [|y rest]]; simpl in Hlen; try lia.
    exists x, y. simpl. repeat split; auto.
    inversion Hnd as [|? ? Hn _]; subst. intros ->. apply Hn. now left. }
  assert (Hknown : forall x, In x s ->
            dict_mem x (AssemblyDependencyAnalyzer.assemblies self) = true).
  { intros x Hx. destruct Htwo as [a [b [Ha [Hb Hne]]]].
    destruct (string_dec a x) as [->|Hax].
    - destruct (reach_target _ b x (Hr b x Hb Hx)) as [z [_ Hz]]; [congruence | exact Hz].
    - destruct (reach_target _ a x (Hr a x Ha Hx)) as [z [_ Hz]]; [assumption | exact Hz]. }
  assert (Hclosed : forall x y, In x s ->
            clos_refl_trans string (assembly_depends self) x y ->
            clos_refl_trans string (assembly_depends self) y x -> In y s).
  { intros x y Hx Hxy Hyx. destruct (string_dec x y) as [<-|Hne]; [exact Hx|].
    destruct (Hcompl x y (Hknown x Hx) Hxy Hyx Hne) as [s' [Hs' [Hxs' Hys']]].
    assert (s' = s) by (apply (NoDup_concat_unique sccs s' s x); assumption).
    now subst s'. }
  destruct (detect_circular_dependencies_inside_component set_iter Horder self s
              Hr Hclosed Htwo) as [cycles' [Ec' Hc]].
  rewrite Ec in Ec'. injection Ec' as <-. exact Hc.
Qed.


(* ------------------------------------------------------------------------- *)
(** * Further properties of the three programs *)

(** ** [AssemblyDependencyAnalyzer.build_dependency_graph] *)

Lemma dict_set_same {V} k (v : V) d : dict_get k d = Some v -> dict_set k v d = d.
Proof.
  induction d as [|[k' v'] d IH]; simpl; [discriminate|].
  destruct (String.eqb_spec k k') as [->|Hne].
  - now intros [= ->].
  - intros H. now rewrite IH.
Qed.

Lemma set_add_present x s : In x s -> set_add x s = s.
Proof. intros H. unfold set_add. apply set_mem_true in H. now rewrite H. Qed.

Section AssemblyBuild.

Import AssemblyDependencyAnalyzer.

(** The dependency set of [a] and the set of the dependents of [b]. *)
Definition forward (self : analyzer) (a : string) : pyset :=
  dict_get_default a [] (dependency_graph self).
Definition backward (self : analyzer) (b : string) : pyset :=
  dict_get_default b [] (reverse_dependency_graph self).

Lemma add_edge_forward a r self a' b :
  In b (forward (add_edge a r self) a') <-> (a' = a /\ b = r) \/ In b (forward self a').
Proof.
  unfold forward. simpl. unfold defaultdict_add, dict_get_default at 1.
  destruct (string_dec a' a) as [->|Hne].
  - rewrite dict_get_set_eq, set_add_In. intuition.
  - rewrite dict_get_set_neq by assumption. unfold dict_get_default. intuition.
Qed.

Lemma add_edge_backward a r self a' b :
  In a' (backward (add_edge a r self) b) <-> (a' = a /\ b = r) \/ In a' (backward self b).
Proof.
  unfold backward. simpl. unfold defaultdict_add, dict_get_default at 1.
  destruct (string_dec b r) as [->|Hne].
  - rewrite dict_get_set_eq, set_add_In. intuition.
  - rewrite dict_get_set_neq by assumption. unfold dict_get_default. intuition.
Qed.

(** The edges one assembly contributes. *)
Definition contributes (info : assembly_info) (b : string) : Prop :=
  In b (info_references info)
  \/ (In b (info_assembly_references info) /\ String.prefix "GUID:" b = false).

Lemma add_references_forward a refs a' b : forall self,
  In b (forward (add_references a refs self) a')
  <-> (a' = a /\ In b refs) \/ In b (forward self a').
Proof.
  induction refs as [|r refs IH]; intros self; simpl; [tauto|].
  rewrite IH, add_edge_forward. intuition (subst; auto).
Qed.

Lemma add_references_backward a refs a' b : forall self,
  In a' (backward (add_references a refs self) b)
  <-> (a' = a /\ In b refs) \/ In a' (backward self b).
Proof.
  induction refs as [|r refs IH]; intros self; simpl; [tauto|].
  rewrite IH, add_edge_backward. intuition (subst; auto).
Qed.

Lemma add_assembly_references_forward a refs a' b : forall self,
  In b (forward (add_assembly_references a refs self) a')
  <-> (a' = a /\ In b refs /\ String.prefix "GUID:" b = false)
      \/ In b (forward self a').
Proof.
  induction refs as [|r refs IH]; intros self; simpl; [tauto|].
  destruct (String.prefix "GUID:" r) eqn:Hg.
  - rewrite IH. intuition (subst; auto; congruence).
  - rewrite IH, add_edge_forward. intuition (subst; auto).
Qed.

Lemma add_assembly_references_backward a refs a' b : forall self,
  In a' (backward (add_assembly_references a refs self) b)
  <-> (a' = a /\ In b refs /\ String.prefix "GUID:" b = false)
      \/ In a' (backward self b).
Proof.
  induction refs as [|r refs IH]; intros self; simpl; [tauto|].
  destruct (String.prefix "GUID:" r) eqn:Hg.
  - rewrite IH. intuition (subst; auto; congruence).
  - rewrite IH, add_edge_backward. intuition (subst; auto).
Qed.

Lemma build_items_forward items a b : forall self,
  In b (forward (build_items items self) a)
  <-> (exists info, In (a, info) items /\ contributes info b) \/ In b (forward self a).
Proof.
  induction items as [|[a' info'] items IH]; intros self; simpl.
  - split; [auto | intros [[info [[] _]]|H]; exact H].
  - rewrite IH, add_assembly_references_forward, add_references_forward.
    unfold contributes. split.
    + intros [[info [Hin Hc]]|[[Ha [H1 H2]]|[[Ha H]|H]]].
      * left. exists info. split; [right; exact Hin | exact Hc].
      * subst a'. left. exists info'. split; [left; reflexivity | right; split; assumption].
      * subst a'. left. exists info'. split; [left; reflexivity | left; assumption].
      * right. exact H.
    + intros [[info [[Heq|Hin] Hc]]|H].
      * inversion Heq; subst a' info'.
        destruct Hc as [Hc|[Hc1 Hc2]]; [right; right; left; auto | right; left; auto].
      * left. exists info. split; assumption.
      * right. right. right. exact H.
Qed.

Lemma build_items_backward items a b : forall self,
  In a (backward (build_items items self) b)
  <-> (exists info, In (a, info) items /\ contributes info b) \/ In a (backward self b).
Proof.
  induction items as [|[a' info'] items IH]; intros self; simpl.
  - split; [auto | intros [[info [[] _]]|H]; exact H].
  - rewrite IH, add_assembly_references_backward, add_references_backward.
    unfold contributes. split.
    + intros [[info [Hin Hc]]|[[Ha [H1 H2]]|[[Ha H]|H]]].
      * left. exists info. split; [right; exact Hin | exact Hc].
      * subst a'. left. exists info'. split; [left; reflexivity | right; split; assumption].
      * subst a'. left. exists info'. split; [left; reflexivity | left; assumption].
      * right. exact H.
    + intros [[info [[Heq|Hin] Hc]]|H].
      * inversion Heq; subst a' info'.
        destruct Hc as [Hc|[Hc1 Hc2]]; [right; right; left; auto | right; left; auto].
      * left. exists info. split; assumption.
      * right. right. right. exact H.
Qed.

Lemma load_loop_graphs files : forall self,
  dependency_graph (fst (load_loop files self)) = dependency_graph self
  /\ reverse_dependency_graph (fst (load_loop files self))
     = reverse_dependency_graph self.
Proof.
  induction files as [|f files IH]; intros self; simpl; [auto|].
  unfold load_one. destruct (content f) as [e|d].
  - specialize (IH self). destruct (load_loop files self). exact IH.
  - match goal with
    | |- context [load_loop files ?a] => specialize (IH a)
    end.
    destruct (load_loop files _). exact IH.
Qed.

Lemma load_loop_NoDup files : forall self,
  NoDup (dict_keys (assemblies self)) ->
  NoDup (dict_keys (assemblies (fst (load_loop files self)))).
Proof.
  induction files as [|f files IH]; intros self H; simpl; [exact H|].
  unfold load_one. destruct (content f) as [e|d].
  - specialize (IH self H). destruct (load_loop files self). exact IH.
  - match goal with
    | |- context [load_loop files ?a] => specialize (IH a)
    end.
    destruct (load_loop files _). apply IH. simpl.
    now apply dict_keys_set_NoDup.
Qed.

Lemma load_assembly_definitions_graphs files self :
  dependency_graph (fst (load_assembly_definitions files self)) = dependency_graph self
  /\ reverse_dependency_graph (fst (load_assembly_definitions files self))
     = reverse_dependency_graph self.
Proof. exact (load_loop_graphs files self). Qed.

Lemma load_assembly_definitions_NoDup files self :
  NoDup (dict_keys (assemblies self)) ->
  NoDup (dict_keys (assemblies (fst (load_assembly_definitions files self)))).
Proof. exact (load_loop_NoDup files self). Qed.

Lemma load_forward files a b :
  In b (forward (load files) a)
  <-> exists info, dict_get a (assemblies (load files)) = Some info /\ contributes info b.
Proof.
  unfold load. rewrite build_dependency_graph_assemblies.
  unfold build_dependency_graph. rewrite build_items_forward.
  pose proof (load_assembly_definitions_graphs files init) as [Hd _].
  pose proof (load_assembly_definitions_NoDup files init (NoDup_nil _)) as Hnd.
  set (self0 := fst (load_assembly_definitions files init)) in *.
  assert (Hempty : forward self0 a = []).
  { unfold forward. rewrite Hd. reflexivity. }
  rewrite Hempty. split.
  - intros [[info [Hin Hc]]|[]]. exists info. split; [|exact Hc].
    now apply dict_get_NoDup_In.
  - intros [info [Hget Hc]]. left. exists info. split; [|exact Hc].
    now apply dict_get_In.
Qed.

Lemma load_backward files a b :
  In a (backward (load files) b)
  <-> exists info, dict_get a (assemblies (load files)) = Some info /\ contributes info b.
Proof.
  unfold load. rewrite build_dependency_graph_assemblies.
  unfold build_dependency_graph. rewrite build_items_backward.
  pose proof (load_assembly_definitions_graphs files init) as [_ Hr].
  pose proof (load_assembly_definitions_NoDup files init (NoDup_nil _)) as Hnd.
  set (self0 := fst (load_assembly_definitions files init)) in *.
  assert (Hempty : backward self0 b = []).
  { unfold backward. rewrite Hr. reflexivity. }
  rewrite Hempty. split.
  - intros [[info [Hin Hc]]|[]]. exists info. split; [|exact Hc].
    now apply dict_get_NoDup_In.
  - intros [info [Hget Hc]]. left. exists info. split; [|exact Hc].
    now apply dict_get_In.
Qed.

End AssemblyBuild.

(** X1.  After [load_assembly_definitions] and [build_dependency_graph], the
    dependency set of an assembly holds exactly its [references] and those of
    its [assemblyReferences] that do not start with [GUID:]; names that are
    not loaded assemblies have an empty dependency set. *)
Theorem build_dependency_graph_edges (files : list asmdef_file) (a b : string) :
  In b (dict_get_default a []
          (AssemblyDependencyAnalyzer.dependency_graph
             (AssemblyDependencyAnalyzer.load files)))
  <-> exists info,
        dict_get a (AssemblyDependencyAnalyzer.assemblies
                      (AssemblyDependencyAnalyzer.load files)) = Some info
        /\ (In b (AssemblyDependencyAnalyzer.info_references info)
            \/ (In b (AssemblyDependencyAnalyzer.info_assembly_references info)
                /\ String.prefix "GUID:" b = false)).
Proof. apply load_forward. Qed.

(** X2.  The two graphs [build_dependency_graph] fills are inverse to each
    other: [b] is in [dependency_graph[a]] exactly when [a] is in
    [reverse_dependency_graph[b]]. *)
Theorem reverse_dependency_graph_is_inverse (files : list asmdef_file) (a b : string) :
  In b (dict_get_default a []
          (AssemblyDependencyAnalyzer.dependency_graph
             (AssemblyDependencyAnalyzer.load files)))
  <-> In a (dict_get_default b []
              (AssemblyDependencyAnalyzer.reverse_dependency_graph
                 (AssemblyDependencyAnalyzer.load files))).
Proof.
  rewrite (load_forward files a b). symmetry. apply (load_backward files a b).
Qed.


Section AssemblyRebuild.

Import AssemblyDependencyAnalyzer.

Lemma defaultdict_add_present k x d :
  In x (dict_get_default k [] d) -> defaultdict_add k x d = d.
Proof.
  intros H. unfold defaultdict_add. rewrite (set_add_present _ _ H).
  apply dict_set_same. unfold dict_get_default in *. unfold pyset in *.
  destruct (dict_get k d) eqn:E; [reflexivity | destruct H].
Qed.

Lemma add_edge_present a r self :
  In r (forward self a) -> In a (backward self r) -> add_edge a r self = self.
Proof.
  intros Hf Hb. unfold add_edge.
  rewrite (defaultdict_add_present _ _ _ Hf), (defaultdict_add_present _ _ _ Hb).
  now destruct self.
Qed.

Lemma add_references_present a refs self :
  (forall r, In r refs -> In r (forward self a) /\ In a (backward self r)) ->
  add_references a refs self = self.
Proof.
  induction refs as [|r refs IH]; intros H; simpl; [reflexivity|].
  destruct (H r (or_introl eq_refl)) as [Hf Hb].
  rewrite (add_edge_present _ _ _ Hf Hb). apply IH. intros r' Hr'. apply H. now right.
Qed.

Lemma add_assembly_references_present a refs self :
  (forall r, In r refs -> String.prefix "GUID:" r = false ->
             In r (forward self a) /\ In a (backward self r)) ->
  add_assembly_references a refs self = self.
Proof.
  induction refs as [|r refs IH]; intros H; simpl; [reflexivity|].
  assert (H' : forall r', In r' refs -> String.prefix "GUID:" r' = false ->
                          In r' (forward self a) /\ In a (backward self r'))
    by (intros r' Hr'; apply H; now right).
  destruct (String.prefix "GUID:" r) eqn:Hg; [now apply IH|].
  destruct (H r (or_introl eq_refl) Hg) as [Hf Hb].
  rewrite (add_edge_present _ _ _ Hf Hb). now apply IH.
Qed.

Lemma build_items_present items self :
  (forall a info b, In (a, info) items -> contributes info b ->
                    In b (forward self a) /\ In a (backward self b)) ->
  build_items items self = self.
Proof.
  induction items as [|[a info] items IH]; intros H; simpl; [reflexivity|].
  rewrite add_references_present.
  - rewrite add_assembly_references_present.
    + apply IH. intros a' info' b Hin. apply H. now right.
    + intros r Hr Hg. apply (H a info r (or_introl eq_refl)). right. now split.
  - intros r Hr. apply (H a info r (or_introl eq_refl)). now left.
Qed.

End AssemblyRebuild.

(** X3.  [build_dependency_graph] is idempotent on a loaded analyzer: running
    it again, as a second [run_analysis] on the same object does, adds no
    edge and leaves both graphs as they are. *)
Theorem build_dependency_graph_idempotent (files : list asmdef_file) :
  AssemblyDependencyAnalyzer.build_dependency_graph
    (AssemblyDependencyAnalyzer.load files)
  = AssemblyDependencyAnalyzer.load files.
Proof.
  unfold AssemblyDependencyAnalyzer.build_dependency_graph at 1.
  apply build_items_present. intros a info b Hin Hc.
  assert (Hget : dict_get a (AssemblyDependencyAnalyzer.assemblies
                               (AssemblyDependencyAnalyzer.load files)) = Some info).
  { apply dict_get_NoDup_In; [|exact Hin].
    unfold AssemblyDependencyAnalyzer.load.
    rewrite build_dependency_graph_assemblies.
    apply load_assembly_definitions_NoDup. apply NoDup_nil. }
  split.
  - apply load_forward. eauto.
  - apply load_backward. eauto.
Qed.

(* ------------------------------------------------------------------------- *)
(** ** [analyze_circular_deps.build_dependency_graph] *)

Section InternalReferences.

Import AnalyzeCircularDeps.

Variable assemblies : dict asmdef.

Definition internal (refs : list string) : list string :=
  filter (fun r => dict_mem r assemblies) refs.

Lemma defaultdict_append_get nm ref graph k :
  dict_get_default k [] (defaultdict_append nm ref graph)
  = if String.eqb k nm then dict_get_default nm [] graph ++ [ref]
    else dict_get_default k [] graph.
Proof.
  unfold defaultdict_append, dict_get_default at 1.
  destruct (String.eqb_spec k nm) as [->|Hne].
  - now rewrite dict_get_set_eq.
  - now rewrite dict_get_set_neq.
Qed.

Lemma add_references_get nm refs k : forall graph,
  dict_get_default k [] (add_references assemblies nm refs graph)
  = if String.eqb k nm then dict_get_default nm [] graph ++ internal refs
    else dict_get_default k [] graph.
Proof.
  induction refs as [|r refs IH]; intros graph; simpl.
  - rewrite app_nil_r. now destruct (String.eqb_spec k nm) as [->|].
  - destruct (dict_mem r assemblies); [|apply IH].
    rewrite IH, !defaultdict_append_get, String.eqb_refl.
    destruct (String.eqb k nm); [|reflexivity].
    now rewrite <- app_assoc.
Qed.

Definition contribution (k : string) (it : string * asmdef) : list string :=
  if String.eqb k (fst it) then internal (references (snd it)) else [].

Lemma build_graph_get items k : forall graph,
  dict_get_default k [] (build_graph assemblies items graph)
  = dict_get_default k [] graph ++ flat_map (contribution k) items.
Proof.
  induction items as [|[nm a] items IH]; intros graph; simpl.
  - now rewrite app_nil_r.
  - rewrite IH, add_references_get. unfold contribution at 2. simpl.
    destruct (String.eqb_spec k nm) as [->|Hne].
    + now rewrite <- app_assoc.
    + reflexivity.
Qed.

Lemma dict_get_fresh {V} k (d : dict V) : ~ In k (dict_keys d) -> dict_get k d = None.
Proof.
  unfold dict_keys. induction d as [|[k' v] d IH]; simpl; intros H; [reflexivity|].
  destruct (String.eqb_spec k k') as [->|Hne]; [exfalso; auto | apply IH; tauto].
Qed.

Lemma contribution_unique (items : dict asmdef) k :
  NoDup (dict_keys items) ->
  flat_map (contribution k) items
  = match dict_get k items with
    | Some a => internal (references a)
    | None => []
    end.
Proof.
  unfold dict_keys. induction items as [|[nm a] items IH]; simpl; intros Hnd;
    [reflexivity|].
  inversion Hnd as [|? ? Hn Hd]; subst. rewrite (IH Hd). unfold contribution. simpl.
  destruct (String.eqb_spec k nm) as [->|Hne]; [|reflexivity].
  rewrite (dict_get_fresh nm items Hn). apply app_nil_r.
Qed.

(** No key of the graph holds an empty list. *)
Definition no_empty_entry (graph : dict (list string)) : Prop :=
  forall k, dict_get k graph <> Some [].

Lemma add_references_no_empty_entry nm refs : forall graph,
  no_empty_entry graph -> no_empty_entry (add_references assemblies nm refs graph).
Proof.
  induction refs as [|r refs IH]; intros graph H; simpl; [exact H|].
  destruct (dict_mem r assemblies); [|now apply IH].
  apply IH. intros k. unfold defaultdict_append.
  destruct (string_dec k nm) as [->|Hne].
  - rewrite dict_get_set_eq. intros [= Heq]. now destruct (dict_get_default nm [] graph).
  - rewrite dict_get_set_neq by assumption. apply H.
Qed.

Lemma build_graph_no_empty_entry items : forall graph,
  no_empty_entry graph -> no_empty_entry (build_graph assemblies items graph).
Proof.
  induction items as [|[nm a] items IH]; intros graph H; simpl; [exact H|].
  apply IH. now apply add_references_no_empty_entry.
Qed.

Lemma no_empty_entry_key graph k :
  no_empty_entry graph ->
  (dict_mem k graph = true <-> dict_get_default k [] graph <> []).
Proof.
  intros H. specialize (H k). unfold dict_mem, dict_get_default.
  destruct (dict_get k graph) as [l|].
  - split; [intros _ -> | reflexivity]. now apply H.
  - split; [discriminate | congruence].
Qed.

End InternalReferences.

(** X4.  The graph [build_dependency_graph] returns lists, for every parsed
    module, its references to parsed modules, in the order and with the
    repetitions of its [references]; references to anything else are
    dropped, and a module is a key of the graph exactly when it has at least
    one such reference. *)
Theorem build_dependency_graph_internal_references
    (files : list asmdef_file) (a : string) :
  let assemblies := fst (fst (AnalyzeCircularDeps.build_dependency_graph files)) in
  let graph := snd (fst (AnalyzeCircularDeps.build_dependency_graph files)) in
  dict_get_default a [] graph
  = match dict_get a assemblies with
    | Some asm =>
        filter (fun r => dict_mem r assemblies) (AnalyzeCircularDeps.references asm)
    | None => []
    end
  /\ (dict_mem a graph = true <-> dict_get_default a [] graph <> []).
Proof.
  unfold AnalyzeCircularDeps.build_dependency_graph.
  pose proof (collect_assemblies_NoDup files [] (NoDup_nil _)) as Hnd.
  destruct (AnalyzeCircularDeps.collect_assemblies files []) as [assemblies out].
  simpl in *. split.
  - rewrite build_graph_get. fold (internal assemblies).
    now rewrite contribution_unique.
  - apply no_empty_entry_key. apply build_graph_no_empty_entry.
    intros k. simpl. discriminate.
Qed.

(* ------------------------------------------------------------------------- *)
(** ** [DependencyAnalyzer.load_assemblies] *)

(** The lines [load_assemblies] prints: one per unreadable file. *)
Definition load_errors (files : list asmdef_file) : list string :=
  flat_map (fun f =>
              match content f with
              | Unreadable e => ["Error loading " +++ file_path f +++ ": " +++ e]
              | Json _ => []
              end) files.

Lemma dict_keys_set_same {V W} k (v : V) (w : W) : forall (d : dict V) (e : dict W),
  dict_keys d = dict_keys e -> dict_keys (dict_set k v d) = dict_keys (dict_set k w e).
Proof.
  unfold dict_keys.
  induction d as [|[k1 v1] d IH]; intros [|[k2 w2] e]; simpl; try discriminate.
  - reflexivity.
  - intros [= -> H]. destruct (String.eqb k k2); simpl; [now rewrite H|].
    now rewrite (IH e H).
Qed.

Section LoadAssemblies.

Import DependencyAnalyzer.

(** [assemblies] and [dependency_graph] hold the same names, in the same
    order, with the same references. *)
Definition consistent (self : analyzer) : Prop :=
  dict_keys (assemblies self) = dict_keys (dependency_graph self)
  /\ NoDup (dict_keys (dependency_graph self))
  /\ forall nm, option_map info_references (dict_get nm (assemblies self))
                = dict_get nm (dependency_graph self).

Lemma load_assemblies_consistent files : forall self,
  consistent self -> consistent (fst (load_assemblies files self)).
Proof.
  induction files as [|f files IH]; intros self H; simpl; [exact H|].
  unfold load_one. destruct (content f) as [e|d].
  - specialize (IH self H). destruct (load_assemblies files self). exact IH.
  - match goal with
    | |- context [load_assemblies files ?a] => specialize (IH a)
    end.
    destruct (load_assemblies files _). apply IH.
    destruct H as [Hk [Hnd Hr]]. split; [|split]; simpl.
    + now apply dict_keys_set_same.
    + now apply dict_keys_set_NoDup.
    + intros nm. destruct (string_dec nm (get_name "" d)) as [->|Hne].
      * now rewrite !dict_get_set_eq.
      * rewrite !dict_get_set_neq by assumption. apply Hr.
Qed.

Lemma load_assemblies_last files : forall self nm,
  dict_get nm (dependency_graph (fst (load_assemblies files self)))
  = match last_declaration files nm with
    | Some d => Some (decl_references d)
    | None => dict_get nm (dependency_graph self)
    end.
Proof.
  induction files as [|f files IH]; intros self nm; simpl; [reflexivity|].
  unfold load_one. destruct (content f) as [e|d].
  - specialize (IH self nm). destruct (load_assemblies files self). simpl in *.
    rewrite IH. destruct (last_declaration files nm); reflexivity.
  - match goal with
    | |- context [load_assemblies files ?a] => specialize (IH a nm)
    end.
    destruct (load_assemblies files _). simpl in *.
    rewrite IH. destruct (last_declaration files nm); [reflexivity|].
    destruct (String.eqb_spec (get_name "" d) nm) as [<-|Hne].
    + now rewrite dict_get_set_eq.
    + rewrite dict_get_set_neq by congruence. reflexivity.
Qed.

Lemma load_assemblies_output files : forall self,
  snd (load_assemblies files self) = load_errors files.
Proof.
  induction files as [|f files IH]; intros self; simpl; [reflexivity|].
  unfold load_one. destruct (content f) as [e|d].
  - specialize (IH self). destruct (load_assemblies files self). simpl in *.
    now rewrite IH.
  - match goal with
    | |- context [load_assemblies files ?a] => specialize (IH a)
    end.
    destruct (load_assemblies files _). simpl in *. now rewrite IH.
Qed.

End LoadAssemblies.

(** X5.  [load_assemblies] keeps, for every name, the references of the last
    readable file that declares it; [assemblies] and [dependency_graph] end
    with the same names in the same order, each once, and with the same
    references; the only lines printed are one per unreadable file. *)
Theorem load_assemblies_keeps_last_declaration (files : list asmdef_file) :
  let self := fst (DependencyAnalyzer.load_assemblies files DependencyAnalyzer.init) in
  (forall nm, dict_get nm (DependencyAnalyzer.dependency_graph self)
              = option_map decl_references (last_declaration files nm))
  /\ (forall nm, option_map DependencyAnalyzer.info_references
                   (dict_get nm (DependencyAnalyzer.assemblies self))
                 = dict_get nm (DependencyAnalyzer.dependency_graph self))
  /\ dict_keys (DependencyAnalyzer.assemblies self)
     = dict_keys (DependencyAnalyzer.dependency_graph self)
  /\ NoDup (dict_keys (DependencyAnalyzer.dependency_graph self))
  /\ snd (DependencyAnalyzer.load_assemblies files DependencyAnalyzer.init)
     = load_errors files.
Proof.
  intros self.
  assert (Hc : consistent self).
  { apply load_assemblies_consistent. split; [reflexivity|]. split; [apply NoDup_nil|].
    reflexivity. }
  destruct Hc as [Hk [Hnd Hr]]. split; [|split; [|split; [|split]]]; auto.
  - intros nm. unfold self. rewrite load_assemblies_last.
    destruct (last_declaration files nm); reflexivity.
  - apply load_assemblies_output.
Qed.


(* ------------------------------------------------------------------------- *)
(** ** [analyze_dependency_violations] *)

Section ViolationLists.

Import AssemblyDependencyAnalyzer.

(** [assembly_name] of class [restricted] references [dep], a loaded assembly
    outside the class, whose dependency set holds [assembly_name]. *)
Definition back_reference (self : analyzer) (restricted : string -> bool)
    (a : string) (info : assembly_info) (dep : string) : Prop :=
  restricted a = true
  /\ In dep (info_references info)
  /\ dict_mem dep (assemblies self) = true
  /\ restricted dep = false
  /\ In a (dict_get_default dep [] (dependency_graph self)).

Lemma cycle_with_In self restricted a deps s :
  In s (cycle_with self restricted a deps)
  <-> exists dep,
        In dep deps /\ dict_mem dep (assemblies self) = true
        /\ restricted dep = false
        /\ In a (dict_get_default dep [] (dependency_graph self))
        /\ s = a +++ " <-> " +++ dep.
Proof.
  induction deps as [|d deps IH]; simpl.
  - split; [intros [] | intros [dep [[] _]]].
  - destruct (dict_mem d (assemblies self)) eqn:Hm;
      destruct (restricted d) eqn:Hr;
      destruct (set_mem a (dict_get_default d [] (dependency_graph self))) eqn:Hs;
      simpl; rewrite ?IH;
      try (split;
           [ intros [dep [Hin H]]; exists dep; split; [right; exact Hin | exact H]
           | intros [dep [[->|Hin] [H1 [H2 [H3 H4]]]]];
             [ apply set_mem_true in H3; congruence
             | exists dep; auto ] ]).
    split.
    + intros [<-|[dep [Hin H]]].
      * exists d. apply set_mem_true in Hs. auto 6.
      * exists dep. split; [right; exact Hin | exact H].
    + intros [dep [[->|Hin] [H1 [H2 [H3 H4]]]]]; [left; now subst | right].
      exists dep. auto.
Qed.

Lemma editor_runtime_cycles_loop self items : forall v,
  editor_runtime_cycles (violations_loop self items v)
  = editor_runtime_cycles v
    ++ flat_map (fun item =>
                   if is_editor (fst item)
                   then cycle_with self is_editor (fst item) (info_references (snd item))
                   else [])
                items.
Proof.
  induction items as [|[a info] items IH]; intros v; simpl.
  - now rewrite app_nil_r.
  - rewrite IH. destruct (is_editor a), (is_test a); simpl;
      rewrite ?app_nil_r, <- ?app_assoc; reflexivity.
Qed.

Lemma class_cycles_In self (restricted : string -> bool)
    (items : list (string * assembly_info)) s :
  In s (flat_map (fun item =>
                    if restricted (fst item)
                    then cycle_with self restricted (fst item) (info_references (snd item))
                    else [])
                 items)
  <-> exists a info dep,
        In (a, info) items /\ back_reference self restricted a info dep
        /\ s = a +++ " <-> " +++ dep.
Proof.
  rewrite in_flat_map. unfold back_reference. split.
  - intros [[a info] [Hin Hs]]. simpl in Hs.
    destruct (restricted a) eqn:Hr; [|destruct Hs].
    apply cycle_with_In in Hs. destruct Hs as [dep [H1 [H2 [H3 [H4 H5]]]]].
    exists a, info, dep. auto 8.
  - intros [a [info [dep [Hin [[Hr [H1 [H2 [H3 H4]]]] H5]]]]].
    exists (a, info). split; [exact Hin|]. simpl. rewrite Hr.
    apply cycle_with_In. exists dep. auto.
Qed.

Lemma prefix_app p q s : String.prefix (p +++ q) s = true -> String.prefix p s = true.
Proof.
  revert s. induction p as [|c p IH]; intros s.
  - now destruct s.
  - destruct s as [|c' s]; cbn [String.append prefix]; [discriminate|].
    destruct (Ascii.ascii_dec c c'); [apply IH | discriminate].
Qed.

Lemma contains_app p q s : contains (p +++ q) s = true -> contains p s = true.
Proof.
  induction s as [|c s IH].
  - cbn [contains]. rewrite !orb_false_r. apply prefix_app.
  - cbn [contains]. intros H. apply orb_true_iff in H. apply orb_true_iff.
    destruct H as [H|H]; [left; now apply prefix_app in H | right; now apply IH].
Qed.

(** The test of the inner loops: [dep] is a loaded assembly outside the
    class and has [a] in its dependency set. *)
Definition back_edge (self : analyzer) (restricted : string -> bool)
    (a dep : string) : bool :=
  dict_mem dep (assemblies self) && negb (restricted dep)
  && set_mem a (dict_get_default dep [] (dependency_graph self)).

(** The text of a violation between two assemblies. *)
Definition render (pair : string * string) : string :=
  fst pair +++ " <-> " +++ snd pair.

(** The violations of a class as pairs of assemblies: for every assembly of
    the class, in the order of the dictionary, one pair for every entry of
    its [references] that passes the test, in the order of the list. *)
Definition category_cycles (self : analyzer) (restricted : string -> bool)
  : list (string * string) :=
  flat_map (fun item =>
              if restricted (fst item)
              then map (pair (fst item))
                     (filter (back_edge self restricted (fst item))
                        (info_references (snd item)))
              else [])
    (assemblies self).

Lemma cycle_with_map self restricted a deps :
  cycle_with self restricted a deps
  = map (fun dep => a +++ " <-> " +++ dep) (filter (back_edge self restricted a) deps).
Proof.
  induction deps as [|d deps IH]; simpl; [reflexivity|].
  fold (back_edge self restricted a d). destruct (back_edge self restricted a d); simpl;
    now rewrite IH.
Qed.

Lemma class_cycles_render self (restricted : string -> bool)
    (items : list (string * assembly_info)) :
  flat_map (fun item =>
              if restricted (fst item)
              then cycle_with self restricted (fst item) (info_references (snd item))
              else [])
    items
  = map render
      (flat_map (fun item =>
                   if restricted (fst item)
                   then map (pair (fst item))
                          (filter (back_edge self restricted (fst item))
                             (info_references (snd item)))
                   else [])
         items).
Proof.
  induction items as [|[a info] items IH]; simpl; [reflexivity|].
  rewrite map_app, IH. f_equal. destruct (restricted a); [|reflexivity].
  rewrite cycle_with_map, map_map. reflexivity.
Qed.

Lemma class_cycles_closed_form self (restricted : string -> bool)
    (items : list (string * assembly_info)) :
  flat_map (fun item =>
              if restricted (fst item)
              then cycle_with self restricted (fst item) (info_references (snd item))
              else [])
    items
  = flat_map (fun item =>
                if restricted (fst item)
                then map (fun dep => fst item +++ " <-> " +++ dep)
                       (filter (fun dep =>
                                  dict_mem dep (assemblies self) && negb (restricted dep)
                                  && set_mem (fst item)
                                       (dict_get_default dep [] (dependency_graph self)))
                          (info_references (snd item)))
                else [])
      items.
Proof.
  induction items as [|[a info] items IH]; simpl; [reflexivity|].
  rewrite IH. f_equal. destruct (restricted a); [|reflexivity].
  apply cycle_with_map.
Qed.

Definition pair_dec (p q : string * string) : {p = q} + {p <> q}.
Proof. decide equality; apply string_dec. Defined.

Lemma count_occ_filter (f : string -> bool) (l : list string) (y : string) :
  count_occ string_dec (filter f l) y = if f y then count_occ string_dec l y else 0.
Proof.
  induction l as [|x l IH]; simpl; [now destruct (f y)|].
  destruct (f x) eqn:Hfx; simpl; destruct (string_dec x y) as [->|Hne].
  - rewrite IH, Hfx. reflexivity.
  - exact IH.
  - rewrite IH, Hfx. reflexivity.
  - exact IH.
Qed.

Lemma count_occ_map_pair (k : string) (l : list string) (x y : string) :
  count_occ pair_dec (map (pair k) l) (x, y)
  = if string_dec k x then count_occ string_dec l y else 0.
Proof.
  induction l as [|z l IH]; simpl; [now destruct (string_dec k x)|].
  rewrite IH. destruct (pair_dec (k, z) (x, y)) as [[= -> ->]|Hne].
  - destruct (string_dec x x); [|congruence].
    destruct (string_dec y y); [reflexivity | congruence].
  - destruct (string_dec k x) as [->|]; [|reflexivity].
    destruct (string_dec z y) as [->|]; [congruence | reflexivity].
Qed.

Lemma category_cycles_count self (restricted : string -> bool)
    (items : list (string * assembly_info)) x y :
  NoDup (dict_keys items) ->
  count_occ pair_dec
    (flat_map (fun item =>
                 if restricted (fst item)
                 then map (pair (fst item))
                        (filter (back_edge self restricted (fst item))
                           (info_references (snd item)))
                 else [])
       items)
    (x, y)
  = match dict_get x items with
    | Some info =>
        if restricted x && back_edge self restricted x y
        then count_occ string_dec (info_references info) y
        else 0
    | None => 0
    end.
Proof.
  unfold dict_keys. induction items as [|[k info] items IH]; simpl; intros Hnd;
    [reflexivity|].
  inversion Hnd as [|? ? Hk Hrest]; subst. rewrite count_occ_app, (IH Hrest).
  destruct (String.eqb_spec x k) as [->|Hne].
  - rewrite (dict_get_fresh k items Hk), Nat.add_0_r.
    destruct (restricted k); simpl; [|reflexivity].
    rewrite count_occ_map_pair, count_occ_filter.
    destruct (string_dec k k); [reflexivity | congruence].
  - assert (H0 : count_occ pair_dec
                   (if restricted k
                    then map (pair k)
                           (filter (back_edge self restricted k) (info_references info))
                    else [])
                   (x, y) = 0).
    { destruct (restricted k); [|reflexivity]. rewrite count_occ_map_pair.
      destruct (string_dec k x); [congruence | reflexivity]. }
    rewrite H0. reflexivity.
Qed.

End ViolationLists.

(** X6.  [test_production_cycles] is, in the order of the assemblies and of
    their [references], the string [a <-> dep] once for every entry [dep] of
    the [references] of a test assembly [a] such that [dep] is a loaded
    assembly, is not a test assembly, and has [a] in its dependency set; it
    holds nothing else. *)
Theorem test_production_cycles_exact (self : AssemblyDependencyAnalyzer.analyzer) :
  AssemblyDependencyAnalyzer.test_production_cycles
    (AssemblyDependencyAnalyzer.analyze_dependency_violations self)
  = flat_map
      (fun item =>
         if AssemblyDependencyAnalyzer.is_test (fst item)
         then map (fun dep => fst item +++ " <-> " +++ dep)
                (filter
                   (fun dep =>
                      dict_mem dep (AssemblyDependencyAnalyzer.assemblies self)
                      && negb (AssemblyDependencyAnalyzer.is_test dep)
                      && set_mem (fst item)
                           (dict_get_default dep []
                              (AssemblyDependencyAnalyzer.dependency_graph self)))
                   (AssemblyDependencyAnalyzer.info_references (snd item)))
         else [])
      (AssemblyDependencyAnalyzer.assemblies self)
  /\ forall s,
       In s (AssemblyDependencyAnalyzer.test_production_cycles
               (AssemblyDependencyAnalyzer.analyze_dependency_violations self))
       <-> exists a info dep,
             In (a, info) (AssemblyDependencyAnalyzer.assemblies self)
             /\ AssemblyDependencyAnalyzer.is_test a = true
             /\ In dep (AssemblyDependencyAnalyzer.info_references info)
             /\ dict_mem dep (AssemblyDependencyAnalyzer.assemblies self) = true
             /\ AssemblyDependencyAnalyzer.is_test dep = false
             /\ In a (dict_get_default dep []
                        (AssemblyDependencyAnalyzer.dependency_graph self))
             /\ s = a +++ " <-> " +++ dep.
Proof.
  unfold AssemblyDependencyAnalyzer.analyze_dependency_violations.
  rewrite test_production_cycles_loop. simpl. split.
  - apply (class_cycles_closed_form self AssemblyDependencyAnalyzer.is_test).
  - intros s. rewrite (class_cycles_In self AssemblyDependencyAnalyzer.is_test).
    unfold back_reference. split.
    + intros [a [info [dep [H0 [[H1 [H2 [H3 [H4 H5]]]] H6]]]]]. exists a, info, dep. auto 8.
    + intros [a [info [dep [H0 [H1 [H2 [H3 [H4 [H5 H6]]]]]]]]]. exists a, info, dep. auto 8.
Qed.

(** X7.  [editor_runtime_cycles] is, in the order of the assemblies and of
    their [references], the string [a <-> dep] once for every entry [dep] of
    the [references] of an assembly [a] whose name contains [.Editor] such
    that [dep] is a loaded assembly, its name does not contain [.Editor], and
    it has [a] in its dependency set; it holds nothing else. *)
Theorem editor_runtime_cycles_exact (self : AssemblyDependencyAnalyzer.analyzer) :
  AssemblyDependencyAnalyzer.editor_runtime_cycles
    (AssemblyDependencyAnalyzer.analyze_dependency_violations self)
  = flat_map
      (fun item =>
         if contains ".Editor" (fst item)
         then map (fun dep => fst item +++ " <-> " +++ dep)
                (filter
                   (fun dep =>
                      dict_mem dep (AssemblyDependencyAnalyzer.assemblies self)
                      && negb (contains ".Editor" dep)
                      && set_mem (fst item)
                           (dict_get_default dep []
                              (AssemblyDependencyAnalyzer.dependency_graph self)))
                   (AssemblyDependencyAnalyzer.info_references (snd item)))
         else [])
      (AssemblyDependencyAnalyzer.assemblies self)
  /\ forall s,
       In s (AssemblyDependencyAnalyzer.editor_runtime_cycles
               (AssemblyDependencyAnalyzer.analyze_dependency_violations self))
       <-> exists a info dep,
             In (a, info) (AssemblyDependencyAnalyzer.assemblies self)
             /\ contains ".Editor" a = true
             /\ In dep (AssemblyDependencyAnalyzer.info_references info)
             /\ dict_mem dep (AssemblyDependencyAnalyzer.assemblies self) = true
             /\ contains ".Editor" dep = false
             /\ In a (dict_get_default dep []
                        (AssemblyDependencyAnalyzer.dependency_graph self))
             /\ s = a +++ " <-> " +++ dep.
Proof.
  unfold AssemblyDependencyAnalyzer.analyze_dependency_violations.
  rewrite editor_runtime_cycles_loop. simpl. split.
  - apply (class_cycles_closed_form self AssemblyDependencyAnalyzer.is_editor).
  - intros s. rewrite (class_cycles_In self AssemblyDependencyAnalyzer.is_editor).
    unfold back_reference, AssemblyDependencyAnalyzer.is_editor. split.
    + intros [a [info [dep [H0 [[H1 [H2 [H3 [H4 H5]]]] H6]]]]]. exists a, info, dep. auto 8.
    + intros [a [info [dep [H0 [H1 [H2 [H3 [H4 [H5 H6]]]]]]]]]. exists a, info, dep. auto 8.
Qed.

(** C5, as amended.  The test/production violations are the texts of the
    pairs [category_cycles] lists.  For a test assembly [test_x] and any
    [prod_y], the number of violations between the two is the number of
    times [prod_y] is listed in the [references] of [test_x] when [prod_y] is
    a loaded assembly, is not a test assembly and has [test_x] in its
    dependency set, and zero otherwise: exactly one violation is reported
    when [prod_y] is listed once, whatever else the input holds. *)
Theorem test_production_cycle_reported_per_reference
    (files : list asmdef_file) (test_x prod_y : string)
    (info : AssemblyDependencyAnalyzer.assembly_info) :
  let self := AssemblyDependencyAnalyzer.load files in
  dict_get test_x (AssemblyDependencyAnalyzer.assemblies self) = Some info ->
  AssemblyDependencyAnalyzer.is_test test_x = true ->
  AssemblyDependencyAnalyzer.test_production_cycles
    (AssemblyDependencyAnalyzer.analyze_dependency_violations self)
  = map render (category_cycles self AssemblyDependencyAnalyzer.is_test)
  /\ count_occ pair_dec (category_cycles self AssemblyDependencyAnalyzer.is_test)
       (test_x, prod_y)
     = if dict_mem prod_y (AssemblyDependencyAnalyzer.assemblies self)
          && negb (AssemblyDependencyAnalyzer.is_test prod_y)
          && set_mem test_x
               (dict_get_default prod_y []
                  (AssemblyDependencyAnalyzer.dependency_graph self))
       then count_occ string_dec (AssemblyDependencyAnalyzer.info_references info) prod_y
       else 0.
Proof.
  intros self Hget Htest. split.
  - unfold AssemblyDependencyAnalyzer.analyze_dependency_violations.
    rewrite test_production_cycles_loop. simpl.
    apply (class_cycles_render self AssemblyDependencyAnalyzer.is_test).
  - unfold category_cycles.
    rewrite (category_cycles_count self AssemblyDependencyAnalyzer.is_test
               (AssemblyDependencyAnalyzer.assemblies self) test_x prod_y).
    + rewrite Hget, Htest. reflexivity.
    + unfold self, AssemblyDependencyAnalyzer.load.
      rewrite build_dependency_graph_assemblies.
      apply load_assembly_definitions_NoDup. apply NoDup_nil.
Qed.

Definition testing_files : list asmdef_file :=
  files_of [declare "Chimera.Testing" ["Chimera.Core"];
            declare "Chimera.Core" ["Chimera.Testing"]].

Lemma test_production_cycle_reported_per_reference_witness :
  AssemblyDependencyAnalyzer.test_production_cycles
    (AssemblyDependencyAnalyzer.analyze_dependency_violations
       (AssemblyDependencyAnalyzer.load testing_files))
  = map render
      (category_cycles (AssemblyDependencyAnalyzer.load testing_files)
         AssemblyDependencyAnalyzer.is_test)
  /\ count_occ pair_dec
       (category_cycles (AssemblyDependencyAnalyzer.load testing_files)
          AssemblyDependencyAnalyzer.is_test)
       ("Chimera.Testing", "Chimera.Core")
     = 1.
Proof.
  apply (test_production_cycle_reported_per_reference testing_files
           "Chimera.Testing" "Chimera.Core"
           {| AssemblyDependencyAnalyzer.info_file_path := "Chimera.Testing.asmdef";
              AssemblyDependencyAnalyzer.info_references := ["Chimera.Core"];
              AssemblyDependencyAnalyzer.info_assembly_references := [] |});
    reflexivity.
Defined.

(** A test assembly that lists the production assembly twice. *)
Definition listed_twice_files : list asmdef_file :=
  files_of [declare "Game.Tests" ["Game"; "Game"]; declare "Game" ["Game.Tests"]].

(** A test assembly that names the production assembly under
    [assemblyReferences] only. *)
Definition assembly_reference_files : list asmdef_file :=
  files_of [{| decl_name := Some "Game.Tests"; decl_references := [];
               decl_assembly_references := ["Game"] |};
            declare "Game" ["Game.Tests"]].

(** Scenario 3 of the specification with its literal names. *)
Definition scenario_3_files : list asmdef_file :=
  files_of [declare "Test.X" ["Prod.Y"]; declare "Prod.Y" ["Test.X"]].

(** C5 as stated fails: with edges both ways between a test assembly and a
    production assembly, two violations are reported when the test assembly
    lists the other twice, and none when it names it under
    [assemblyReferences]; and the name [Test.X] of the scenario is not a test
    assembly for the code, which looks for [.Test], so that the scenario
    itself gives no violation. *)
Lemma test_production_cycle_not_reported_once :
  AssemblyDependencyAnalyzer.is_test "Game.Tests" = true
  /\ AssemblyDependencyAnalyzer.is_test "Game" = false
  /\ AssemblyDependencyAnalyzer.test_production_cycles
       (AssemblyDependencyAnalyzer.analyze_dependency_violations
          (AssemblyDependencyAnalyzer.load listed_twice_files))
     = ["Game.Tests <-> Game"; "Game.Tests <-> Game"]
  /\ assembly_depends (AssemblyDependencyAnalyzer.load assembly_reference_files)
       "Game.Tests" "Game"
  /\ assembly_depends (AssemblyDependencyAnalyzer.load assembly_reference_files)
       "Game" "Game.Tests"
  /\ AssemblyDependencyAnalyzer.test_production_cycles
       (AssemblyDependencyAnalyzer.analyze_dependency_violations
          (AssemblyDependencyAnalyzer.load assembly_reference_files))
     = []
  /\ AssemblyDependencyAnalyzer.is_test "Test.X" = false
  /\ AssemblyDependencyAnalyzer.analyze_dependency_violations
       (AssemblyDependencyAnalyzer.load scenario_3_files)
     = no_violations.
Proof.
  split; [reflexivity|]. split; [reflexivity|]. split; [reflexivity|].
  split; [split; vm_compute; auto|]. split; [split; vm_compute; auto|].
  split; [reflexivity|]. split; reflexivity.
Qed.

(** X8.  The lists [circular_core_dependencies] and [missing_dependencies] of
    the dictionary [analyze_dependency_violations] returns are empty for
    every analyzer: nothing is ever appended to them. *)
Theorem core_and_missing_violations_never_reported
    (self : AssemblyDependencyAnalyzer.analyzer) :
  AssemblyDependencyAnalyzer.circular_core_dependencies
    (AssemblyDependencyAnalyzer.analyze_dependency_violations self) = []
  /\ AssemblyDependencyAnalyzer.missing_dependencies
       (AssemblyDependencyAnalyzer.analyze_dependency_violations self) = [].
Proof.
  unfold AssemblyDependencyAnalyzer.analyze_dependency_violations.
  apply (violations_loop_unused self (AssemblyDependencyAnalyzer.assemblies self)).
Qed.

(** X9.  The test of a test assembly, ['.Testing' in name or '.Test' in
    name], holds exactly when the name contains [.Test]: the first disjunct
    never decides. *)
Theorem is_test_is_contains_dot_Test (nm : string) :
  AssemblyDependencyAnalyzer.is_test nm = contains ".Test" nm.
Proof.
  unfold AssemblyDependencyAnalyzer.is_test.
  destruct (contains ".Testing" nm) eqn:H; [|reflexivity].
  symmetry. apply (contains_app ".Test" "ing" nm H).
Qed.


(* ------------------------------------------------------------------------- *)
(** ** The components of the two [find_strongly_connected_components] *)

Lemma reach_source (R : string -> string -> Prop) x y :
  clos_refl_trans string R x y -> x <> y -> exists z, R x z.
Proof.
  intros H Hne. apply clos_rt_rt1n in H. destruct H as [|z w Hxz _]; [congruence|].
  now exists z.
Qed.

(** Disjoint components of mutually reachable nodes that cover every pair of
    distinct mutually reachable nodes are closed under mutual reachability. *)
Lemma components_exact (R : string -> string -> Prop) (P : string -> Prop)
    (comps : list (list string)) :
  (forall comp, In comp comps ->
     2 <= length comp /\ NoDup comp
     /\ forall x y, In x comp -> In y comp -> clos_refl_trans string R x y) ->
  NoDup (concat comps) ->
  (forall x y, P x -> clos_refl_trans string R x y -> clos_refl_trans string R y x ->
     x <> y -> exists comp, In comp comps /\ In x comp /\ In y comp) ->
  (forall x y, x <> y -> clos_refl_trans string R x y -> clos_refl_trans string R y x ->
     P x) ->
  forall comp x y, In comp comps -> In x comp ->
    (In y comp <-> clos_refl_trans string R x y /\ clos_refl_trans string R y x).
Proof.
  intros Hsound Hdisj Hcompl HP comp x y Hcomp Hx. split.
  - intros Hy. destruct (Hsound comp Hcomp) as [_ [_ Hr]]. split; now apply Hr.
  - intros [Hxy Hyx]. destruct (string_dec x y) as [<-|Hne]; [exact Hx|].
    destruct (Hcompl x y (HP x y Hne Hxy Hyx) Hxy Hyx Hne) as [comp' [Hc' [Hx' Hy']]].
    assert (comp' = comp) by (apply (NoDup_concat_unique comps comp' comp x); assumption).
    now subst.
Qed.

(** [b] is listed under [a] in the graph of [analyze_circular_deps.py]. *)
Definition listed (graph : dict (list string)) (a b : string) : Prop :=
  In b (dict_get_default a [] graph).

Lemma reach_listed graph a b :
  reach (graph_successors graph) never_skip a b
  <-> clos_refl_trans string (listed graph) a b.
Proof.
  split; apply clos_refl_trans_mono; intros x y; unfold edge, listed, graph_successors,
    never_skip; tauto.
Qed.

Lemma listed_key graph a b : listed graph a b -> In a (dict_keys graph).
Proof.
  intros H. apply dict_get_default_In in H. destruct H as [l [Hl _]].
  apply dict_mem_true. unfold dict_mem. now rewrite Hl.
Qed.

Lemma analyze_circular_deps_components_listed graph :
  exists comps,
    AnalyzeCircularDeps.find_strongly_connected_components graph = Ok comps
    /\ (forall comp, In comp comps ->
          2 <= length comp /\ NoDup comp
          /\ forall x y, In x comp -> In y comp ->
               clos_refl_trans string (listed graph) x y)
    /\ NoDup (concat comps)
    /\ (forall x y, x <> y ->
          clos_refl_trans string (listed graph) x y ->
          clos_refl_trans string (listed graph) y x ->
          exists comp, In comp comps /\ In x comp /\ In y comp).
Proof.
  destruct (analyze_circular_deps_components graph) as [comps [E [Hs [Hd Hc]]]].
  exists comps. split; [exact E|]. split; [|split; [exact Hd|]].
  - intros comp Hcomp. destruct (Hs comp Hcomp) as [H1 [H2 H3]].
    split; [exact H1|]. split; [exact H2|].
    intros x y Hx Hy. apply reach_listed. now apply H3.
  - intros x y Hne Hxy Hyx. apply Hc; auto.
    + destruct (reach_source _ _ _ Hxy Hne) as [z Hz]. now apply listed_key in Hz.
    + now apply reach_listed.
    + now apply reach_listed.
Qed.

(** X10.  [analyze_circular_deps.find_strongly_connected_components] returns
    on every graph; every component it returns has at least two members, no
    member twice, and no node is in two components. *)
Theorem find_strongly_connected_components_disjoint (graph : dict (list string)) :
  exists comps,
    AnalyzeCircularDeps.find_strongly_connected_components graph = Ok comps
    /\ (forall comp, In comp comps -> 2 <= length comp /\ NoDup comp)
    /\ NoDup (concat comps)
    /\ forall comp1 comp2 x,
         In comp1 comps -> In comp2 comps -> In x comp1 -> In x comp2 -> comp1 = comp2.
Proof.
  destruct (analyze_circular_deps_components_listed graph) as [comps [E [Hs [Hd _]]]].
  exists comps. split; [exact E|]. split; [|split; [exact Hd|]].
  - intros comp Hcomp. destruct (Hs comp Hcomp) as [H1 [H2 _]]. now split.
  - intros c1 c2 x H1 H2 Hx1 Hx2. now apply (NoDup_concat_unique comps c1 c2 x).
Qed.

(** X11.  The components [analyze_circular_deps.find_strongly_connected_components]
    returns are the strongly connected components of the graph with two or
    more nodes: the members of a component are exactly the nodes that reach,
    and are reached from, any one of them, and two distinct nodes that reach
    each other are in a component. *)
Theorem find_strongly_connected_components_exact (graph : dict (list string)) :
  exists comps,
    AnalyzeCircularDeps.find_strongly_connected_components graph = Ok comps
    /\ (forall comp x y, In comp comps -> In x comp ->
          (In y comp
           <-> clos_refl_trans string (listed graph) x y
               /\ clos_refl_trans string (listed graph) y x))
    /\ (forall x y, x <> y ->
          clos_refl_trans string (listed graph) x y ->
          clos_refl_trans string (listed graph) y x ->
          exists comp, In comp comps /\ In x comp /\ In y comp).
Proof.
  destruct (analyze_circular_deps_components_listed graph) as [comps [E [Hs [Hd Hc]]]].
  exists comps. split; [exact E|]. split; [|exact Hc].
  apply (components_exact (listed graph) (fun _ => True) comps Hs Hd); auto.
Qed.

(* ------------------------------------------------------------------------- *)
(** ** [analyze_circular_deps.analyze_dependencies] *)

(** Module [a] references the parsed module [b]. *)
Definition references_module (assemblies : dict AnalyzeCircularDeps.asmdef)
    (a b : string) : Prop :=
  exists asm, dict_get a assemblies = Some asm
              /\ In b (AnalyzeCircularDeps.references asm)
              /\ dict_mem b assemblies = true.

Lemma build_dependency_graph_listed files a b :
  listed (snd (fst (AnalyzeCircularDeps.build_dependency_graph files))) a b
  <-> references_module (fst (fst (AnalyzeCircularDeps.build_dependency_graph files))) a b.
Proof.
  unfold listed, references_module.
  unfold AnalyzeCircularDeps.build_dependency_graph.
  pose proof (collect_assemblies_NoDup files [] (NoDup_nil _)) as Hnd.
  destruct (AnalyzeCircularDeps.collect_assemblies files []) as [assemblies out].
  simpl in *. rewrite build_graph_get. simpl.
  rewrite contribution_unique by assumption.
  destruct (dict_get a assemblies) as [asm|].
  - unfold internal. rewrite filter_In. split.
    + intros [H1 H2]. exists asm. auto.
    + intros [asm' [[= <-] [H1 H2]]]. auto.
  - split; [intros [] | intros [asm' [[=] _]]].
Qed.

(** X12.  [analyze_dependencies] returns on every set of files, and returns
    [True], so that the script exits with status 0, exactly when no two
    distinct modules reach each other along references between parsed
    modules; a module that references itself does not change the result. *)
Theorem analyze_dependencies_success (files : list asmdef_file) :
  let assemblies := fst (fst (AnalyzeCircularDeps.build_dependency_graph files)) in
  exists success,
    AnalyzeCircularDepsMain.analyze_dependencies files = Ok success
    /\ AnalyzeCircularDepsMain.exit_status files = Ok (if success then 0 else 1)
    /\ (success = true
        <-> forall x y, x <> y ->
              ~ (clos_refl_trans string (references_module assemblies) x y
                 /\ clos_refl_trans string (references_module assemblies) y x)).
Proof.
  intros assemblies.
  unfold AnalyzeCircularDepsMain.exit_status, AnalyzeCircularDepsMain.analyze_dependencies.
  pose proof (build_dependency_graph_listed files) as Hl. fold assemblies in Hl.
  destruct (AnalyzeCircularDeps.build_dependency_graph files) as [[assemblies' graph] out].
  simpl in *. subst assemblies.
  destruct (analyze_circular_deps_components_listed graph) as [comps [E [Hs [_ Hc]]]].
  rewrite E. cbn [bind]. eexists. split; [reflexivity|]. split; [reflexivity|].
  assert (Hmono : forall x y,
             clos_refl_trans string (listed graph) x y
             <-> clos_refl_trans string (references_module assemblies') x y).
  { intros x y. split; apply clos_refl_trans_mono; intros a b; apply Hl. }
  split.
  - intros Hempty x y Hne [Hxy Hyx].
    destruct (Hc x y Hne) as [comp [Hcomp _]]; try now apply Hmono.
    destruct comps; [destruct Hcomp | discriminate].
  - intros Hnone. destruct comps as [|comp comps]; [reflexivity|]. exfalso.
    destruct (Hs comp (or_introl eq_refl)) as [Hlen [Hnd Hr]].
    destruct comp as [|x [|y comp]]; simpl in Hlen; try lia.
    apply (Hnone x y).
    + inversion Hnd as [|? ? Hn _]; subst. intros ->. apply Hn. now left.
    + split; apply Hmono; apply Hr; simpl; auto.
Qed.

(* ------------------------------------------------------------------------- *)
(** ** [AssemblyDependencyAnalyzer.find_strongly_connected_components] *)

(** X13.  For every iteration order of the sets,
    [AssemblyDependencyAnalyzer.find_strongly_connected_components] returns;
    every component has at least two members, no member twice, and no
    assembly is in two components. *)
Theorem assembly_components_disjoint
    (set_iter : pyset -> list string) (self : AssemblyDependencyAnalyzer.analyzer) :
  iteration_order set_iter ->
  exists comps,
    AssemblyDependencyAnalyzer.find_strongly_connected_components set_iter self = Ok comps
    /\ (forall comp, In comp comps -> 2 <= length comp /\ NoDup comp)
    /\ NoDup (concat comps)
    /\ forall comp1 comp2 x,
         In comp1 comps -> In comp2 comps -> In x comp1 -> In x comp2 -> comp1 = comp2.
Proof.
  intros Horder.
  destruct (assembly_components set_iter Horder self) as [comps [E [Hs [Hd _]]]].
  exists comps. split; [exact E|]. split; [|split; [exact Hd|]].
  - intros comp Hcomp. destruct (Hs comp Hcomp) as [H1 [H2 _]]. now split.
  - intros c1 c2 x H1 H2 Hx1 Hx2. now apply (NoDup_concat_unique comps c1 c2 x).
Qed.

Lemma assembly_components_disjoint_witness :
  exists comps,
    AssemblyDependencyAnalyzer.find_strongly_connected_components (fun s => s)
      (AssemblyDependencyAnalyzer.load triangle_files) = Ok comps
    /\ (forall comp, In comp comps -> 2 <= length comp /\ NoDup comp)
    /\ NoDup (concat comps)
    /\ forall comp1 comp2 x,
         In comp1 comps -> In comp2 comps -> In x comp1 -> In x comp2 -> comp1 = comp2.
Proof.
  apply (assembly_components_disjoint (fun s => s)
           (AssemblyDependencyAnalyzer.load triangle_files)).
  intros s. apply Permutation_refl.
Defined.

(** X14.  For every iteration order of the sets, the components
    [AssemblyDependencyAnalyzer.find_strongly_connected_components] returns
    are the strongly connected components, with two or more members, of the
    graph of the dependencies on loaded assemblies: the members of a
    component are exactly the assemblies that reach, and are reached from,
    any one of them, and two distinct assemblies that reach each other are in
    a component. *)
Theorem assembly_components_exact
    (set_iter : pyset -> list string) (self : AssemblyDependencyAnalyzer.analyzer) :
  iteration_order set_iter ->
  exists comps,
    AssemblyDependencyAnalyzer.find_strongly_connected_components set_iter self = Ok comps
    /\ (forall comp x y, In comp comps -> In x comp ->
          (In y comp
           <-> clos_refl_trans string (assembly_depends self) x y
               /\ clos_refl_trans string (assembly_depends self) y x))
    /\ (forall x y, x <> y ->
          clos_refl_trans string (assembly_depends self) x y ->
          clos_refl_trans string (assembly_depends self) y x ->
          exists comp, In comp comps /\ In x comp /\ In y comp).
Proof.
  intros Horder.
  destruct (assembly_components set_iter Horder self) as [comps [E [Hs [Hd Hc]]]].
  assert (HP : forall x y, x <> y ->
                 clos_refl_trans string (assembly_depends self) x y ->
                 clos_refl_trans string (assembly_depends self) y x ->
                 dict_mem x (AssemblyDependencyAnalyzer.assemblies self) = true).
  { intros x y Hne _ Hyx.
    destruct (reach_target _ _ _ Hyx (not_eq_sym Hne)) as [z [_ Hz]]. exact Hz. }
  exists comps. split; [exact E|]. split.
  - apply (components_exact (assembly_depends self)
             (fun x => dict_mem x (AssemblyDependencyAnalyzer.assemblies self) = true)
             comps Hs Hd Hc HP).
  - intros x y Hne Hxy Hyx. apply Hc; eauto.
Qed.

Lemma assembly_components_exact_witness :
  exists comps,
    AssemblyDependencyAnalyzer.find_strongly_connected_components (fun s => s)
      (AssemblyDependencyAnalyzer.load triangle_files) = Ok comps
    /\ (forall comp x y, In comp comps -> In x comp ->
          (In y comp
           <-> clos_refl_trans string
                 (assembly_depends (AssemblyDependencyAnalyzer.load triangle_files)) x y
               /\ clos_refl_trans string
                    (assembly_depends (AssemblyDependencyAnalyzer.load triangle_files)) y x))
    /\ (forall x y, x <> y ->
          clos_refl_trans string
            (assembly_depends (AssemblyDependencyAnalyzer.load triangle_files)) x y ->
          clos_refl_trans string
            (assembly_depends (AssemblyDependencyAnalyzer.load triangle_files)) y x ->
          exists comp, In comp comps /\ In x comp /\ In y comp).
Proof.
  apply (assembly_components_exact (fun s => s)
           (AssemblyDependencyAnalyzer.load triangle_files)).
  intros s. apply Permutation_refl.
Defined.

(** On a loaded analyzer, the two assemblies of a violation depend on each
    other. *)
Lemma violation_two_cycle (files : list asmdef_file) (s : string) :
  let self := AssemblyDependencyAnalyzer.load files in
  In s (AssemblyDependencyAnalyzer.editor_runtime_cycles
          (AssemblyDependencyAnalyzer.analyze_dependency_violations self)
        ++ AssemblyDependencyAnalyzer.test_production_cycles
             (AssemblyDependencyAnalyzer.analyze_dependency_violations self)) ->
  exists a dep,
    s = a +++ " <-> " +++ dep /\ a <> dep
    /\ assembly_depends self a dep /\ assembly_depends self dep a.
Proof.
  intros self Hs.
  assert (H : exists a info dep restricted,
             In (a, info) (AssemblyDependencyAnalyzer.assemblies self)
             /\ back_reference self restricted a info dep
             /\ s = a +++ " <-> " +++ dep).
  { unfold AssemblyDependencyAnalyzer.analyze_dependency_violations in Hs.
    rewrite editor_runtime_cycles_loop, test_production_cycles_loop in Hs. simpl in Hs.
    apply in_app_or in Hs. destruct Hs as [Hs|Hs].
    - apply (class_cycles_In self AssemblyDependencyAnalyzer.is_editor) in Hs.
      destruct Hs as [a [info [dep H]]].
      exists a, info, dep, AssemblyDependencyAnalyzer.is_editor. exact H.
    - apply (class_cycles_In self AssemblyDependencyAnalyzer.is_test) in Hs.
      destruct Hs as [a [info [dep H]]].
      exists a, info, dep, AssemblyDependencyAnalyzer.is_test. exact H. }
  destruct H as [a [info [dep [restricted [Hin [[Hr [Hdep [Hmem [Hnr Hback]]]] Heq]]]]]].
  assert (Hget : dict_get a (AssemblyDependencyAnalyzer.assemblies self) = Some info).
  { apply dict_get_NoDup_In; [|exact Hin]. unfold self, AssemblyDependencyAnalyzer.load.
    rewrite build_dependency_graph_assemblies.
    apply load_assembly_definitions_NoDup. apply NoDup_nil. }
  exists a, dep. split; [exact Heq|]. split; [intros ->; congruence|]. split.
  - split; [|exact Hmem]. apply load_forward. exists info. split; [exact Hget|].
    left. exact Hdep.
  - split; [exact Hback|]. unfold dict_mem. now rewrite Hget.
Qed.

(** X15.  On a loaded analyzer, the two assemblies of every violation
    [analyze_dependency_violations] reports lie in one component of
    [find_strongly_connected_components]. *)
Theorem violation_pair_in_one_component
    (set_iter : pyset -> list string) (files : list asmdef_file) (s : string) :
  let self := AssemblyDependencyAnalyzer.load files in
  iteration_order set_iter ->
  In s (AssemblyDependencyAnalyzer.editor_runtime_cycles
          (AssemblyDependencyAnalyzer.analyze_dependency_violations self)
        ++ AssemblyDependencyAnalyzer.test_production_cycles
             (AssemblyDependencyAnalyzer.analyze_dependency_violations self)) ->
  exists comps a dep comp,
    AssemblyDependencyAnalyzer.find_strongly_connected_components set_iter self = Ok comps
    /\ s = a +++ " <-> " +++ dep
    /\ In comp comps /\ In a comp /\ In dep comp.
Proof.
  intros self Horder Hs.
  destruct (assembly_components set_iter Horder self) as [comps [E [_ [_ Hc]]]].
  destruct (violation_two_cycle files s Hs) as [a [dep [Heq [Hne [Hfwd Hbwd]]]]].
  destruct (Hc a dep) as [comp [Hcomp [Hxa Hxd]]].
  - apply Hbwd.
  - now apply rt_step.
  - now apply rt_step.
  - exact Hne.
  - exists comps, a, dep, comp. auto.
Qed.

Definition mutual_test_files : list asmdef_file :=
  files_of [declare "Game.Tests" ["Game"]; declare "Game" ["Game.Tests"]].

Lemma violation_pair_in_one_component_witness :
  exists comps a dep comp,
    AssemblyDependencyAnalyzer.find_strongly_connected_components (fun s => s)
      (AssemblyDependencyAnalyzer.load mutual_test_files) = Ok comps
    /\ "Game.Tests <-> Game" = a +++ " <-> " +++ dep
    /\ In comp comps /\ In a comp /\ In dep comp.
Proof.
  apply (violation_pair_in_one_component (fun s => s) mutual_test_files
           "Game.Tests <-> Game").
  - intros s. apply Permutation_refl.
  - vm_compute. left. reflexivity.
Defined.


(* ------------------------------------------------------------------------- *)
(** ** The cycles of [detect_circular_dependencies] are simple *)

(** [c] is [[m0; m1; ...; mk; m0]] with [m0], ..., [mk] pairwise distinct. *)
Definition simple_cycle (c : list string) : Prop :=
  exists m ms, c = m :: ms ++ [m] /\ NoDup (m :: ms).

Section DetectSimple.

Import AssemblyDependencyAnalyzer.

Variable set_iter : pyset -> list string.
Variable self : analyzer.

Definition appends_simple (st st' : dfs_state) : Prop :=
  rec_stack st' = rec_stack st
  /\ exists extra, cycles st' = cycles st ++ extra /\ Forall simple_cycle extra.

Definition simple_spec (rec : string -> list string -> dfs_state -> result dfs_state)
  : Prop :=
  forall node path st st',
    rec node path st = Ok st' -> path_synced path st -> NoDup path ->
    appends_simple st st'.

Lemma appends_simple_refl st : appends_simple st st.
Proof. split; [reflexivity|]. exists []. now rewrite app_nil_r. Qed.

Lemma appends_simple_trans st1 st2 st3 :
  appends_simple st1 st2 -> appends_simple st2 st3 -> appends_simple st1 st3.
Proof.
  intros [R1 [e1 [C1 F1]]] [R2 [e2 [C2 F2]]]. split; [congruence|].
  exists (e1 ++ e2). split; [rewrite C2, C1; now rewrite app_assoc|].
  apply Forall_app. auto.
Qed.

Lemma dfs_neighbors_simple rec :
  simple_spec rec ->
  forall neighbors path st st',
    dfs_neighbors rec self neighbors path st = Ok st' ->
    path_synced path st -> NoDup path -> appends_simple st st'.
Proof.
  intros Hrec. induction neighbors as [|n ns IH]; intros path st st' E Hs Hnd; simpl in E.
  - injection E as <-. apply appends_simple_refl.
  - destruct (dict_mem n (assemblies self)); [|exact (IH path st st' E Hs Hnd)].
    apply bind_Ok in E. destruct E as [st1 [E1 E]].
    pose proof (Hrec n path st st1 E1 Hs Hnd) as H1.
    apply appends_simple_trans with (st2 := st1); [exact H1|].
    apply (IH path st1 st' E); [|exact Hnd].
    intros x. rewrite (proj1 H1). apply Hs.
Qed.

Lemma dfs_simple fuel : simple_spec (dfs set_iter fuel self).
Proof.
  induction fuel as [|fuel IH]; intros node path st st' E Hs Hnd; [discriminate|].
  cbn [dfs] in E. destruct (set_mem node (rec_stack st)) eqn:Hr.
  - apply bind_Ok in E. destruct E as [i [Hi E]]. injection E as <-.
    split; [reflexivity|]. simpl. eexists. split; [reflexivity|].
    constructor; [|constructor].
    destruct (skipn_index_cycle _ _ _ Hi) as [l1 [l2 [Hp Hsk]]]. rewrite Hsk.
    exists node, l2. split; [reflexivity|]. rewrite Hp in Hnd.
    now apply NoDup_app_remove_l in Hnd.
  - destruct (set_mem node (visited st)) eqn:Hv.
    + injection E as <-. apply appends_simple_refl.
    + apply set_mem_false in Hr, Hv.
      apply bind_Ok in E. destruct E as [st2 [E2 E]].
      apply bind_Ok in E. destruct E as [rs [Ers E]]. injection E as <-.
      assert (Hs1 : path_synced (path ++ [node])
                      {| visited := set_add node (visited st);
                         rec_stack := set_add node (rec_stack st);
                         cycles := cycles st |}).
      { intros x. simpl. rewrite set_add_In, in_app_iff. simpl.
        rewrite (Hs x). intuition. }
      assert (Hnd1 : NoDup (path ++ [node])).
      { apply NoDup_app; [exact Hnd | repeat constructor; intros [] |].
        intros x Hx [<-|[]]. apply Hr. now apply Hs. }
      destruct (dfs_neighbors_simple _ IH _ _ _ _ E2 Hs1 Hnd1) as [R2 C2].
      simpl in R2, C2.
      rewrite R2, (set_add_fresh _ _ Hr), (set_remove_last _ _ Hr) in Ers.
      injection Ers as <-. split; [reflexivity | exact C2].
Qed.

Lemma detect_loop_simple fuel todo : forall st st',
  detect_loop set_iter fuel self todo st = Ok st' -> rec_stack st = [] ->
  appends_simple st st'.
Proof.
  induction todo as [|a todo IH]; intros st st' E Hr; cbn [detect_loop] in E.
  - injection E as <-. apply appends_simple_refl.
  - destruct (set_mem a (visited st)); [now apply IH|].
    apply bind_Ok in E. destruct E as [st1 [E1 E]].
    assert (H1 : appends_simple st st1).
    { apply (dfs_simple fuel a [] st st1 E1); [|apply NoDup_nil].
      intros x. rewrite Hr. simpl. tauto. }
    apply appends_simple_trans with (st2 := st1); [exact H1|].
    apply IH; [exact E|]. rewrite (proj1 H1). exact Hr.
Qed.

Lemma detect_circular_dependencies_simple cycles :
  detect_circular_dependencies set_iter self = Ok cycles -> Forall simple_cycle cycles.
Proof.
  unfold detect_circular_dependencies. intros E.
  apply bind_Ok in E. destruct E as [st [E1 E]]. injection E as <-.
  destruct (detect_loop_simple _ _ _ _ E1 eq_refl) as [_ [extra [C F]]].
  rewrite C. exact F.
Qed.

End DetectSimple.

(** X16.  For every iteration order of the sets, [detect_circular_dependencies]
    returns, and every cycle it returns is a simple directed cycle of the
    graph of the dependencies on loaded assemblies: it starts and ends with
    the same assembly, names no other assembly twice, and every two
    consecutive names are an edge. *)
Theorem detect_circular_dependencies_simple_cycles
    (set_iter : pyset -> list string) (self : AssemblyDependencyAnalyzer.analyzer) :
  iteration_order set_iter ->
  exists cycles,
    AssemblyDependencyAnalyzer.detect_circular_dependencies set_iter self = Ok cycles
    /\ forall c, In c cycles ->
         (exists m ms, c = m :: ms ++ [m] /\ NoDup (m :: ms))
         /\ chain (assembly_depends self) c.
Proof.
  intros Horder.
  destruct (detect_circular_dependencies_well_formed set_iter Horder self)
    as [cycles [E Hwf]].
  exists cycles. split; [exact E|]. intros c Hc.
  pose proof (detect_circular_dependencies_simple set_iter self cycles E) as Hsimple.
  rewrite Forall_forall in Hwf, Hsimple. split.
  - apply (Hsimple c Hc).
  - apply (Hwf c Hc).
Qed.

Lemma detect_circular_dependencies_simple_cycles_witness :
  exists cycles,
    AssemblyDependencyAnalyzer.detect_circular_dependencies (fun s => s)
      (AssemblyDependencyAnalyzer.load triangle_files) = Ok cycles
    /\ forall c, In c cycles ->
         (exists m ms, c = m :: ms ++ [m] /\ NoDup (m :: ms))
         /\ chain (assembly_depends (AssemblyDependencyAnalyzer.load triangle_files)) c.
Proof.
  apply (detect_circular_dependencies_simple_cycles (fun s => s)
           (AssemblyDependencyAnalyzer.load triangle_files)).
  intros s. apply Permutation_refl.
Defined.

(* ------------------------------------------------------------------------- *)
(** ** [detect_circular_dependencies] decides whether the graph has a cycle *)

Lemma cyclic_cases (R : string -> string -> Prop) x :
  clos_trans string R x x ->
  (exists y, R y y)
  \/ exists y z, y <> z /\ clos_refl_trans string R y z /\ clos_refl_trans string R z y.
Proof.
  intros H. apply clos_trans_t1n in H.
  inversion H as [y Hxy|y z Hxy Hyz]; subst.
  - left. now exists x.
  - destruct (string_dec x y) as [<-|Hne]; [left; now exists x|].
    right. exists x, y. split; [exact Hne|]. split.
    + now apply rt_step.
    + apply clos_t_clos_rt. now apply clos_t1n_trans.
Qed.

Lemma detect_circular_dependencies_empty_acyclic
    (set_iter : pyset -> list string) (self : AssemblyDependencyAnalyzer.analyzer) :
  iteration_order set_iter ->
  AssemblyDependencyAnalyzer.detect_circular_dependencies set_iter self = Ok [] ->
  forall x, ~ clos_trans string (assembly_depends self) x x.
Proof.
  intros Horder E x Hx.
  destruct (cyclic_cases _ _ Hx) as [[y Hy]|[y [z [Hne [Hyz Hzy]]]]].
  - destruct (detect_circular_dependencies_self_loop set_iter Horder self y Hy)
      as [cycles [E' Hin]].
    rewrite E in E'. injection E' as <-. destruct Hin.
  - destruct (detect_circular_dependencies_cycle_in_every_component set_iter self Horder)
      as [sccs [cycles [Es [Ec Hall]]]].
    destruct (assembly_components set_iter Horder self) as [comps [Es' [_ [_ Hc]]]].
    rewrite Es in Es'. injection Es' as <-.
    destruct (Hc y z) as [comp [Hcomp _]]; auto.
    { destruct (reach_target _ _ _ Hzy (not_eq_sym Hne)) as [w [_ Hw]]. exact Hw. }
    destruct (Hall comp Hcomp) as [c [Hin _]].
    rewrite E in Ec. injection Ec as <-. destruct Hin.
Qed.

(** X17.  For every iteration order of the sets, [detect_circular_dependencies]
    returns the empty list exactly when the graph of the dependencies on
    loaded assemblies has no directed cycle; a self-dependency counts as a
    cycle. *)
Theorem detect_circular_dependencies_empty_iff_acyclic
    (set_iter : pyset -> list string) (self : AssemblyDependencyAnalyzer.analyzer) :
  iteration_order set_iter ->
  (AssemblyDependencyAnalyzer.detect_circular_dependencies set_iter self = Ok []
   <-> forall x, ~ clos_trans string (assembly_depends self) x x).
Proof.
  intros Horder. split.
  - now apply detect_circular_dependencies_empty_acyclic.
  - now apply detect_circular_dependencies_acyclic.
Qed.

Lemma detect_circular_dependencies_empty_iff_acyclic_witness :
  AssemblyDependencyAnalyzer.detect_circular_dependencies (fun s => s)
    (AssemblyDependencyAnalyzer.load triangle_files) = Ok []
  <-> forall x,
        ~ clos_trans string
            (assembly_depends (AssemblyDependencyAnalyzer.load triangle_files)) x x.
Proof.
  apply (detect_circular_dependencies_empty_iff_acyclic (fun s => s)
           (AssemblyDependencyAnalyzer.load triangle_files)).
  intros s. apply Permutation_refl.
Defined.


(* ------------------------------------------------------------------------- *)
(** ** [DependencyAnalyzer.find_cycles] up to the first cycle *)

Lemma closed_under_reach (R : string -> string -> Prop) (S : string -> Prop) u v :
  (forall a b, S a -> R a b -> S b) -> S u -> clos_refl_trans string R u v -> S v.
Proof.
  intros Hc Hu H. apply clos_rt_rt1n in H. induction H as [|a b c Hab _ IH]; eauto.
Qed.

Section FindCyclesFirst.

Import DependencyAnalyzer.

Variable graph : dict (list string).

(** Until a call of [dfs] returns [True], [rec_stack] holds the names on
    [path], and [path] names no module twice. *)
Definition aligned (st : dfs_state) : Prop :=
  (forall x, In x (rec_stack st) <-> In x (path st)) /\ NoDup (path st).

(** [x] has been explored and left. *)
Definition explored_and_left (st : dfs_state) (x : string) : Prop :=
  In x (visited st) /\ ~ In x (rec_stack st).

(** The modules explored and left are closed under the edges and lie on no
    cycle. *)
Definition settled (st : dfs_state) : Prop :=
  (forall u w, explored_and_left st u -> depends graph u w -> explored_and_left st w)
  /\ forall u, explored_and_left st u -> ~ clos_trans string (depends graph) u u.

(** The first cycle a traversal appends. *)
Definition first_cycle (st st' : dfs_state) : Prop :=
  exists c, cycles st' = cycles st ++ [c]
            /\ simple_cycle c /\ chain (depends graph) c.

(** A call that returns [False]. *)
Record nothing_found (st st' : dfs_state) : Prop := {
  nf_cycles : cycles st' = cycles st;
  nf_rec_stack : rec_stack st' = rec_stack st;
  nf_path : path st' = path st;
  nf_visited : incl (visited st) (visited st');
  nf_settled : settled st';
  nf_left : forall x, explored_and_left st x -> explored_and_left st' x
}.

Definition first_spec (rec : string -> dfs_state -> result (bool * dfs_state)) : Prop :=
  forall node st r,
    rec node st = Ok r ->
    aligned st -> chain (depends graph) (path st ++ [node]) -> settled st ->
    if fst r then first_cycle st (snd r)
    else nothing_found st (snd r) /\ explored_and_left (snd r) node.

Lemma nothing_found_refl st : settled st -> nothing_found st st.
Proof. intros H. constructor; auto using incl_refl. Qed.

Lemma nothing_found_trans st1 st2 st3 :
  nothing_found st1 st2 -> nothing_found st2 st3 -> nothing_found st1 st3.
Proof.
  intros H1 H2. constructor.
  - rewrite (nf_cycles _ _ H2). apply (nf_cycles _ _ H1).
  - rewrite (nf_rec_stack _ _ H2). apply (nf_rec_stack _ _ H1).
  - rewrite (nf_path _ _ H2). apply (nf_path _ _ H1).
  - eapply incl_tran; [apply (nf_visited _ _ H1) | apply (nf_visited _ _ H2)].
  - apply (nf_settled _ _ H2).
  - intros x Hx. apply (nf_left _ _ H2). now apply (nf_left _ _ H1).
Qed.

Lemma first_cycle_after st1 st2 st3 :
  nothing_found st1 st2 -> first_cycle st2 st3 -> first_cycle st1 st3.
Proof.
  intros H1 [c [Hc H]]. exists c. rewrite Hc, (nf_cycles _ _ H1). auto.
Qed.

Lemma first_neighbors rec :
  first_spec rec ->
  forall neighbors st r,
    dfs_neighbors rec graph neighbors st = Ok r ->
    aligned st ->
    (forall n, In n neighbors -> dict_mem n graph = true ->
               chain (depends graph) (path st ++ [n])) ->
    settled st ->
    if fst r then first_cycle st (snd r)
    else nothing_found st (snd r)
         /\ forall n, In n neighbors -> dict_mem n graph = true ->
                      explored_and_left (snd r) n.
Proof.
  intros Hrec. induction neighbors as [|n ns IH]; intros st r E Ha Hc Hs; simpl in E.
  - injection E as <-. simpl. split; [now apply nothing_found_refl | intros n []].
  - assert (Hc' : forall n', In n' ns -> dict_mem n' graph = true ->
                             chain (depends graph) (path st ++ [n']))
      by (intros; apply Hc; auto; now right).
    destruct (dict_mem n graph) eqn:Hn.
    + apply bind_Ok in E. destruct E as [r1 [E1 E]].
      pose proof (Hrec n st r1 E1 Ha (Hc n (or_introl eq_refl) Hn) Hs) as H1.
      destruct (fst r1).
      * injection E as <-. exact H1.
      * destruct H1 as [H1 Hleft].
        assert (Ha1 : aligned (snd r1)).
        { unfold aligned. rewrite (nf_path _ _ H1), (nf_rec_stack _ _ H1). exact Ha. }
        specialize (IH (snd r1) r E Ha1).
        rewrite (nf_path _ _ H1) in IH. specialize (IH Hc' (nf_settled _ _ H1)).
        destruct (fst r).
        -- now apply first_cycle_after with (st2 := snd r1).
        -- destruct IH as [H2 Hall]. split.
           ++ now apply nothing_found_trans with (st2 := snd r1).
           ++ intros n' [<-|Hin] Hk; [|now apply Hall].
              now apply (nf_left _ _ H2).
    + specialize (IH st r E Ha Hc' Hs). destruct (fst r); [exact IH|].
      destruct IH as [H2 Hall]. split; [exact H2|].
      intros n' [<-|Hin] Hk; [congruence | now apply Hall].
Qed.

Lemma first_dfs fuel : first_spec (dfs fuel graph).
Proof.
  induction fuel as [|fuel IH]; intros node st r E Ha Hc Hs; [discriminate|].
  cbn [dfs] in E. destruct Ha as [Hsync Hnd].
  destruct (set_mem node (rec_stack st)) eqn:Hr.
  - apply bind_Ok in E. destruct E as [i [Hi E]]. injection E as <-. simpl.
    eexists. split; [reflexivity|].
    destruct (skipn_index_cycle _ _ _ Hi) as [l1 [l2 [Hp Hsk]]]. rewrite Hsk.
    split.
    + exists node, l2. split; [reflexivity|]. rewrite Hp in Hnd.
      now apply NoDup_app_remove_l in Hnd.
    + rewrite Hp in Hc. rewrite <- app_assoc in Hc. simpl in Hc.
      apply chain_app_r in Hc. exact Hc.
  - destruct (set_mem node (visited st)) eqn:Hv.
    + injection E as <-. simpl. apply set_mem_true in Hv. apply set_mem_false in Hr.
      split; [now apply nothing_found_refl | now split].
    + apply set_mem_false in Hr, Hv.
      apply bind_Ok in E. destruct E as [r1 [E1 E]].
      set (st1 := {| cycles := cycles st; visited := set_add node (visited st);
                     rec_stack := set_add node (rec_stack st);
                     path := path st ++ [node] |}) in *.
      assert (Hsame : forall u, explored_and_left st1 u <-> explored_and_left st u).
      { intros u. unfold explored_and_left. simpl. rewrite !set_add_In. split.
        - intros [[->|Hu] Hn]; [exfalso; apply Hn; now left|]. split; [exact Hu|].
          intros Hu'. apply Hn. now right.
        - intros [Hu Hn]. split; [now right|]. intros [->|Hu']; auto. }
      assert (Ha1 : aligned st1).
      { split; simpl.
        - intros x. rewrite set_add_In, in_app_iff. simpl. rewrite (Hsync x). intuition.
        - apply NoDup_app; [exact Hnd | repeat constructor; intros [] |].
          intros x Hx [<-|[]]. apply Hr. now apply Hsync. }
      assert (Hs1 : settled st1).
      { destruct Hs as [Hcl Hac]. split.
        - intros u w Hu Huw. apply Hsame. apply (Hcl u w); [now apply Hsame | exact Huw].
        - intros u Hu. apply Hac. now apply Hsame. }
      pose proof (first_neighbors _ IH _ _ _ E1 Ha1) as H1. simpl in H1.
      assert (Hc1 : forall n, In n (dict_get_default node [] graph) ->
                              dict_mem n graph = true ->
                              chain (depends graph) ((path st ++ [node]) ++ [n])).
      { intros n Hn Hk. apply chain_snoc; [exact Hc|]. now split. }
      specialize (H1 Hc1 Hs1).
      destruct (fst r1).
      * injection E as <-. destruct H1 as [c [Hcy H1]]. exists c. auto.
      * destruct H1 as [H1 Hall].
        rewrite (nf_rec_stack _ _ H1), (nf_path _ _ H1) in E. simpl in E.
        rewrite (set_add_fresh _ _ Hr), (set_remove_last _ _ Hr) in E. cbn [bind] in E.
        rewrite list_pop_last in E. cbn [bind] in E. injection E as <-. simpl.
        set (st2 := snd r1) in *.
        set (st' := {| cycles := cycles st2; visited := visited st2;
                       rec_stack := rec_stack st; path := path st |}).
        assert (Hnode : In node (visited st2)).
        { apply (nf_visited _ _ H1). simpl. apply set_add_In. now left. }
        assert (Hin2 : In node (rec_stack st2)).
        { rewrite (nf_rec_stack _ _ H1). simpl. apply set_add_In. now left. }
        assert (Hup : forall u, explored_and_left st2 u -> explored_and_left st' u).
        { intros u [Hu Hn]. split; [exact Hu|]. simpl. intros Hu'. apply Hn.
          rewrite (nf_rec_stack _ _ H1). simpl. apply set_add_In. now right. }
        assert (Hdown : forall u, explored_and_left st' u ->
                                  u = node \/ explored_and_left st2 u).
        { intros u [Hu Hn]. simpl in Hu, Hn.
          destruct (string_dec u node) as [->|Hne]; [now left | right].
          split; [exact Hu|]. rewrite (nf_rec_stack _ _ H1). simpl.
          rewrite set_add_In. intros [->|Hu']; auto. }
        assert (Hnext : forall w, depends graph node w -> explored_and_left st2 w).
        { intros w [Hw Hk]. now apply Hall. }
        destruct (nf_settled _ _ H1) as [Hcl2 Hac2].
        split.
        -- constructor; simpl; auto.
           ++ apply (nf_cycles _ _ H1).
           ++ intros x Hx. apply (nf_visited _ _ H1). simpl. apply set_add_In. now right.
           ++ split.
              ** intros u w Hu Huw. apply Hup.
                 destruct (Hdown u Hu) as [->|Hu2]; [now apply Hnext|].
                 now apply (Hcl2 u w).
              ** intros u Hu Hcyc.
                 destruct (Hdown u Hu) as [->|Hu2]; [|now apply (Hac2 u)].
                 apply clos_trans_t1n in Hcyc.
                 assert (Hw : exists w, depends graph node w
                                        /\ clos_refl_trans string (depends graph) w node).
                 { inversion Hcyc as [y Hy|y z Hy Hyz]; subst.
                   - exists node. split; [exact Hy | apply rt_refl].
                   - exists y. split; [exact Hy|].
                     apply clos_t_clos_rt. now apply clos_t1n_trans. }
                 destruct Hw as [w [Hnw Hwn]].
                 assert (Hbad : explored_and_left st2 node).
                 { apply (closed_under_reach (depends graph) (explored_and_left st2) w node);
                     auto. }
                 now destruct Hbad.
           ++ intros x Hx. apply Hup. apply (nf_left _ _ H1). now apply Hsame.
        -- split; [exact Hnode | exact Hr].
Qed.

Lemma dfs_neighbors_grows rec :
  (forall node st r, rec node st = Ok r -> exists extra, cycles (snd r) = cycles st ++ extra) ->
  forall neighbors st r,
    dfs_neighbors rec graph neighbors st = Ok r ->
    exists extra, cycles (snd r) = cycles st ++ extra.
Proof.
  intros Hrec. induction neighbors as [|n ns IH]; intros st r E; simpl in E.
  - injection E as <-. exists []. now rewrite app_nil_r.
  - destruct (dict_mem n graph); [|now apply IH].
    apply bind_Ok in E. destruct E as [r1 [E1 E]].
    destruct (Hrec n st r1 E1) as [e1 C1].
    destruct (fst r1).
    + injection E as <-. now exists e1.
    + destruct (IH _ _ E) as [e2 C2]. exists (e1 ++ e2). rewrite C2, C1.
      now rewrite app_assoc.
Qed.

Lemma dfs_grows fuel : forall node st r,
  dfs fuel graph node st = Ok r -> exists extra, cycles (snd r) = cycles st ++ extra.
Proof.
  induction fuel as [|fuel IH]; intros node st r E; [discriminate|].
  cbn [dfs] in E. destruct (set_mem node (rec_stack st)).
  - apply bind_Ok in E. destruct E as [i [_ E]]. injection E as <-. simpl. eauto.
  - destruct (set_mem node (visited st)).
    + injection E as <-. exists []. now rewrite app_nil_r.
    + apply bind_Ok in E. destruct E as [r1 [E1 E]].
      destruct (dfs_neighbors_grows _ IH _ _ _ E1) as [e1 C1]. simpl in C1.
      destruct (fst r1).
      * injection E as <-. now exists e1.
      * apply bind_Ok in E. destruct E as [rs [_ E]].
        apply bind_Ok in E. destruct E as [p [_ E]]. injection E as <-. simpl.
        now exists e1.
Qed.

Lemma find_cycles_loop_grows fuel todo : forall st st',
  find_cycles_loop fuel graph todo st = Ok st' ->
  exists extra, cycles st' = cycles st ++ extra.
Proof.
  induction todo as [|a todo IH]; intros st st' E; cbn [find_cycles_loop] in E.
  - injection E as <-. exists []. now rewrite app_nil_r.
  - destruct (set_mem a (visited st)); [now apply IH|].
    apply bind_Ok in E. destruct E as [r1 [E1 E]].
    destruct (dfs_grows _ _ _ _ E1) as [e1 C1].
    destruct (IH _ _ E) as [e2 C2]. exists (e1 ++ e2). rewrite C2, C1.
    now rewrite app_assoc.
Qed.

Lemma find_cycles_loop_first fuel todo : forall st st',
  find_cycles_loop fuel graph todo st = Ok st' ->
  rec_stack st = [] -> path st = [] -> settled st ->
  (cycles st' = cycles st /\ rec_stack st' = [] /\ settled st'
   /\ (forall k, In k todo -> In k (visited st'))
   /\ incl (visited st) (visited st'))
  \/ exists c rest,
       cycles st' = cycles st ++ c :: rest
       /\ simple_cycle c /\ chain (depends graph) c.
Proof.
  induction todo as [|a todo IH]; intros st st' E Hr Hp Hs; cbn [find_cycles_loop] in E.
  - injection E as <-. left. split; [reflexivity|]. split; [exact Hr|].
    split; [exact Hs|]. split; [intros k [] | apply incl_refl].
  - destruct (set_mem a (visited st)) eqn:Ha.
    + destruct (IH st st' E Hr Hp Hs) as [[H1 [H2 [H3 [H4 H5]]]]|H]; [left | now right].
      split; [exact H1|]. split; [exact H2|]. split; [exact H3|]. split; [|exact H5].
      intros k [<-|Hk]; [|auto]. apply H5. now apply set_mem_true.
    + apply bind_Ok in E. destruct E as [r1 [E1 E]].
      pose proof (first_dfs fuel a st r1 E1) as H1.
      assert (Hal : aligned st).
      { split; [|rewrite Hp; apply NoDup_nil]. intros x. rewrite Hr, Hp. tauto. }
      specialize (H1 Hal). rewrite Hp in H1. specialize (H1 I Hs).
      destruct (fst r1).
      * right. destruct H1 as [c [Hc H1]].
        destruct (find_cycles_loop_grows _ _ _ _ E) as [rest Hrest].
        exists c, rest. split; [|exact H1].
        rewrite Hrest, Hc. now rewrite <- app_assoc.
      * destruct H1 as [H1 [Hleft _]].
        destruct (IH (snd r1) st' E) as [[G1 [G2 [G3 [G4 G5]]]]|[c [rest [Hc H]]]].
        -- rewrite (nf_rec_stack _ _ H1). exact Hr.
        -- rewrite (nf_path _ _ H1). exact Hp.
        -- apply (nf_settled _ _ H1).
        -- left. split; [rewrite G1; apply (nf_cycles _ _ H1)|].
           split; [exact G2|]. split; [exact G3|]. split.
           ++ intros k [<-|Hk]; [now apply G5 | auto].
           ++ eapply incl_tran; [apply (nf_visited _ _ H1) | exact G5].
        -- right. exists c, rest. rewrite Hc, (nf_cycles _ _ H1). auto.
Qed.

End FindCyclesFirst.

Lemma find_cycles_first_or_settled (self : DependencyAnalyzer.analyzer) :
  let graph := DependencyAnalyzer.dependency_graph self in
  exists cycles,
    DependencyAnalyzer.find_cycles self = Ok cycles
    /\ ((cycles = [] /\ acyclic graph)
        \/ exists c rest, cycles = c :: rest
                          /\ simple_cycle c /\ chain (depends graph) c).
Proof.
  intros graph. destruct (find_cycles_returns self) as [cs [E _]].
  exists cs. split; [exact E|].
  unfold DependencyAnalyzer.find_cycles, DependencyAnalyzer.find_cycles_from in E.
  fold graph in E. apply bind_Ok in E. destruct E as [st' [E1 E]]. injection E as <-.
  apply find_cycles_loop_first in E1; try reflexivity.
  - simpl in E1. destruct E1 as [[H1 [H2 [[Hcl Hac] [H4 _]]]]|[c [rest H]]].
    + left. split; [exact H1|]. intros x Hx. apply (Hac x); [|exact Hx].
      split; [|rewrite H2; intros []]. apply H4.
      apply clos_trans_tn1 in Hx. destruct Hx as [y [_ Hk]|y z [_ Hk] _];
        now apply dict_mem_true.
    + right. exists c, rest. exact H.
  - split.
    + intros u w [[] _].
    + intros u [[] _].
Qed.

(** X18.  [find_cycles] returns, and the first cycle of the list it returns
    is a simple directed cycle of the graph: it starts and ends with the same
    module, names no other module twice, and every two consecutive names are
    a forward edge between modules of the graph. *)
Theorem find_cycles_first_cycle_well_formed (self : DependencyAnalyzer.analyzer) :
  exists cycles,
    DependencyAnalyzer.find_cycles self = Ok cycles
    /\ forall c rest, cycles = c :: rest ->
         (exists m ms, c = m :: ms ++ [m] /\ NoDup (m :: ms))
         /\ chain (depends (DependencyAnalyzer.dependency_graph self)) c.
Proof.
  destruct (find_cycles_first_or_settled self) as [cycles [E H]].
  exists cycles. split; [exact E|]. intros c rest ->.
  destruct H as [[H _]|[c' [rest' [[= <- <-] H]]]]; [discriminate | exact H].
Qed.

(** X19.  [find_cycles] returns the empty list exactly when no module of the
    graph reaches itself along forward edges between modules of the graph. *)
Theorem find_cycles_empty_iff_acyclic (self : DependencyAnalyzer.analyzer) :
  DependencyAnalyzer.find_cycles self = Ok []
  <-> acyclic (DependencyAnalyzer.dependency_graph self).
Proof.
  split.
  - intros E. destruct (find_cycles_first_or_settled self) as [cycles [E' H]].
    rewrite E in E'. injection E' as <-.
    destruct H as [[_ H]|[c [rest [H _]]]]; [exact H | discriminate].
  - intros H. now apply (find_cycles_acyclic _ H self).
Qed.


(* ------------------------------------------------------------------------- *)
(** ** [DependencyAnalyzer.suggest_fixes] *)

Section Participants.

Import SuggestFixes.

Lemma count_participant_get cp a k :
  dict_get_default k 0 (count_participant cp a)
  = dict_get_default k 0 cp + count_occ string_dec [a] k.
Proof.
  unfold count_participant, dict_get_default at 1. simpl.
  destruct (string_dec a k) as [->|Hne].
  - rewrite dict_get_set_eq. reflexivity.
  - rewrite dict_get_set_neq by congruence. unfold dict_get_default. lia.
Qed.

Lemma count_cycle_get cycle k : forall cp,
  dict_get_default k 0 (fold_left count_participant cycle cp)
  = dict_get_default k 0 cp + count_occ string_dec cycle k.
Proof.
  induction cycle as [|a cycle IH]; intros cp; [simpl; lia|].
  cbn [fold_left]. rewrite IH, count_participant_get.
  change (a :: cycle) with ([a] ++ cycle). rewrite count_occ_app. lia.
Qed.

Lemma count_cycles_get cycles k : forall cp,
  dict_get_default k 0
    (fold_left (fun cp cycle => fold_left count_participant cycle cp) cycles cp)
  = dict_get_default k 0 cp + count_occ string_dec (concat cycles) k.
Proof.
  induction cycles as [|c cycles IH]; intros cp; [simpl; lia|].
  cbn [fold_left concat]. rewrite IH, count_cycle_get, count_occ_app. lia.
Qed.

(** Every key holds a positive count. *)
Definition positive_counts (cp : dict nat) : Prop :=
  forall k, dict_mem k cp = true -> 0 < dict_get_default k 0 cp.

Lemma count_participant_positive cp a :
  positive_counts cp -> positive_counts (count_participant cp a).
Proof.
  intros H k Hk. rewrite count_participant_get. simpl.
  destruct (string_dec a k) as [->|Hne]; [lia|].
  unfold count_participant in Hk. rewrite dict_mem_set in Hk.
  apply orb_true_iff in Hk. destruct Hk as [Hk|Hk].
  - apply String.eqb_eq in Hk. congruence.
  - specialize (H k Hk). lia.
Qed.

Lemma count_cycle_positive cycle : forall cp,
  positive_counts cp -> positive_counts (fold_left count_participant cycle cp).
Proof.
  induction cycle as [|a cycle IH]; intros cp H; [exact H|].
  cbn [fold_left]. apply IH. now apply count_participant_positive.
Qed.

Lemma count_cycles_positive cycles : forall cp,
  positive_counts cp ->
  positive_counts
    (fold_left (fun cp cycle => fold_left count_participant cycle cp) cycles cp).
Proof.
  induction cycles as [|c cycles IH]; intros cp H; [exact H|].
  cbn [fold_left]. apply IH. now apply count_cycle_positive.
Qed.

Lemma count_participants_get cycles k :
  dict_get_default k 0 (count_participants cycles)
  = count_occ string_dec (concat cycles) k.
Proof. unfold count_participants. now rewrite count_cycles_get. Qed.

(** *** [sorted(..., reverse=True)] *)

Fixpoint decreasing (l : list (string * nat)) : Prop :=
  match l with
  | [] => True
  | x :: l' => (forall y, In y l' -> snd y <= snd x) /\ decreasing l'
  end.

Lemma insert_by_count_perm x l : Permutation (x :: l) (insert_by_count x l).
Proof.
  induction l as [|y l IH]; simpl; [apply Permutation_refl|].
  destruct (Nat.ltb (snd y) (snd x)); [apply Permutation_refl|].
  eapply perm_trans; [apply perm_swap|]. now apply perm_skip.
Qed.

Lemma insert_by_count_decreasing x l : decreasing l -> decreasing (insert_by_count x l).
Proof.
  induction l as [|y l IH]; simpl; intros H.
  - split; [intros y [] | exact I].
  - destruct H as [Hy Hl]. destruct (Nat.ltb_spec (snd y) (snd x)) as [Hlt|Hge]; simpl.
    + split; [|split; assumption]. intros z [<-|Hz]; [lia|]. specialize (Hy z Hz). lia.
    + split; [|now apply IH]. intros z Hz.
      apply (Permutation_in _ (Permutation_sym (insert_by_count_perm x l))) in Hz.
      destruct Hz as [<-|Hz]; [exact Hge | now apply Hy].
Qed.

Lemma sorted_from_perm items : forall acc,
  Permutation (acc ++ items) (fold_left (fun sorted x => insert_by_count x sorted) items acc).
Proof.
  induction items as [|x items IH]; intros acc; simpl.
  - rewrite app_nil_r. apply Permutation_refl.
  - eapply perm_trans; [|apply IH].
    eapply perm_trans; [apply Permutation_sym, Permutation_middle|].
    apply (Permutation_app_tail items (insert_by_count_perm x acc)).
Qed.

Lemma sorted_from_decreasing items : forall acc,
  decreasing acc ->
  decreasing (fold_left (fun sorted x => insert_by_count x sorted) items acc).
Proof.
  induction items as [|x items IH]; intros acc H; simpl; [exact H|].
  apply IH. now apply insert_by_count_decreasing.
Qed.

Lemma sorted_by_count_perm items : Permutation items (sorted_by_count items).
Proof. apply (sorted_from_perm items []). Qed.

Lemma sorted_by_count_decreasing items : decreasing (sorted_by_count items).
Proof. apply sorted_from_decreasing. exact I. Qed.

Lemma decreasing_app l1 l2 :
  decreasing (l1 ++ l2) ->
  decreasing l1 /\ decreasing l2 /\ forall p q, In p l1 -> In q l2 -> snd q <= snd p.
Proof.
  induction l1 as [|x l1 IH]; simpl; intros H.
  - split; [exact I|]. split; [exact H|]. intros p q [].
  - destruct H as [Hx H]. destruct (IH H) as [H1 [H2 H3]].
    split; [|split; [exact H2|]].
    + split; [|exact H1]. intros y Hy. apply Hx. apply in_or_app. now left.
    + intros p q [<-|Hp] Hq; [|now apply H3]. apply Hx. apply in_or_app. now right.
Qed.

End Participants.

(** X20.  The count [suggest_fixes] keeps for an assembly is the number of
    its occurrences in the cycles, every cycle read as a list: an assembly
    has an entry exactly when it occurs in some cycle. *)
Theorem count_participants_counts_occurrences (cycles : list (list string)) (a : string) :
  dict_get_default a 0 (SuggestFixes.count_participants cycles)
  = count_occ string_dec (concat cycles) a
  /\ (dict_mem a (SuggestFixes.count_participants cycles) = true
      <-> In a (concat cycles)).
Proof.
  split; [apply count_participants_get|]. split.
  - intros H. apply (count_occ_In string_dec). rewrite <- count_participants_get.
    apply (count_cycles_positive cycles []); [|exact H]. intros k Hk. discriminate.
  - intros H. apply (count_occ_In string_dec) in H.
    rewrite <- count_participants_get in H.
    unfold dict_mem, dict_get_default in *.
    destruct (dict_get a (SuggestFixes.count_participants cycles)); [reflexivity | lia].
Qed.

(** X21.  For a single simple cycle [[m; m1; ...; mk; m]], as [find_cycles]
    writes cycles, [suggest_fixes] counts two cycles for the module [m] that
    opens and closes the cycle and one for every other module of it. *)
Theorem cycle_start_counted_twice (m : string) (ms : list string) :
  NoDup (m :: ms) ->
  let cycle_participants := SuggestFixes.count_participants [m :: ms ++ [m]] in
  dict_get_default m 0 cycle_participants = 2
  /\ forall x, In x ms -> dict_get_default x 0 cycle_participants = 1.
Proof.
  intros Hnd cp. inversion Hnd as [|? ? Hm Hms]; subst. unfold cp. split.
  - rewrite count_participants_get. simpl. rewrite app_nil_r.
    destruct (string_dec m m) as [_|Hne]; [|congruence].
    rewrite count_occ_app. simpl. destruct (string_dec m m) as [_|Hne]; [|congruence].
    rewrite (proj1 (count_occ_not_In string_dec ms m) Hm). reflexivity.
  - intros x Hx. rewrite count_participants_get. simpl. rewrite app_nil_r.
    destruct (string_dec m x) as [->|Hne]; [contradiction|].
    rewrite count_occ_app. simpl. destruct (string_dec m x) as [->|_]; [contradiction|].
    rewrite (proj1 (NoDup_count_occ' string_dec ms) Hms x Hx). reflexivity.
Qed.

Lemma cycle_start_counted_twice_witness :
  dict_get_default "A" 0 (SuggestFixes.count_participants [["A"; "B"; "A"]]) = 2
  /\ forall x, In x ["B"] ->
       dict_get_default x 0 (SuggestFixes.count_participants [["A"; "B"; "A"]]) = 1.
Proof.
  apply (cycle_start_counted_twice "A" ["B"]).
  repeat constructor; simpl; intuition discriminate.
Defined.

(** X22.  [suggest_fixes] lists at most five assemblies, all of them
    participants with their counts, in order of decreasing count, and no
    participant left out has a higher count than a listed one. *)
Theorem most_problematic_are_the_highest_counts (cycles : list (list string)) :
  let items := SuggestFixes.count_participants cycles in
  let top := SuggestFixes.most_problematic cycles in
  length top = Nat.min 5 (length items)
  /\ (forall p, In p top -> In p items)
  /\ (forall before p between q after,
        top = before ++ p :: between ++ q :: after -> snd q <= snd p)
  /\ (forall p q, In p top -> In q items -> ~ In q top -> snd q <= snd p).
Proof.
  intros items top. unfold top, SuggestFixes.most_problematic. fold items.
  pose proof (sorted_by_count_perm items) as Hperm.
  pose proof (sorted_by_count_decreasing items) as Hdec.
  set (sorted := SuggestFixes.sorted_by_count items) in *.
  rewrite <- (firstn_skipn 5 sorted) in Hdec.
  destruct (decreasing_app _ _ Hdec) as [Htop [_ Hle]].
  split; [|split; [|split]].
  - rewrite length_firstn, (Permutation_length Hperm). reflexivity.
  - intros p Hp. apply (Permutation_in _ (Permutation_sym Hperm)).
    rewrite <- (firstn_skipn 5 sorted). apply in_or_app. now left.
  - intros before p between q after Heq. rewrite Heq in Htop.
    destruct (decreasing_app _ _ Htop) as [_ [[Hp _] _]].
    apply Hp. apply in_or_app. right. now left.
  - intros p q Hp Hq Hnot. apply Hle; [exact Hp|].
    apply (Permutation_in _ Hperm) in Hq.
    rewrite <- (firstn_skipn 5 sorted) in Hq. apply in_app_or in Hq.
    destruct Hq as [Hq|Hq]; [contradiction | exact Hq].
Qed.


(* ------------------------------------------------------------------------- *)
(** ** [generate_fix_recommendations] *)

Section RecommendationLines.

Import AssemblyDependencyAnalyzer.

Variable str_of_list : list string -> string.

(** The line that opens the report of cycle number [i]. *)
Definition cycle_heading (i : nat) (cycle : list string) : string :=
  nl +++ "   Cycle " +++ str_of_nat i +++ ": " +++ String.concat " -> " cycle.

Lemma cycles_recommendations_heading cycles : forall i k c,
  nth_error cycles k = Some c ->
  In (cycle_heading (i + k) c) (cycles_recommendations str_of_list i cycles).
Proof.
  induction cycles as [|c0 cycles IH]; intros i k c H; [destruct k; discriminate|].
  cbn [cycles_recommendations]. apply in_or_app. destruct k as [|k]; simpl in H.
  - injection H as <-. left. rewrite Nat.add_0_r. left. reflexivity.
  - right. replace (i + S k) with (S i + k) by lia. now apply IH.
Qed.

Lemma violation_recommendations_item kind items item :
  In item items -> In ("     - " +++ item) (violation_recommendations (kind, items)).
Proof.
  intros H. unfold violation_recommendations.
  destruct items as [|x items]; [destruct H|]. cbn [nonempty].
  right. apply (in_map (fun item => "     - " +++ item)). exact H.
Qed.

End RecommendationLines.

(** X23.  The recommendations name everything they are given: the cycle
    passed at position [k] has the line [Cycle k+1: ...] with its members
    joined by [ -> ], and every item of every list of violations has its own
    line. *)
Theorem generate_fix_recommendations_covers_input
    (str_of_list : list string -> string) (cycles : list (list string))
    (v : AssemblyDependencyAnalyzer.violations) :
  let out := AssemblyDependencyAnalyzer.generate_fix_recommendations str_of_list cycles v in
  (forall k c, nth_error cycles k = Some c ->
     In (AssemblyDependencyAnalyzer.nl +++ "   Cycle " +++ str_of_nat (S k) +++ ": "
         +++ String.concat " -> " c) out)
  /\ (forall kind items item,
        In (kind, items) (AssemblyDependencyAnalyzer.violations_items v) ->
        In item items -> In ("     - " +++ item) out).
Proof.
  intros out. unfold out, AssemblyDependencyAnalyzer.generate_fix_recommendations. split.
  - intros k c H. apply in_or_app. right. apply in_or_app. left.
    destruct cycles as [|c0 cycles]; [destruct k; discriminate|].
    cbn [AssemblyDependencyAnalyzer.nonempty]. right.
    apply (cycles_recommendations_heading str_of_list (c0 :: cycles) 1 k c H).
  - intros kind items item Hk Hi. apply in_or_app. right. apply in_or_app. right.
    apply in_or_app. right. apply in_or_app. left.
    apply in_flat_map. exists (kind, items). split; [exact Hk|].
    now apply violation_recommendations_item.
Qed.

(* ------------------------------------------------------------------------- *)
(** ** [export_dependency_graph] *)

Section ExportedLines.

Import AssemblyDependencyAnalyzer.

Lemma add_edge_graph_keys a r self :
  NoDup (dict_keys (dependency_graph self)) ->
  NoDup (dict_keys (dependency_graph (add_edge a r self))).
Proof. intros H. simpl. unfold defaultdict_add. now apply dict_keys_set_NoDup. Qed.

Lemma add_references_graph_keys a refs : forall self,
  NoDup (dict_keys (dependency_graph self)) ->
  NoDup (dict_keys (dependency_graph (add_references a refs self))).
Proof.
  induction refs as [|r refs IH]; intros self H; simpl; [exact H|].
  apply IH. now apply add_edge_graph_keys.
Qed.

Lemma add_assembly_references_graph_keys a refs : forall self,
  NoDup (dict_keys (dependency_graph self)) ->
  NoDup (dict_keys (dependency_graph (add_assembly_references a refs self))).
Proof.
  induction refs as [|r refs IH]; intros self H; simpl; [exact H|].
  destruct (String.prefix "GUID:" r); [now apply IH|].
  apply IH. now apply add_edge_graph_keys.
Qed.

Lemma build_items_graph_keys items : forall self,
  NoDup (dict_keys (dependency_graph self)) ->
  NoDup (dict_keys (dependency_graph (build_items items self))).
Proof.
  induction items as [|[a info] items IH]; intros self H; simpl; [exact H|].
  apply IH. apply add_assembly_references_graph_keys.
  now apply add_references_graph_keys.
Qed.

Lemma load_graph_keys files : NoDup (dict_keys (dependency_graph (load files))).
Proof.
  unfold load, build_dependency_graph. apply build_items_graph_keys.
  rewrite (proj1 (load_assembly_definitions_graphs files init)). apply NoDup_nil.
Qed.

Lemma edges_written_In set_iter self line :
  iteration_order set_iter ->
  NoDup (dict_keys (dependency_graph self)) ->
  (In line (ExportDependencyGraph.edges_written set_iter self)
   <-> exists a dep, line = ExportDependencyGraph.edge_line a dep
                     /\ assembly_depends self a dep).
Proof.
  intros Horder Hnd. unfold ExportDependencyGraph.edges_written.
  rewrite in_flat_map. split.
  - intros [[a deps] [Hin Hl]]. unfold ExportDependencyGraph.edges_of in Hl.
    apply in_flat_map in Hl. destruct Hl as [dep [Hdep Hl]]. simpl in Hdep, Hl.
    destruct (dict_mem dep (assemblies self)) eqn:Hm; [|destruct Hl].
    destruct Hl as [<-|[]]. exists a, dep. split; [reflexivity|].
    split; [|exact Hm].
    pose proof (dict_get_NoDup_In _ _ _ Hnd Hin) as Hget.
    unfold dict_get_default, pyset in *. rewrite Hget.
    exact (proj1 (iteration_order_In set_iter _ _ Horder) Hdep).
  - intros [a [dep [-> [Hdep Hm]]]].
    apply dict_get_default_In in Hdep. destruct Hdep as [deps [Hget Hdep]].
    exists (a, deps). split; [now apply dict_get_In|].
    unfold ExportDependencyGraph.edges_of. apply in_flat_map. exists dep. simpl.
    split; [exact (proj2 (iteration_order_In set_iter _ _ Horder) Hdep)|].
    rewrite Hm. now left.
Qed.

End ExportedLines.

(** X24.  On a loaded analyzer and for every iteration order of the sets, the
    edge lines [export_dependency_graph] writes are exactly the lines
    ["a" -> "dep";] of the dependencies of an assembly on a loaded assembly:
    dependencies on anything else are not drawn, and both ends of every edge
    drawn have a node line. *)
Theorem export_dependency_graph_draws_internal_dependencies
    (set_iter : pyset -> list string) (files : list asmdef_file) :
  let self := AssemblyDependencyAnalyzer.load files in
  iteration_order set_iter ->
  (forall line,
      In line (ExportDependencyGraph.edges_written set_iter self)
      <-> exists a dep, line = ExportDependencyGraph.edge_line a dep
                        /\ assembly_depends self a dep)
  /\ (forall a dep, assembly_depends self a dep ->
        In (ExportDependencyGraph.edge_line a dep)
           (ExportDependencyGraph.export_dependency_graph set_iter self)
        /\ In (ExportDependencyGraph.node_line a)
              (ExportDependencyGraph.export_dependency_graph set_iter self)
        /\ In (ExportDependencyGraph.node_line dep)
              (ExportDependencyGraph.export_dependency_graph set_iter self)).
Proof.
  intros self Horder.
  assert (Hedges : forall line,
             In line (ExportDependencyGraph.edges_written set_iter self)
             <-> exists a dep, line = ExportDependencyGraph.edge_line a dep
                               /\ assembly_depends self a dep).
  { intros line. apply edges_written_In; [exact Horder | apply load_graph_keys]. }
  split; [exact Hedges|].
  intros a dep Hd. unfold ExportDependencyGraph.export_dependency_graph.
  assert (Hnode : forall x, dict_mem x (AssemblyDependencyAnalyzer.assemblies self) = true ->
                            In (ExportDependencyGraph.node_line x)
                               (ExportDependencyGraph.nodes_written self)).
  { intros x Hx. apply (in_map ExportDependencyGraph.node_line).
    now apply dict_mem_true. }
  assert (Ha : dict_mem a (AssemblyDependencyAnalyzer.assemblies self) = true).
  { destruct Hd as [Hd _]. apply load_forward in Hd. destruct Hd as [info [Hget _]].
    unfold dict_mem, self. now rewrite Hget. }
  split; [|split].
  - apply in_or_app. right. apply in_or_app. right. apply in_or_app. right.
    apply in_or_app. left. apply Hedges. eauto.
  - apply in_or_app. right. apply in_or_app. left. now apply Hnode.
  - apply in_or_app. right. apply in_or_app. left. apply Hnode. apply Hd.
Qed.

Lemma export_dependency_graph_draws_internal_dependencies_witness :
  In (ExportDependencyGraph.edge_line "A" "B")
     (ExportDependencyGraph.export_dependency_graph (fun s => s)
        (AssemblyDependencyAnalyzer.load triangle_files)).
Proof.
  destruct (export_dependency_graph_draws_internal_dependencies (fun s => s) triangle_files)
    as [_ H].
  - intros s. apply Permutation_refl.
  - apply (H "A" "B"). split; vm_compute; auto.
Defined.


(* ------------------------------------------------------------------------- *)
(** ** The passes and the programs on the same files *)

(** X25.  On the same files, each of which declares its name, when
    [detect_circular_dependencies] of [assembly_dependency_analyzer.py]
    returns no cycle, [DependencyAnalyzer.find_cycles] returns none either:
    the graph of the first holds every edge the second follows.  (A file
    without the key [name] is named differently by the two programs.) *)
Theorem no_cycle_detected_no_cycle_found
    (set_iter : pyset -> list string) (files : list asmdef_file) :
  iteration_order set_iter ->
  Forall declares_name files ->
  AssemblyDependencyAnalyzer.detect_circular_dependencies set_iter
    (AssemblyDependencyAnalyzer.load files) = Ok [] ->
  DependencyAnalyzer.find_cycles
    (fst (DependencyAnalyzer.load_assemblies files DependencyAnalyzer.init)) = Ok [].
Proof.
  intros Horder Hnamed E.
  pose proof (detect_circular_dependencies_empty_acyclic set_iter _ Horder E) as Hac.
  apply (find_cycles_acyclic
           (DependencyAnalyzer.dependency_graph
              (fst (DependencyAnalyzer.load_assemblies files DependencyAnalyzer.init))));
    [|reflexivity].
  intros x Hx. apply (Hac x). revert Hx. apply clos_trans_mono.
  intros a b. now apply depends_assembly_depends.
Qed.

Definition layered_files : list asmdef_file :=
  files_of [declare "Game" ["Game.Core"]; declare "Game.Core" []].

Lemma no_cycle_detected_no_cycle_found_witness :
  DependencyAnalyzer.find_cycles
    (fst (DependencyAnalyzer.load_assemblies layered_files DependencyAnalyzer.init))
  = Ok [].
Proof.
  apply (no_cycle_detected_no_cycle_found (fun s => s) layered_files).
  - intros s. apply Permutation_refl.
  - repeat constructor; discriminate.
  - vm_compute. reflexivity.
Defined.

(** X26.  For every iteration order of the sets, the passes of [run_analysis]
    on a loaded analyzer all return, and they agree: when the cycle pass
    returns no cycle, the component pass returns no component and every list
    of violations is empty. *)
Theorem run_analysis_passes_agree
    (str_of_list : list string -> string) (set_iter : pyset -> list string)
    (files : list asmdef_file) :
  iteration_order set_iter ->
  exists a,
    AssemblyDependencyAnalyzer.run_passes str_of_list set_iter
      (AssemblyDependencyAnalyzer.load files) = Ok a
    /\ (AssemblyDependencyAnalyzer.found_cycles a = [] ->
        AssemblyDependencyAnalyzer.scc_list a = []
        /\ forall kind items,
             In (kind, items)
                (AssemblyDependencyAnalyzer.violations_items
                   (AssemblyDependencyAnalyzer.found_violations a)) ->
             items = []).
Proof.
  intros Horder. set (self := AssemblyDependencyAnalyzer.load files).
  destruct (detect_circular_dependencies_cycle_in_every_component set_iter self Horder)
    as [sccs [cycles [Es [Ec Hall]]]].
  unfold AssemblyDependencyAnalyzer.run_passes. rewrite Es, Ec. cbn [bind].
  eexists. split; [reflexivity|].
  cbn [AssemblyDependencyAnalyzer.found_cycles AssemblyDependencyAnalyzer.scc_list
       AssemblyDependencyAnalyzer.found_violations].
  intros ->. split.
  - destruct sccs as [|s sccs]; [reflexivity|].
    destruct (Hall s (or_introl eq_refl)) as [c [[] _]].
  - pose proof (detect_circular_dependencies_empty_acyclic set_iter self Horder Ec) as Hac.
    assert (Hnone : forall s,
               ~ In s (AssemblyDependencyAnalyzer.editor_runtime_cycles
                         (AssemblyDependencyAnalyzer.analyze_dependency_violations self)
                       ++ AssemblyDependencyAnalyzer.test_production_cycles
                            (AssemblyDependencyAnalyzer.analyze_dependency_violations self))).
    { intros s Hs.
      destruct (violation_two_cycle files s Hs) as [a [dep [_ [_ [Hfwd Hbwd]]]]].
      apply (Hac a). eapply t_trans; apply t_step; eassumption. }
    destruct (violations_loop_unused self (AssemblyDependencyAnalyzer.assemblies self)
                {| AssemblyDependencyAnalyzer.editor_runtime_cycles := [];
                   AssemblyDependencyAnalyzer.test_production_cycles := [];
                   AssemblyDependencyAnalyzer.circular_core_dependencies := [];
                   AssemblyDependencyAnalyzer.missing_dependencies := [] |}) as [Hcore Hmiss].
    fold (AssemblyDependencyAnalyzer.analyze_dependency_violations self) in Hcore, Hmiss.
    simpl in Hcore, Hmiss.
    intros kind items Hk. unfold AssemblyDependencyAnalyzer.violations_items in Hk.
    destruct Hk as [Hk|[Hk|[Hk|[Hk|[]]]]]; injection Hk as <- <-.
    + destruct (AssemblyDependencyAnalyzer.editor_runtime_cycles _) as [|s l] eqn:He;
        [reflexivity|].
      exfalso. apply (Hnone s). now left.
    + destruct (AssemblyDependencyAnalyzer.test_production_cycles _) as [|s l] eqn:Ht;
        [reflexivity|].
      exfalso. apply (Hnone s). apply in_or_app. right. now left.
    + exact Hcore.
    + exact Hmiss.
Qed.

Lemma run_analysis_passes_agree_witness :
  exists a,
    AssemblyDependencyAnalyzer.run_passes (String.concat ", ") (fun s => s)
      (AssemblyDependencyAnalyzer.load layered_files) = Ok a
    /\ (AssemblyDependencyAnalyzer.found_cycles a = [] ->
        AssemblyDependencyAnalyzer.scc_list a = []
        /\ forall kind items,
             In (kind, items)
                (AssemblyDependencyAnalyzer.violations_items
                   (AssemblyDependencyAnalyzer.found_violations a)) ->
             items = []).
Proof.
  apply (run_analysis_passes_agree (String.concat ", ") (fun s => s) layered_files).
  intros s. apply Permutation_refl.
Defined.


(** When every file declares its name, the edges [analyze_circular_deps.py]
    follows are edges of the graph of [assembly_dependency_analyzer.py] built
    from the same files. *)
Lemma listed_assembly_depends (files : list asmdef_file) (a b : string) :
  Forall declares_name files ->
  listed (snd (fst (AnalyzeCircularDeps.build_dependency_graph files))) a b ->
  assembly_depends (AssemblyDependencyAnalyzer.load files) a b.
Proof.
  intros Hnamed H. apply depends_assembly_depends; [exact Hnamed|].
  now apply build_dependency_graph_depends.
Qed.

(** X27.  On the same files, each of which declares its name, and for every
    iteration order of the sets, every group
    [analyze_circular_deps.find_strongly_connected_components] returns lies
    inside one component
    [AssemblyDependencyAnalyzer.find_strongly_connected_components] returns:
    the second graph holds every edge of the first.  (A file without the key
    [name] is named differently by the two programs.) *)
Theorem circular_group_inside_assembly_component
    (set_iter : pyset -> list string) (files : list asmdef_file) :
  iteration_order set_iter ->
  Forall declares_name files ->
  exists groups comps,
    AnalyzeCircularDeps.find_strongly_connected_components
      (snd (fst (AnalyzeCircularDeps.build_dependency_graph files))) = Ok groups
    /\ AssemblyDependencyAnalyzer.find_strongly_connected_components set_iter
         (AssemblyDependencyAnalyzer.load files) = Ok comps
    /\ forall group, In group groups ->
         exists comp, In comp comps /\ forall n, In n group -> In n comp.
Proof.
  intros Horder Hnamed.
  set (graph := snd (fst (AnalyzeCircularDeps.build_dependency_graph files))).
  set (self := AssemblyDependencyAnalyzer.load files).
  destruct (analyze_circular_deps_components_listed graph) as [groups [Eg [Hg _]]].
  destruct (assembly_components set_iter Horder self) as [comps [Ec [Hs [Hd Hc]]]].
  exists groups, comps. split; [exact Eg|]. split; [exact Ec|].
  intros group Hgroup. destruct (Hg group Hgroup) as [Hlen [Hnd Hr]].
  assert (Hreach : forall x y, In x group -> In y group ->
                               clos_refl_trans string (assembly_depends self) x y).
  { intros x y Hx Hy. apply (clos_refl_trans_mono (listed graph)); [|now apply Hr].
    intros a b. now apply listed_assembly_depends. }
  assert (Hmem : forall x y, x <> y ->
                   clos_refl_trans string (assembly_depends self) y x ->
                   dict_mem x (AssemblyDependencyAnalyzer.assemblies self) = true).
  { intros x y Hne Hyx.
    destruct (reach_target _ _ _ Hyx (not_eq_sym Hne)) as [z [_ Hz]]. exact Hz. }
  destruct group as [|x [|y group]]; simpl in Hlen; try lia.
  assert (Hne : x <> y).
  { inversion Hnd as [|? ? Hn _]; subst. intros ->. apply Hn. now left. }
  assert (Hx : In x (x :: y :: group)) by now left.
  assert (Hy : In y (x :: y :: group)) by (right; now left).
  destruct (Hc x y) as [comp [Hcomp [Hxc Hyc]]]; auto.
  { apply (Hmem x y Hne). now apply Hreach. }
  exists comp. split; [exact Hcomp|]. intros n Hn.
  destruct (string_dec x n) as [<-|Hxn]; [exact Hxc|].
  destruct (Hc x n) as [comp' [Hcomp' [Hxc' Hnc']]]; auto.
  { apply (Hmem x y Hne). now apply Hreach. }
  assert (comp' = comp) by (apply (NoDup_concat_unique comps comp' comp x); assumption).
  now subst.
Qed.

Lemma circular_group_inside_assembly_component_witness :
  exists groups comps,
    AnalyzeCircularDeps.find_strongly_connected_components
      (snd (fst (AnalyzeCircularDeps.build_dependency_graph triangle_files))) = Ok groups
    /\ AssemblyDependencyAnalyzer.find_strongly_connected_components (fun s => s)
         (AssemblyDependencyAnalyzer.load triangle_files) = Ok comps
    /\ forall group, In group groups ->
         exists comp, In comp comps /\ forall n, In n group -> In n comp.
Proof.
  apply (circular_group_inside_assembly_component (fun s => s) triangle_files).
  - intros s. apply Permutation_refl.
  - repeat constructor; discriminate.
Defined.


(* ------------------------------------------------------------------------- *)
(** ** What every sequence returned by [DependencyAnalyzer.find_cycles] is *)

Lemma removelast_In {A} (l : list A) x : In x (removelast l) -> In x l.
Proof.
  induction l as [|a l IH]; simpl; [auto|].
  destruct l as [|b l]; [intros [] | intros [->|H]; auto].
Qed.

Section FindCyclesMembers.

Import DependencyAnalyzer.

Variable graph : dict (list string).

(** [c] starts and ends with the same module and names modules of the graph
    only. *)
Definition module_cycle (c : list string) : Prop :=
  (exists m ms, c = m :: ms ++ [m]) /\ forall x, In x c -> dict_mem x graph = true.

Definition known_path (st : dfs_state) : Prop :=
  forall x, In x (path st) -> dict_mem x graph = true.

Definition appends_module_cycles (st st' : dfs_state) : Prop :=
  known_path st'
  /\ exists extra, cycles st' = cycles st ++ extra /\ Forall module_cycle extra.

Definition members_spec (rec : string -> dfs_state -> result (bool * dfs_state)) : Prop :=
  forall node st r,
    rec node st = Ok r -> dict_mem node graph = true -> known_path st ->
    appends_module_cycles st (snd r).

Lemma appends_module_cycles_refl st : known_path st -> appends_module_cycles st st.
Proof. intros H. split; [exact H|]. exists []. now rewrite app_nil_r. Qed.

Lemma appends_module_cycles_trans st1 st2 st3 :
  appends_module_cycles st1 st2 -> appends_module_cycles st2 st3 ->
  appends_module_cycles st1 st3.
Proof.
  intros [_ [e1 [C1 F1]]] [K [e2 [C2 F2]]]. split; [exact K|].
  exists (e1 ++ e2). split; [rewrite C2, C1; now rewrite app_assoc|].
  apply Forall_app. auto.
Qed.

Lemma members_neighbors rec :
  members_spec rec ->
  forall neighbors st r,
    dfs_neighbors rec graph neighbors st = Ok r -> known_path st ->
    appends_module_cycles st (snd r).
Proof.
  intros Hrec. induction neighbors as [|n ns IH]; intros st r E Hk; simpl in E.
  - injection E as <-. now apply appends_module_cycles_refl.
  - destruct (dict_mem n graph) eqn:Hn; [|now apply IH].
    apply bind_Ok in E. destruct E as [r1 [E1 E]].
    pose proof (Hrec n st r1 E1 Hn Hk) as H1.
    destruct (fst r1).
    + injection E as <-. exact H1.
    + apply appends_module_cycles_trans with (st2 := snd r1); [exact H1|].
      apply IH; [exact E | apply H1].
Qed.

Lemma members_dfs fuel : members_spec (dfs fuel graph).
Proof.
  induction fuel as [|fuel IH]; intros node st r E Hn Hk; [discriminate|].
  cbn [dfs] in E. destruct (set_mem node (rec_stack st)).
  - apply bind_Ok in E. destruct E as [i [Hi E]]. injection E as <-. simpl.
    split; [exact Hk|]. eexists. split; [reflexivity|]. constructor; [|constructor].
    destruct (skipn_index_cycle _ _ _ Hi) as [l1 [l2 [Hp Hsk]]]. rewrite Hsk. split.
    + now exists node, l2.
    + intros x Hx. simpl in Hx. destruct Hx as [<-|Hx]; [exact Hn|].
      apply in_app_or in Hx. destruct Hx as [Hx|[<-|[]]]; [|exact Hn].
      apply Hk. rewrite Hp. apply in_or_app. right. now right.
  - destruct (set_mem node (visited st)).
    + injection E as <-. now apply appends_module_cycles_refl.
    + apply bind_Ok in E. destruct E as [r1 [E1 E]].
      apply (members_neighbors _ IH) in E1.
      * destruct E1 as [K1 C1]. simpl in C1. destruct (fst r1).
        -- injection E as <-. split; [exact K1 | exact C1].
        -- apply bind_Ok in E. destruct E as [rs [_ E]].
           apply bind_Ok in E. destruct E as [p [Hp E]]. injection E as <-. simpl.
           split; [|exact C1]. intros x Hx. simpl in Hx. apply K1.
           unfold list_pop in Hp. destruct (path (snd r1)) as [|a l] eqn:El;
             [discriminate|].
           injection Hp as <-. now apply removelast_In.
      * intros x Hx. simpl in Hx. apply in_app_or in Hx.
        destruct Hx as [Hx|[<-|[]]]; [now apply Hk | exact Hn].
Qed.

Lemma members_loop fuel todo : forall st st',
  find_cycles_loop fuel graph todo st = Ok st' ->
  (forall k, In k todo -> dict_mem k graph = true) -> known_path st ->
  appends_module_cycles st st'.
Proof.
  induction todo as [|a todo IH]; intros st st' E Hkeys Hk; cbn [find_cycles_loop] in E.
  - injection E as <-. now apply appends_module_cycles_refl.
  - assert (Hkeys' : forall k, In k todo -> dict_mem k graph = true)
      by (intros; apply Hkeys; now right).
    destruct (set_mem a (visited st)); [now apply IH|].
    apply bind_Ok in E. destruct E as [r1 [E1 E]].
    pose proof (members_dfs fuel a st r1 E1 (Hkeys a (or_introl eq_refl)) Hk) as H1.
    apply appends_module_cycles_trans with (st2 := snd r1); [exact H1|].
    apply IH; [exact E | exact Hkeys' | apply H1].
Qed.

End FindCyclesMembers.

(** Every sequence [find_cycles] returns, well formed or not, starts and
    ends with the same module and names modules of the graph only. *)
Lemma find_cycles_module_cycles (self : DependencyAnalyzer.analyzer) cycles :
  DependencyAnalyzer.find_cycles self = Ok cycles ->
  Forall (module_cycle (DependencyAnalyzer.dependency_graph self)) cycles.
Proof.
  unfold DependencyAnalyzer.find_cycles, DependencyAnalyzer.find_cycles_from. intros E.
  apply bind_Ok in E. destruct E as [st' [E1 E]]. injection E as <-.
  apply members_loop in E1.
  - destruct E1 as [_ [extra [C F]]]. rewrite C. exact F.
  - intros k Hk. now apply dict_mem_true.
  - intros x [].
Qed.

Lemma chain_targets (R : string -> string -> Prop) l : forall a,
  chain R (a :: l) -> forall n, In n l -> exists z, R z n.
Proof.
  induction l as [|b l IH]; intros a H n Hn; [destruct Hn|].
  destruct H as [Hab H]. destruct Hn as [<-|Hn]; [now exists a|].
  now apply (IH b).
Qed.

(** Every module of a well-formed cycle is the target of an edge. *)
Lemma well_formed_cycle_targets (R : string -> string -> Prop) c n :
  well_formed_cycle R c -> In n c -> exists z, R z n.
Proof.
  intros [[m [ms ->]] Hchain] Hn.
  assert (Hlast : In m (ms ++ [m])) by (apply in_or_app; right; now left).
  destruct Hn as [<-|Hn]; now apply (chain_targets R (ms ++ [m]) m).
Qed.

(** Every violation names two loaded assemblies. *)
Lemma violation_names_loaded (self : AssemblyDependencyAnalyzer.analyzer) kind items item :
  In (kind, items)
     (AssemblyDependencyAnalyzer.violations_items
        (AssemblyDependencyAnalyzer.analyze_dependency_violations self)) ->
  In item items ->
  exists x y,
    item = x +++ " <-> " +++ y
    /\ dict_mem x (AssemblyDependencyAnalyzer.assemblies self) = true
    /\ dict_mem y (AssemblyDependencyAnalyzer.assemblies self) = true.
Proof.
  intros Hk Hi.
  assert (Hunused :
            AssemblyDependencyAnalyzer.circular_core_dependencies
              (AssemblyDependencyAnalyzer.analyze_dependency_violations self) = []
            /\ AssemblyDependencyAnalyzer.missing_dependencies
                 (AssemblyDependencyAnalyzer.analyze_dependency_violations self) = [])
    by apply (violations_loop_unused self (AssemblyDependencyAnalyzer.assemblies self)).
  destruct Hunused as [Hcore Hmiss].
  assert (H : exists restricted a info dep,
             In (a, info) (AssemblyDependencyAnalyzer.assemblies self)
             /\ back_reference self restricted a info dep
             /\ item = a +++ " <-> " +++ dep).
  { unfold AssemblyDependencyAnalyzer.violations_items in Hk.
    destruct Hk as [Hk|[Hk|[Hk|[Hk|[]]]]]; injection Hk as _ Hitems.
    - rewrite <- Hitems in Hi.
      unfold AssemblyDependencyAnalyzer.analyze_dependency_violations in Hi.
      rewrite editor_runtime_cycles_loop in Hi. simpl in Hi.
      apply (class_cycles_In self AssemblyDependencyAnalyzer.is_editor) in Hi.
      exists AssemblyDependencyAnalyzer.is_editor. exact Hi.
    - rewrite <- Hitems in Hi.
      unfold AssemblyDependencyAnalyzer.analyze_dependency_violations in Hi.
      rewrite test_production_cycles_loop in Hi. simpl in Hi.
      apply (class_cycles_In self AssemblyDependencyAnalyzer.is_test) in Hi.
      exists AssemblyDependencyAnalyzer.is_test. exact Hi.
    - rewrite <- Hitems, Hcore in Hi. destruct Hi.
    - rewrite <- Hitems, Hmiss in Hi. destruct Hi. }
  destruct H as [restricted [a [info [dep [Hin [[_ [_ [Hmem _]]] Heq]]]]]].
  exists a, dep. split; [exact Heq|]. split; [|exact Hmem].
  apply dict_mem_true. unfold dict_keys. apply in_map_iff. now exists (a, info).
Qed.

(* ------------------------------------------------------------------------- *)
(** ** Cycles of one program and components of the other *)

(** C2, as amended.  On files that all declare their name, every sequence
    [DependencyAnalyzer.find_cycles] returns starts and ends with the same
    module, and the first one is a chain of forward edges between known
    modules.  A returned sequence that is such a chain lies in exactly one
    component returned by
    [AssemblyDependencyAnalyzer.find_strongly_connected_components] on the
    same files if and only if one of its modules lies on a cycle through
    another module: always when it goes through two distinct modules, and for
    a self-reference [[X; X]] only when [X] is in a larger component;
    components of one module are not returned. *)
Theorem cycle_in_exactly_one_component
    (set_iter : pyset -> list string) (files : list asmdef_file) :
  iteration_order set_iter ->
  Forall declares_name files ->
  let analyzer := fst (DependencyAnalyzer.load_assemblies files DependencyAnalyzer.init) in
  let graph := DependencyAnalyzer.dependency_graph analyzer in
  let self := AssemblyDependencyAnalyzer.load files in
  exists cycles sccs,
    DependencyAnalyzer.find_cycles analyzer = Ok cycles
    /\ AssemblyDependencyAnalyzer.find_strongly_connected_components set_iter self = Ok sccs
    /\ (forall c, In c cycles -> exists m ms, c = m :: ms ++ [m])
    /\ (forall c rest, cycles = c :: rest -> chain (depends graph) c)
    /\ (forall c, In c cycles -> chain (depends graph) c ->
          (in_one_component sccs c <-> on_larger_cycle (assembly_depends self) c))
    /\ (forall c, In c cycles -> chain (depends graph) c ->
          (exists x y, In x c /\ In y c /\ x <> y) -> in_one_component sccs c)
    /\ (forall X, In [X; X] cycles ->
          (forall y, y <> X ->
             ~ (clos_refl_trans string (assembly_depends self) X y
                /\ clos_refl_trans string (assembly_depends self) y X)) ->
          forall s, In s sccs -> ~ In X s).
Proof.
  intros Horder Hnamed analyzer graph self.
  destruct (find_cycles_first_or_settled analyzer) as [cycles [Ec Hfirst]].
  destruct (assembly_components set_iter Horder self) as [sccs [Es [Hsound [Hdisj Hcompl]]]].
  pose proof (find_cycles_module_cycles analyzer cycles Ec) as Hshape.
  rewrite Forall_forall in Hshape.
  assert (Hwf : forall c, In c cycles -> chain (depends graph) c ->
                          well_formed_cycle (assembly_depends self) c).
  { intros c Hc Hchain. split; [apply (Hshape c Hc)|].
    revert Hchain. apply chain_mono. intros a b. now apply depends_assembly_depends. }
  exists cycles, sccs. split; [exact Ec|]. split; [exact Es|].
  split; [|split; [|split; [|split]]].
  - intros c Hc. apply (Hshape c Hc).
  - intros c rest ->. destruct Hfirst as [[H _]|[c' [rest' [[= <- <-] [_ H]]]]];
      [discriminate | exact H].
  - intros c Hc Hchain.
    apply (cycle_component_criterion self sccs Hsound Hdisj Hcompl c (Hwf c Hc Hchain)).
  - intros c Hc Hchain Htwo.
    apply (cycle_component_unique self sccs Hsound Hdisj Hcompl c (Hwf c Hc Hchain) Htwo).
  - intros X _ Halone s Hs HX.
    destruct (Hsound s Hs) as [Hlen [Hnd Hr]].
    assert (Hy : exists y, In y s /\ y <> X).
    { destruct s as [|a [|b s]]; simpl in Hlen; try lia.
      inversion Hnd as [|? ? Hn _]; subst.
      destruct (string_dec a X) as [->|Ha]; [|exists a; simpl; auto].
      exists b. split; [simpl; auto|]. intros ->. apply Hn. now left. }
    destruct Hy as [y [Hy Hne]]. apply (Halone y Hne). split; apply Hr; auto.
Qed.

Lemma cycle_in_exactly_one_component_witness :
  let analyzer :=
    fst (DependencyAnalyzer.load_assemblies triangle_files DependencyAnalyzer.init) in
  let graph := DependencyAnalyzer.dependency_graph analyzer in
  let self := AssemblyDependencyAnalyzer.load triangle_files in
  exists cycles sccs,
    DependencyAnalyzer.find_cycles analyzer = Ok cycles
    /\ AssemblyDependencyAnalyzer.find_strongly_connected_components (fun s => s) self
       = Ok sccs
    /\ (forall c, In c cycles -> exists m ms, c = m :: ms ++ [m])
    /\ (forall c rest, cycles = c :: rest -> chain (depends graph) c)
    /\ (forall c, In c cycles -> chain (depends graph) c ->
          (in_one_component sccs c <-> on_larger_cycle (assembly_depends self) c))
    /\ (forall c, In c cycles -> chain (depends graph) c ->
          (exists x y, In x c /\ In y c /\ x <> y) -> in_one_component sccs c)
    /\ (forall X, In [X; X] cycles ->
          (forall y, y <> X ->
             ~ (clos_refl_trans string (assembly_depends self) X y
                /\ clos_refl_trans string (assembly_depends self) y X)) ->
          forall s, In s sccs -> ~ In X s).
Proof.
  apply (cycle_in_exactly_one_component (fun s => s) triangle_files).
  - intros s. apply Permutation_refl.
  - repeat constructor; discriminate.
Defined.

(** A file without the key [name], which references [B], and the file of [B],
    which references the empty name. *)
Definition unnamed_files : list asmdef_file :=
  [{| file_path := "F1.asmdef"; relative_path := "F1.asmdef"; file_stem := "F1";
      content := Json {| decl_name := None; decl_references := ["B"];
                         decl_assembly_references := [] |} |};
   {| file_path := "B.asmdef"; relative_path := "B.asmdef"; file_stem := "B";
      content := Json (declare "B" [""]) |}].

(** Without its name a file is the module [""] for [DependencyAnalyzer] and
    the module [F1], the stem of its file name, for
    [AssemblyDependencyAnalyzer]: the first finds a cycle of two modules, the
    second has no component. *)
Lemma unnamed_file_named_differently :
  DependencyAnalyzer.find_cycles
    (fst (DependencyAnalyzer.load_assemblies unnamed_files DependencyAnalyzer.init))
  = Ok [[""; "B"; ""]]
  /\ dict_keys (AssemblyDependencyAnalyzer.assemblies
                  (AssemblyDependencyAnalyzer.load unnamed_files))
     = ["F1"; "B"]
  /\ AssemblyDependencyAnalyzer.find_strongly_connected_components (fun s => s)
       (AssemblyDependencyAnalyzer.load unnamed_files) = Ok [].
Proof. split; [reflexivity|]. split; reflexivity. Qed.

(* ------------------------------------------------------------------------- *)
(** ** References to modules that are not declared *)

(** C6, as amended.  In every input in which a module [a] declares a
    dependency [external_lib] that is not a declared module, [external_lib]
    is in no sequence [DependencyAnalyzer.find_cycles] returns, and
    [find_cycles] returns no cycle exactly when the declared modules have no
    cycle among themselves; [detect_circular_dependencies] likewise returns
    cycles of loaded assemblies only, and none exactly when the loaded
    assemblies have no cycle among themselves.  No dangling reference is
    reported: [missing_dependencies] is empty and every violation names two
    loaded assemblies. *)
Theorem dangling_reference_no_cycle_not_reported
    (set_iter : pyset -> list string) (files : list asmdef_file)
    (a external_lib : string) (refs : list string) :
  iteration_order set_iter ->
  let analyzer := fst (DependencyAnalyzer.load_assemblies files DependencyAnalyzer.init) in
  let graph := DependencyAnalyzer.dependency_graph analyzer in
  let self := AssemblyDependencyAnalyzer.load files in
  dict_get a graph = Some refs -> In external_lib refs ->
  dict_mem external_lib graph = false ->
  (exists cycles,
      DependencyAnalyzer.find_cycles analyzer = Ok cycles
      /\ (forall c, In c cycles -> ~ In external_lib c)
      /\ (cycles = [] <-> acyclic graph))
  /\ (exists cycles,
        AssemblyDependencyAnalyzer.detect_circular_dependencies set_iter self = Ok cycles
        /\ (forall c n, In c cycles -> In n c ->
              dict_mem n (AssemblyDependencyAnalyzer.assemblies self) = true)
        /\ (cycles = [] <-> forall x, ~ clos_trans string (assembly_depends self) x x))
  /\ AssemblyDependencyAnalyzer.missing_dependencies
       (AssemblyDependencyAnalyzer.analyze_dependency_violations self) = []
  /\ (forall kind items item,
        In (kind, items)
           (AssemblyDependencyAnalyzer.violations_items
              (AssemblyDependencyAnalyzer.analyze_dependency_violations self)) ->
        In item items ->
        exists x y,
          item = x +++ " <-> " +++ y
          /\ dict_mem x (AssemblyDependencyAnalyzer.assemblies self) = true
          /\ dict_mem y (AssemblyDependencyAnalyzer.assemblies self) = true).
Proof.
  intros Horder analyzer graph self _ _ Hext. split; [|split; [|split]].
  - destruct (find_cycles_first_or_settled analyzer) as [cycles [Ec Hfirst]].
    exists cycles. split; [exact Ec|]. split.
    + intros c Hc Hin.
      pose proof (find_cycles_module_cycles analyzer cycles Ec) as Hm.
      rewrite Forall_forall in Hm. destruct (Hm c Hc) as [_ Hk].
      specialize (Hk external_lib Hin). fold graph in Hk. congruence.
    + split.
      * intros ->. destruct Hfirst as [[_ H]|[c [rest [H _]]]]; [exact H | discriminate].
      * intros Hac. pose proof (find_cycles_acyclic graph Hac analyzer eq_refl) as E.
        rewrite Ec in E. now injection E.
  - destruct (detect_circular_dependencies_well_formed set_iter Horder self)
      as [cycles [Ec Hwf]].
    exists cycles. split; [exact Ec|]. split.
    + intros c n Hc Hn. rewrite Forall_forall in Hwf.
      destruct (well_formed_cycle_targets _ c n (Hwf c Hc) Hn) as [z [_ Hz]]. exact Hz.
    + split.
      * intros ->. now apply (detect_circular_dependencies_empty_acyclic set_iter self).
      * intros Hac.
        pose proof (detect_circular_dependencies_acyclic set_iter self Horder Hac) as E.
        rewrite Ec in E. now injection E.
  - apply (violations_loop_unused self (AssemblyDependencyAnalyzer.assemblies self)).
  - intros kind items item. apply violation_names_loaded.
Qed.

Definition dangling_files : list asmdef_file :=
  files_of [declare "A" ["External.Lib"]].

Lemma dangling_reference_no_cycle_not_reported_witness :
  let analyzer :=
    fst (DependencyAnalyzer.load_assemblies dangling_files DependencyAnalyzer.init) in
  let graph := DependencyAnalyzer.dependency_graph analyzer in
  let self := AssemblyDependencyAnalyzer.load dangling_files in
  (exists cycles,
      DependencyAnalyzer.find_cycles analyzer = Ok cycles
      /\ (forall c, In c cycles -> ~ In "External.Lib" c)
      /\ (cycles = [] <-> acyclic graph))
  /\ (exists cycles,
        AssemblyDependencyAnalyzer.detect_circular_dependencies (fun s => s) self
        = Ok cycles
        /\ (forall c n, In c cycles -> In n c ->
              dict_mem n (AssemblyDependencyAnalyzer.assemblies self) = true)
        /\ (cycles = [] <-> forall x, ~ clos_trans string (assembly_depends self) x x))
  /\ AssemblyDependencyAnalyzer.missing_dependencies
       (AssemblyDependencyAnalyzer.analyze_dependency_violations self) = []
  /\ (forall kind items item,
        In (kind, items)
           (AssemblyDependencyAnalyzer.violations_items
              (AssemblyDependencyAnalyzer.analyze_dependency_violations self)) ->
        In item items ->
        exists x y,
          item = x +++ " <-> " +++ y
          /\ dict_mem x (AssemblyDependencyAnalyzer.assemblies self) = true
          /\ dict_mem y (AssemblyDependencyAnalyzer.assemblies self) = true).
Proof.
  apply (dangling_reference_no_cycle_not_reported (fun s => s) dangling_files
           "A" "External.Lib" ["External.Lib"]).
  - intros s. apply Permutation_refl.
  - reflexivity.
  - now left.
  - reflexivity.
Defined.
